(** * Telescope: the message-routed client/server coordination layer

    A shallow embedding of
    - class [TelescopeServer]
      ([packages/core/src/server.ts], lines 9-190) and the interface
      [WebSocketMessage] of [types.ts] (same file, lines 296-308),
    - class [TelescopeClient] of the browser runtime
      ([client.ts]; lines 320-569 of
      [packages/browser-runtime/src/tree-view.ts]),
    - [startCommand] ([packages/cli/src/commands/start.ts]),
    together with the properties of the protocol that are checked against
    them.

    Conventions of the model.
    - JavaScript values are the trees of [Js.JsValue]; numbers are
      integers.  A received frame is represented by what [JSON.parse]
      makes of it, a transmitted frame by the message that
      [JSON.stringify] serialises.
    - Exceptions are sums [Error + A]; an [async] method that throws is a
      method whose returned promise rejects.
    - [Date.now()], [Math.random()] and the engine's stack text are
      inputs of the functions that read them.
    - Time is the set of timers that are set: a timer carries its delay
      and may fire once, whenever the event loop picks it.
    - A promise, a socket, a listener is a reference: an index into the
      page's promises and sockets, a name for a listener.  Listeners
      given to [on()] are opaque; calling one is recorded.
    - Console output is kept for the server and left out for the
      client. *)

From Stdlib Require Import ZArith.
From stdpp Require Import base option list strings gmap pretty.

Set Warnings "-register-all".

Local Open Scope Z_scope.
Local Open Scope string_scope.
Local Open Scope list_scope.

(** ** JavaScript values and errors *)

Module Js.

Record Error := mkError {
  name : string;
  message : string;
  stack : string;
}.

Inductive JsValue :=
| JUndefined
| JNull
| JBool (b : bool)
| JNum (n : Z)
| JBigInt (n : Z)
| JStr (s : string)
| JArr (items : list JsValue)
| JObj (fields : list (string * JsValue)).

(** [new TypeError(msg)], [new Error(msg)]; [st] is the stack text the
    engine attaches. *)
Definition TypeError (msg st : string) : Error :=
  {| name := "TypeError"; message := msg; stack := st |}.

Definition new_Error (msg st : string) : Error :=
  {| name := "Error"; message := msg; stack := st |}.

(** ToBoolean. *)
Definition truthy (v : JsValue) : bool :=
  match v with
  | JUndefined | JNull => false
  | JBool b => b
  | JNum n | JBigInt n => negb (Z.eqb n 0)
  | JStr s => negb (String.eqb s "")
  | JArr _ | JObj _ => true
  end.

(** Own property of a plain object. *)
Fixpoint own (fields : list (string * JsValue)) (k : string) : option JsValue :=
  match fields with
  | [] => None
  | (k', v) :: rest => if String.eqb k' k then Some v else own rest k
  end.

(** [v.k] for the property names this program reads ([type], [payload],
    [requestId], [message]); none of them is inherited, so a value that
    is not an object with that own property gives [undefined], and
    [null] and [undefined] throw. *)
Definition get_prop (st : string) (v : JsValue) (k : string) : Error + JsValue :=
  match v with
  | JUndefined =>
      inl (TypeError ("Cannot read properties of undefined (reading '" +:+ k +:+ "')") st)
  | JNull =>
      inl (TypeError ("Cannot read properties of null (reading '" +:+ k +:+ "')") st)
  | JObj fields => inr (default JUndefined (own fields k))
  | _ => inr JUndefined
  end.

(** ToString, as a template literal and [new Error(v)] apply it.  A plain
    object that has an own [toString] property (data, hence not
    callable) cannot be converted. *)
Fixpoint ToString (st : string) (v : JsValue) : Error + string :=
  match v with
  | JUndefined => inr "undefined"
  | JNull => inr "null"
  | JBool true => inr "true"
  | JBool false => inr "false"
  | JNum n | JBigInt n => inr (pretty n)
  | JStr s => inr s
  | JArr items =>
      (fix join (l : list JsValue) : Error + string :=
         match l with
         | [] => inr ""
         | x :: rest =>
             let elt := match x with
                        | JUndefined | JNull => inr ""
                        | _ => ToString st x
                        end in
             match elt, rest with
             | inl e, _ => inl e
             | inr s, [] => inr s
             | inr s, _ :: _ =>
                 match join rest with
                 | inl e => inl e
                 | inr r => inr (s +:+ "," +:+ r)
                 end
             end
         end) items
  | JObj fields =>
      match own fields "toString" with
      | Some _ => inl (TypeError "Cannot convert object to primitive value" st)
      | None => inr "[object Object]"
      end
  end.

(** [JSON.stringify] throws a TypeError on a BigInt anywhere in the
    value. *)
Fixpoint has_bigint (v : JsValue) : bool :=
  match v with
  | JBigInt _ => true
  | JArr items => existsb has_bigint items
  | JObj fields => existsb (fun kv => has_bigint (snd kv)) fields
  | _ => false
  end.

(** Strict equality with a string literal. *)
Definition is_str (v : JsValue) (s : string) : bool :=
  match v with
  | JStr s' => String.eqb s' s
  | _ => false
  end.

(** [error.toString()], used by [`${error}`]. *)
Definition Error_toString (e : Error) : string :=
  if String.eqb (message e) "" then name e
  else if String.eqb (name e) "" then message e
  else name e +:+ ": " +:+ message e.

End Js.

Import Js.

(** ** The message envelope ([types.ts], interface [WebSocketMessage]) *)

Record WebSocketMessage := mkMessage {
  type : string;
  payload : JsValue;
  requestId : JsValue;
  timestamp : Z;
}.

(** A frame on the wire, seen through [JSON.parse]: text that is not JSON
    makes it throw the given SyntaxError, any other text gives a value. *)
Inductive Frame :=
| Malformed (e : Error)
| Json (v : JsValue).

Definition JSON_parse (f : Frame) : Error + JsValue :=
  match f with
  | Malformed e => inl e
  | Json v => inr v
  end.

(** ** The server endpoint ([server.ts]) *)

Module Server.

Inductive LogEntry :=
| Log (text : string)
| LogError (text : string) (e : Error).

(** One accepted connection: the frames sent on it, oldest first, and the
    process console.  [ws.send], here [ws_transmit], appends to the
    former; it does not throw on a socket that was accepted. *)
Record Conn := mkConn {
  sent : list WebSocketMessage;
  console : list LogEntry;
}.

Definition ws_transmit (m : WebSocketMessage) (c : Conn) : Conn :=
  {| sent := sent c ++ [m]; console := console c |}.

Definition console_log (l : LogEntry) (c : Conn) : Conn :=
  {| sent := sent c; console := console c ++ [l] |}.

(** [sendResponse(ws, requestId, payload)], lines 157-166 *)
Definition sendResponse (now : Z) (requestId : JsValue) (pl : JsValue) (c : Conn) : Conn :=
  let response :=
    {| type := "component-selected";
       payload := pl;
       requestId := requestId;
       timestamp := now |} in
  ws_transmit response c.

(** [sendError(ws, requestId, error)], lines 171-183 *)
Definition sendError (now : Z) (requestId : JsValue) (error : Error) (c : Conn) : Conn :=
  let errorMessage :=
    {| type := "error";
       payload := JObj [("message", JStr (message error));
                        ("stack", JStr (stack error))];
       requestId := requestId;
       timestamp := now |} in
  ws_transmit errorMessage c.

(** The four handlers, lines 121-152. *)
Definition handleComponentSelected (now : Z) (_payload requestId : JsValue) : Conn -> Conn :=
  sendResponse now requestId (JObj [("status", JStr "acknowledged")]).

Definition handleOpenEditor (now : Z) (_payload requestId : JsValue) : Conn -> Conn :=
  sendResponse now requestId (JObj [("status", JStr "pending")]).

Definition handleGenerateTestIds (now : Z) (_payload requestId : JsValue) : Conn -> Conn :=
  sendResponse now requestId (JObj [("status", JStr "pending")]).

Definition handleInsertCode (now : Z) (_payload requestId : JsValue) : Conn -> Conn :=
  sendResponse now requestId (JObj [("status", JStr "pending")]).

(** The [switch] of [routeMessage], inside its [try]: the connection
    after the matching handler, or the error of the [default] case. *)
Definition dispatch (now : Z) (st : string) (ty pl rid : JsValue) (kind : string)
    (c : Conn) : Error + Conn :=
  if is_str ty "component-selected" then inr (handleComponentSelected now pl rid c)
  else if is_str ty "open-editor" then inr (handleOpenEditor now pl rid c)
  else if is_str ty "generate-testids" then inr (handleGenerateTestIds now pl rid c)
  else if is_str ty "insert-code" then inr (handleInsertCode now pl rid c)
  else inl (new_Error ("Unknown message type: " +:+ kind) st).

(** [routeMessage(message, ws)], lines 93-116.  The first line, outside the [try],
    reads [message.type] into a template literal and may throw: the
    property reads throw together, on a [null] message, and the first of
    them is the one of that line.  Inside the [try] every error ends in
    [sendError] with the message's own [requestId]. *)
Definition routeMessage (now : Z) (st : string) (msg : JsValue) (c : Conn) : Error + Conn :=
  match get_prop st msg "type", get_prop st msg "payload", get_prop st msg "requestId" with
  | inr ty, inr pl, inr rid =>
      match ToString st ty with
      | inl e => inl e
      | inr kind =>
          let c := console_log (Log ("[Telescope Server] Received message: " +:+ kind)) c in
          match dispatch now st ty pl rid kind c with
          | inr c' => inr c'
          | inl error => inr (sendError now rid error c)
          end
      end
  | inl e, _, _ | _, inl e, _ | _, _, inl e => inl e
  end.

(** The ['message'] listener installed by [handleConnection], lines
    71-79. *)
Definition on_message (now : Z) (st : string) (data : Frame) (c : Conn) : Conn :=
  let caught (error : Error) (c : Conn) :=
    sendError now (JStr "unknown") error
      (console_log (LogError "[Telescope Server] Error processing message:" error) c) in
  match JSON_parse data with
  | inl error => caught error c
  | inr message =>
      match routeMessage now st message c with
      | inr c' => c'
      | inl error => caught error c
      end
  end.

End Server.

(** ** The client endpoint ([TelescopeClient]) *)

Module Client.

Inductive ReadyState := CONNECTING | OPEN | CLOSING | CLOSED.

(** A promise created by the client: by [connect()], or by [send()] for
    the request that was given [requestId]. *)
Inductive Origin :=
| OfConnect
| OfRequest (requestId : string).

Inductive PromiseState :=
| Pending
| Fulfilled (v : JsValue)
| Rejected (e : Error).

Record Promise := mkPromise {
  origin : Origin;
  state : PromiseState;
}.

(** A [WebSocket] object.  Its four handlers are the closures installed
    by the [connect()] call that created it; of that call they capture
    only [resolve], the promise [opener]. *)
Record Socket := mkSocket {
  readyState : ReadyState;
  opener : nat;
  transmitted : list WebSocketMessage;
}.

(** The callbacks given to [setTimeout]. *)
Inductive TimerCallback :=
| RequestTimeout (requestId : string) (promise : nat)
| ConnectionTimeout (promise : nat)
| Reconnect.

(** The fields of a [TelescopeClient]; [url] is fixed by the constructor
    and enters the model through [new WebSocket(this.url)] below. *)
Record Client := mkClient {
  ws : option nat;
  messageQueue : list WebSocketMessage;
  pendingRequests : gmap string nat;
  reconnectAttempts : nat;
  isConnecting : bool;
  messageHandlers : gmap string nat;
}.

Definition maxReconnectAttempts : nat := 5.
Definition reconnectDelay : Z := 1000.

(** The page: the client, every socket and promise it created (a
    reference is an index), the timers that are set and have not fired,
    and the calls made to registered listeners. *)
Record World := mkWorld {
  this : Client;
  sockets : list Socket;
  promises : list Promise;
  timers : list (Z * TimerCallback);
  delivered : list (nat * JsValue);
}.

Definition init : World :=
  {| this := {| ws := None; messageQueue := []; pendingRequests := ∅;
                reconnectAttempts := 0; isConnecting := false;
                messageHandlers := ∅ |};
     sockets := []; promises := []; timers := []; delivered := [] |}.

(** *** Field updates *)

Definition set_ws (x : option nat) (c : Client) : Client :=
  mkClient x (messageQueue c) (pendingRequests c) (reconnectAttempts c)
    (isConnecting c) (messageHandlers c).
Definition set_messageQueue (x : list WebSocketMessage) (c : Client) : Client :=
  mkClient (ws c) x (pendingRequests c) (reconnectAttempts c)
    (isConnecting c) (messageHandlers c).
Definition set_pendingRequests (x : gmap string nat) (c : Client) : Client :=
  mkClient (ws c) (messageQueue c) x (reconnectAttempts c)
    (isConnecting c) (messageHandlers c).
Definition set_reconnectAttempts (x : nat) (c : Client) : Client :=
  mkClient (ws c) (messageQueue c) (pendingRequests c) x
    (isConnecting c) (messageHandlers c).
Definition set_isConnecting (x : bool) (c : Client) : Client :=
  mkClient (ws c) (messageQueue c) (pendingRequests c) (reconnectAttempts c)
    x (messageHandlers c).
Definition set_messageHandlers (x : gmap string nat) (c : Client) : Client :=
  mkClient (ws c) (messageQueue c) (pendingRequests c) (reconnectAttempts c)
    (isConnecting c) x.

Definition on_this (f : Client -> Client) (w : World) : World :=
  mkWorld (f (this w)) (sockets w) (promises w) (timers w) (delivered w).
Definition set_sockets (x : list Socket) (w : World) : World :=
  mkWorld (this w) x (promises w) (timers w) (delivered w).
Definition set_promises (x : list Promise) (w : World) : World :=
  mkWorld (this w) (sockets w) x (timers w) (delivered w).
Definition set_timers (x : list (Z * TimerCallback)) (w : World) : World :=
  mkWorld (this w) (sockets w) (promises w) x (delivered w).
Definition set_delivered (x : list (nat * JsValue)) (w : World) : World :=
  mkWorld (this w) (sockets w) (promises w) (timers w) x.

(** *** Promises, timers, sockets *)

(** [new Promise(...)]: the fresh promise and its reference. *)
Definition new_promise (o : Origin) (w : World) : nat * World :=
  (length (promises w), set_promises (promises w ++ [mkPromise o Pending]) w).

(** [resolve(v)] and [reject(e)]: a promise settles once. *)
Definition settle (p : nat) (st : PromiseState) (w : World) : World :=
  let once (pr : Promise) :=
    match state pr with
    | Pending => mkPromise (origin pr) st
    | _ => pr
    end in
  set_promises (alter once p (promises w)) w.

Definition setTimeout (cb : TimerCallback) (delay : Z) (w : World) : World :=
  set_timers (timers w ++ [(delay, cb)]) w.

Definition readyState_eqb (a b : ReadyState) : bool :=
  match a, b with
  | CONNECTING, CONNECTING | OPEN, OPEN | CLOSING, CLOSING | CLOSED, CLOSED => true
  | _, _ => false
  end.

(** [this.ws !== null && this.ws.readyState === WebSocket.OPEN], which is
    also [isConnected()]. *)
Definition isConnected (w : World) : bool :=
  match ws (this w) with
  | None => false
  | Some i =>
      match sockets w !! i with
      | Some s => readyState_eqb (readyState s) OPEN
      | None => false
      end
  end.

(** [JSON.stringify(message)]: the frame is the message itself; a BigInt
    in the payload makes the call throw. *)
Definition JSON_stringify (st : string) (m : WebSocketMessage) : Error + WebSocketMessage :=
  if has_bigint (payload m) || has_bigint (requestId m)
  then inl (TypeError "Do not know how to serialize a BigInt" st)
  else inr m.

(** [socket.send(frame)] of the browser: it throws while the socket is
    CONNECTING, transmits when OPEN, and discards the data without an
    error once the socket is CLOSING or CLOSED. *)
Definition socket_send (st : string) (i : nat) (frame : WebSocketMessage) (w : World)
    : Error + World :=
  match sockets w !! i with
  | None => inr w
  | Some s =>
      match readyState s with
      | CONNECTING =>
          inl {| name := "InvalidStateError";
                 message := "Failed to execute 'send' on 'WebSocket': Still in CONNECTING state.";
                 stack := st |}
      | OPEN =>
          inr (set_sockets
                 (<[i := mkSocket OPEN (opener s) (transmitted s ++ [frame])]> (sockets w)) w)
      | CLOSING | CLOSED => inr w
      end
  end.

(** [this.ws.send(JSON.stringify(message))] *)
Definition ws_send (st : string) (i : nat) (m : WebSocketMessage) (w : World) : Error + World :=
  match JSON_stringify st m with
  | inl e => inl e
  | inr frame => socket_send st i frame w
  end.

(** [socket.close()] *)
Definition socket_close (i : nat) (w : World) : World :=
  let closing (s : Socket) :=
    match readyState s with
    | CONNECTING | OPEN => mkSocket CLOSING (opener s) (transmitted s)
    | CLOSING | CLOSED => s
    end in
  set_sockets (alter closing i (sockets w)) w.

(** [generateRequestId()], lines 559-561: [now] is [Date.now()], [rand] the nine
    base-36 digits cut from [Math.random()]. *)
Definition generateRequestId (now : Z) (rand : string) : string :=
  pretty now +:+ "-" +:+ rand.

(** *** The methods *)

Section Methods.

(** What [new WebSocket(this.url)] does for this client's URL: it throws
    the given error (a SyntaxError, for a URL that is not a WebSocket
    URL), or constructs a socket. *)
Variable WebSocket_throws : option Error.

(** The promise an [async] [connect()] hands back: already resolved, or
    the one of the attempt it started. *)
Inductive Connecting :=
| Resolved
| Attempt (promise : nat).

(** [connect()], lines 346-399 *)
Definition connect (w : World) : Connecting * World :=
  if isConnected w then (Resolved, w)
  else if isConnecting (this w) then (Resolved, w)
  else
    let w := on_this (set_isConnecting true) w in
    let '(p, w) := new_promise OfConnect w in
    match WebSocket_throws with
    | None =>
        let i := length (sockets w) in
        let w := set_sockets (sockets w ++ [mkSocket CONNECTING p []]) w in
        let w := on_this (set_ws (Some i)) w in
        let w := setTimeout (ConnectionTimeout p) 5000 w in
        (Attempt p, w)
    | Some error =>
        let w := on_this (set_isConnecting false) w in
        (Attempt p, settle p (Rejected error) w)
    end.

(** The callback of the 5 s timer of [connect()]. *)
Definition connectionTimeout (st : string) (p : nat) (w : World) : World :=
  if isConnecting (this w) then
    let w := on_this (set_isConnecting false) w in
    settle p (Rejected (new_Error "Connection timeout after 5 seconds" st)) w
  else w.

(** The loop of [flushMessageQueue()] on socket [i]: [shift], send, and
    on an error [unshift] and [break]. *)
Fixpoint flush_loop (st : string) (i : nat) (queue : list WebSocketMessage) (w : World) : World :=
  match queue with
  | [] => on_this (set_messageQueue []) w
  | message :: rest =>
      match ws_send st i message w with
      | inr w' => flush_loop st i rest w'
      | inl _ => on_this (set_messageQueue (message :: rest)) w
      end
  end.

(** [flushMessageQueue()], lines 509-527 *)
Definition flushMessageQueue (st : string) (w : World) : World :=
  match (if isConnected w then ws (this w) else None) with
  | None => w
  | Some i => flush_loop st i (messageQueue (this w)) w
  end.

(** [reconnect()], lines 488-504 *)
Definition reconnect (w : World) : World :=
  if (maxReconnectAttempts <=? reconnectAttempts (this w))%nat then w
  else
    let delay := reconnectDelay * 2 ^ Z.of_nat (reconnectAttempts (this w)) in
    let w := on_this (set_reconnectAttempts (S (reconnectAttempts (this w)))) w in
    setTimeout Reconnect delay w.

(** The callback of the timer of [reconnect()]:
    [this.connect().catch(...)]. *)
Definition reconnectTimer (w : World) : World :=
  snd (connect w).

(** [ws.onopen] of the socket created for promise [p], lines 361-367 *)
Definition onopen (st : string) (p : nat) (w : World) : World :=
  let w := on_this (set_isConnecting false) w in
  let w := on_this (set_reconnectAttempts 0) w in
  let w := flushMessageQueue st w in
  settle p (Fulfilled JUndefined) w.

(** [ws.onerror], lines 373-376 *)
Definition onerror (w : World) : World :=
  on_this (set_isConnecting false) w.

(** [ws.onclose], lines 378-383 *)
Definition onclose (w : World) : World :=
  let w := on_this (set_isConnecting false) w in
  let w := on_this (set_ws None) w in
  reconnect w.

(** [this.pendingRequests.has(key)] and [.get(key)] for a key read from
    a message: the table has string keys only. *)
Definition pending_get (key : JsValue) (w : World) : option (string * nat) :=
  match key with
  | JStr k => (fun p => (k, p)) <$> pendingRequests (this w) !! k
  | _ => None
  end.

(** [this.messageHandlers.get(message.type)] *)
Definition handler_get (key : JsValue) (w : World) : option nat :=
  match key with
  | JStr k => messageHandlers (this w) !! k
  | _ => None
  end.

(** The body of the [try] of [handleMessage(event)], lines 458-483:
    the page it reaches, or the exception and the page at the throw. *)
Definition handleMessage_try (st : string) (event : Frame) (w : World) : Error * World + World :=
  match JSON_parse event with
  | inl e => inl (e, w)
  | inr message =>
      match get_prop st message "requestId", get_prop st message "type",
            get_prop st message "payload" with
      | inr rid, inr ty, inr pl =>
          match (if truthy rid then pending_get rid w else None) with
          | Some (key, p) =>
              let w := on_this (set_pendingRequests (delete key (pendingRequests (this w)))) w in
              if is_str ty "error" then
                match get_prop st pl "message" with
                | inl e => inl (e, w)
                | inr m =>
                    match ToString st (if truthy m then m else JStr "Server error") with
                    | inl e => inl (e, w)
                    | inr text => inr (settle p (Rejected (new_Error text st)) w)
                    end
                end
              else inr (settle p (Fulfilled pl) w)
          | None =>
              match handler_get ty w with
              | Some handler => inr (set_delivered (delivered w ++ [(handler, pl)]) w)
              | None => inr w
              end
          end
      | inl e, _, _ | _, inl e, _ | _, _, inl e => inl (e, w)
      end
  end.

(** [handleMessage(event)]: the [catch] logs the error and returns. *)
Definition handleMessage (st : string) (event : Frame) (w : World) : World :=
  match handleMessage_try st event w with
  | inr w' => w'
  | inl (_, w') => w'
  end.

(** The callback of the 10 s timer of [send()]. *)
Definition requestTimeout (st : string) (requestId : string) (p : nat) (w : World) : World :=
  match pendingRequests (this w) !! requestId with
  | Some _ =>
      let w := on_this (set_pendingRequests (delete requestId (pendingRequests (this w)))) w in
      settle p (Rejected (new_Error "Request timeout" st)) w
  | None => w
  end.

(** What both branches of [send()] end with: the promise whose executor
    registers the request and sets the 10 s timer. *)
Definition await_response (requestId : string) (w : World) : nat * World :=
  let '(p, w) := new_promise (OfRequest requestId) w in
  let w := on_this (set_pendingRequests (<[requestId := p]> (pendingRequests (this w)))) w in
  (p, setTimeout (RequestTimeout requestId p) 10000 w).

(** [send(message)], lines 404-453.  [idNow] and [rand] feed [generateRequestId()],
    [now] is the [Date.now()] of the timestamp.  The result is the
    promise that awaits the response, or the error the returned promise
    rejects with. *)
Definition send (st : string) (idNow : Z) (rand : string) (now : Z)
    (ty : string) (pl : JsValue) (w : World) : (Error + nat) * World :=
  let requestId := generateRequestId idNow rand in
  let fullMessage :=
    {| type := ty; payload := pl; requestId := JStr requestId; timestamp := now |} in
  match (if isConnected w then ws (this w) else None) with
  | None =>
      let w := on_this (set_messageQueue (messageQueue (this w) ++ [fullMessage])) w in
      let w := snd (connect w) in
      let '(p, w) := await_response requestId w in
      (inr p, w)
  | Some i =>
      match ws_send st i fullMessage w with
      | inr w =>
          let '(p, w) := await_response requestId w in
          (inr p, w)
      | inl error =>
          (inl (new_Error ("Failed to send message: " +:+ Error_toString error) st), w)
      end
  end.

(** [on(messageType, handler)] and [off(messageType)], lines 532-541 *)
Definition on (messageType : string) (handler : nat) (w : World) : World :=
  on_this (fun c => set_messageHandlers (<[messageType := handler]> (messageHandlers c)) c) w.

Definition off (messageType : string) (w : World) : World :=
  on_this (fun c => set_messageHandlers (delete messageType (messageHandlers c)) c) w.

(** [disconnect()], lines 546-554 *)
Definition disconnect (w : World) : World :=
  let w :=
    match ws (this w) with
    | Some i => on_this (set_ws None) (socket_close i w)
    | None => w
    end in
  let w := on_this (set_messageQueue []) w in
  let w := on_this (set_pendingRequests ∅) w in
  on_this (set_reconnectAttempts 0) w.

(** *** The event loop

    What can happen to a page that holds a client: a caller invokes a
    method, a socket raises one of its events, a timer fires.  [step] is
    [None] for an event that cannot occur in the given state. *)
Inductive Event :=
| CallConnect
| CallSend (st : string) (idNow : Z) (rand : string) (now : Z) (ty : string) (pl : JsValue)
| CallOn (messageType : string) (handler : nat)
| CallOff (messageType : string)
| CallDisconnect
| SocketOpen (st : string) (i : nat)
| SocketMessage (st : string) (i : nat) (data : Frame)
| SocketError (i : nat)
| SocketClose (i : nat)
| TimerFires (st : string) (k : nat).

Definition set_readyState (i : nat) (r : ReadyState) (w : World) : World :=
  set_sockets (alter (fun s => mkSocket r (opener s) (transmitted s)) i (sockets w)) w.

Definition run_timer (st : string) (cb : TimerCallback) (w : World) : World :=
  match cb with
  | RequestTimeout requestId p => requestTimeout st requestId p w
  | ConnectionTimeout p => connectionTimeout st p w
  | Reconnect => reconnectTimer w
  end.

Definition step (ev : Event) (w : World) : option World :=
  match ev with
  | CallConnect => Some (snd (connect w))
  | CallSend st idNow rand now ty pl => Some (snd (send st idNow rand now ty pl w))
  | CallOn messageType handler => Some (on messageType handler w)
  | CallOff messageType => Some (off messageType w)
  | CallDisconnect => Some (disconnect w)
  | SocketOpen st i =>
      match sockets w !! i with
      | Some (mkSocket CONNECTING p _) => Some (onopen st p (set_readyState i OPEN w))
      | _ => None
      end
  | SocketMessage st i data =>
      match sockets w !! i with
      | Some (mkSocket OPEN _ _) | Some (mkSocket CLOSING _ _) => Some (handleMessage st data w)
      | _ => None
      end
  | SocketError i =>
      match sockets w !! i with
      | Some (mkSocket CONNECTING _ _) | Some (mkSocket OPEN _ _) => Some (onerror w)
      | _ => None
      end
  | SocketClose i =>
      match sockets w !! i with
      | Some (mkSocket CLOSED _ _) | None => None
      | Some _ => Some (onclose (set_readyState i CLOSED w))
      end
  | TimerFires st k =>
      match timers w !! k with
      | Some (_, cb) => Some (run_timer st cb (set_timers (delete k (timers w)) w))
      | None => None
      end
  end.

(** The page after a sequence of events, oldest first. *)
Fixpoint run (evs : list Event) (w : World) : option World :=
  match evs with
  | [] => Some w
  | ev :: rest =>
      match step ev w with
      | Some w' => run rest w'
      | None => None
      end
  end.

End Methods.

End Client.

(** ** The [start] command of the CLI ([commands/start.ts]) *)

Module Cli.

(** The part of the machine the CLI works on: the files, by path, the
    paths that cannot be written, the addresses that are bound, each
    with the process that listens, and the processes that exist (what
    [process.kill(pid, 0)] probes). *)
Record OS := mkOS {
  files : gmap string string;
  readonly : gset string;
  listening : gmap (string * Z) Z;
  alive : gset Z;
}.

Record ServerConfig := mkServerConfig {
  host : string;
  port : Z;
}.

Inductive SignalHandler :=
| Cleanup (pidPath : string) (address : string * Z).

(** How [startCommand] leaves the calling process: the promise it
    returned rejects, or the process keeps serving, parked on a promise
    that never settles, with [cleanup] installed for SIGINT and
    SIGTERM. *)
Inductive Outcome :=
| Threw (e : Error)
| Serving (server : Z) (onSignal : SignalHandler).

(** [path.join(cwd, name)] for a [cwd] without a trailing separator. *)
Definition path_join (cwd name : string) : string :=
  cwd +:+ "/" +:+ name.

(** [server.start()], lines 22-46 of [server.ts]: the listener binds, or
    the ['error'] event rejects when the address is taken. *)
Definition server_start (st : string) (pid : Z) (cfg : ServerConfig) (os : OS) : Error + OS :=
  match listening os !! (host cfg, port cfg) with
  | Some _ =>
      inl {| name := "Error";
             message := "listen EADDRINUSE: address already in use";
             stack := st |}
  | None =>
      inr (mkOS (files os) (readonly os)
             (<[(host cfg, port cfg) := pid]> (listening os)) (alive os))
  end.

(** [fs.writeFileSync(path, data, 'utf-8')] *)
Definition writeFileSync (st : string) (path data : string) (os : OS) : Error + OS :=
  if decide (path ∈ readonly os)
  then inl {| name := "Error";
              message := "EACCES: permission denied, open '" +:+ path +:+ "'";
              stack := st |}
  else inr (mkOS (<[path := data]> (files os)) (readonly os) (listening os) (alive os)).

(** [startCommand(cwd)], lines 9-53, run by the process [pid], with
    [loaded] the result of [configManager.load(cwd)]. *)
Definition startCommand (st : string) (pid : Z) (loaded : Error + ServerConfig)
    (cwd : string) (os : OS) : Outcome * OS :=
  match loaded with
  | inl error => (Threw error, os)
  | inr config =>
      match server_start st pid config os with
      | inl error => (Threw error, os)
      | inr os =>
          let pidPath := path_join cwd ".hubble.pid" in
          match writeFileSync st pidPath (pretty pid) os with
          | inl error => (Threw error, os)
          | inr os => (Serving pid (Cleanup pidPath (host config, port config)), os)
          end
      end
  end.

(** The [cleanup] closure, run on SIGINT or SIGTERM: [server.stop()],
    then the PID file is removed if it exists, then [process.exit(0)]. *)
Definition cleanup (h : SignalHandler) (os : OS) : OS :=
  match h with
  | Cleanup pidPath address =>
      mkOS (delete pidPath (files os)) (readonly os)
        (delete address (listening os)) (alive os)
  end.

End Cli.

(** * Vocabulary of the properties *)

Module ServerSpec.

(** The error envelope [sendError] builds. *)
Definition error_envelope (now : Z) (rid : JsValue) (msg st : string) : WebSocketMessage :=
  {| type := "error";
     payload := JObj [("message", JStr msg); ("stack", JStr st)];
     requestId := rid;
     timestamp := now |}.

(** The response envelope [sendResponse] builds for a handler that
    answers with [status]. *)
Definition response_envelope (now : Z) (rid : JsValue) (status : string) : WebSocketMessage :=
  {| type := "component-selected";
     payload := JObj [("status", JStr status)];
     requestId := rid;
     timestamp := now |}.

(** The status each of the four handlers answers with. *)
Definition status_of (kind : string) : string :=
  if String.eqb kind "component-selected" then "acknowledged" else "pending".

End ServerSpec.

Module ClientSpec.
Import Client.

(** [JSON.stringify] accepts the message. *)
Definition serialises (m : WebSocketMessage) : bool :=
  negb (has_bigint (payload m) || has_bigint (requestId m)).

(** The longest prefix of a queue whose envelopes all serialise, and what
    is behind it. *)
Fixpoint sendable (queue : list WebSocketMessage) : list WebSocketMessage :=
  match queue with
  | [] => []
  | m :: rest => if serialises m then m :: sendable rest else []
  end.

Fixpoint stuck (queue : list WebSocketMessage) : list WebSocketMessage :=
  match queue with
  | [] => []
  | m :: rest => if serialises m then stuck rest else m :: rest
  end.

(** The frames transmitted so far on socket [i]. *)
Definition transmitted_on (i : nat) (w : World) : list WebSocketMessage :=
  default [] (transmitted <$> sockets w !! i).

(** The envelope [send()] builds. *)
Definition envelope (idNow : Z) (rand : string) (now : Z) (ty : string) (pl : JsValue)
    : WebSocketMessage :=
  {| type := ty; payload := pl;
     requestId := JStr (generateRequestId idNow rand); timestamp := now |}.

(** [ev] is the arrival of a response whose [requestId] is [r], and
    [outcome] is what that response makes of a pending future: a
    rejection with the error it carries when its kind is [error], its
    payload otherwise. *)
Definition response_to (r : string) (ev : Event) (outcome : PromiseState) : Prop :=
  ∃ st i message ty pl,
    ev = SocketMessage st i (Json message)
    ∧ get_prop st message "requestId" = inr (JStr r)
    ∧ get_prop st message "type" = inr ty
    ∧ get_prop st message "payload" = inr pl
    ∧ if is_str ty "error"
      then ∃ m text,
             get_prop st pl "message" = inr m
             ∧ ToString st (if truthy m then m else JStr "Server error") = inr text
             ∧ outcome = Rejected (new_Error text st)
      else outcome = Fulfilled pl.

(** The rejection of the 10 s timer. *)
Definition timed_out (outcome : PromiseState) : Prop :=
  ∃ st, outcome = Rejected (new_Error "Request timeout" st).

Definition origin_of (w : World) (p : nat) : option Origin :=
  origin <$> promises w !! p.

Definition state_of (w : World) (p : nat) : option PromiseState :=
  state <$> promises w !! p.

(** What holds of every page the event loop can reach: a table entry
    has a key that is not the empty string and refers to the pending
    future of the request it is keyed by; a timer refers to the future
    of the call that set it, with that call's delay; a socket resolves a
    [connect()] future. *)
Record Inv (w : World) : Prop := mkInv {
  inv_key : ∀ p, pendingRequests (this w) !! "" ≠ Some p;
  inv_pending : ∀ r p,
    pendingRequests (this w) !! r = Some p →
    promises w !! p = Some (mkPromise (OfRequest r) Pending);
  inv_request_timer : ∀ d r p,
    (d, RequestTimeout r p) ∈ timers w →
    d = 10000 ∧ origin_of w p = Some (OfRequest r);
  inv_connect_timer : ∀ d p,
    (d, ConnectionTimeout p) ∈ timers w →
    d = 5000 ∧ origin_of w p = Some OfConnect;
  inv_opener : ∀ i s,
    sockets w !! i = Some s → origin_of w (opener s) = Some OfConnect;
}.

(** From [w] to [w'] the future of a request is left as it was, or is
    new and pending, or is settled in a way [allowed] accounts for. *)
Definition progress (allowed : string → PromiseState → Prop) (w w' : World) : Prop :=
  ∀ p r st',
    promises w' !! p = Some (mkPromise (OfRequest r) st') →
    promises w !! p = Some (mkPromise (OfRequest r) st')
    ∨ st' = Pending
    ∨ allowed r st'.

(** Six closures in a row, every reconnection attempt failing. *)
Definition six_closures : list Event :=
  [ CallConnect; SocketOpen "" 0; SocketClose 0;
    TimerFires "" 1; SocketError 1; SocketClose 1;
    TimerFires "" 2; SocketError 2; SocketClose 2;
    TimerFires "" 3; SocketError 3; SocketClose 3;
    TimerFires "" 4; SocketError 4; SocketClose 4;
    TimerFires "" 5; SocketError 5; SocketClose 5 ].

(** The delays of the reconnect timers that are set. *)
Definition reconnect_delays (w : World) : list Z :=
  omap (λ t, match t.2 with Reconnect => Some t.1 | _ => None end) (timers w).

(** A frame that carries an envelope. *)
Definition frame_of (ty : string) (pl : JsValue) (rid : string) (now : Z) : Frame :=
  Json (JObj [("type", JStr ty); ("payload", pl);
              ("requestId", JStr rid); ("timestamp", JNum now)]).

(** Two requests in flight at once, answered in the opposite order, the
    first of them by an error. *)
Definition two_in_flight : list Event :=
  [ CallConnect; SocketOpen "" 0;
    CallSend "" 17 "aaaaaaaaa" 17 "open-editor" (JObj [("filePath", JStr "/a/b.tsx")]);
    CallSend "" 17 "bbbbbbbbb" 17 "open-editor" (JObj [("filePath", JStr "/a/c.tsx")]);
    SocketMessage "" 0
      (frame_of "component-selected" (JObj [("status", JStr "pending")]) "17-bbbbbbbbb" 20);
    SocketMessage "" 0
      (frame_of "error" (JObj [("message", JStr "ENOENT"); ("stack", JStr "")])
         "17-aaaaaaaaa" 21) ].

(** A request that is not answered. *)
Definition unanswered : list Event :=
  [ CallConnect; SocketOpen "" 0;
    CallSend "" 17 "aaaaaaaaa" 17 "generate-testids" JNull ].

End ClientSpec.

Module CliSpec.
Import Cli.

(** A Liveness Record exists in [cwd] and names a process that is
    alive. *)
Definition already_running (cwd : string) (os : OS) : Prop :=
  ∃ pid : Z, files os !! path_join cwd ".hubble.pid" = Some (pretty pid) ∧ pid ∈ alive os.

End CliSpec.

(** * Further parts of the program *)

Module ClientSpec2.
Import Client.

(** Every entry of the table still has the 10 s timer of its request. *)
Definition Timed (w : World) : Prop :=
  ∀ r p, pendingRequests (this w) !! r = Some p →
         (10000, RequestTimeout r p) ∈ timers w.

(** What holds, besides [ClientSpec.Inv], of every page the event loop
    can reach. *)
Record Bounded (w : World) : Prop := mkBounded {
  bounded_attempts : (reconnectAttempts (this w) ≤ maxReconnectAttempts)%nat;
  bounded_timed : Timed w;
}.

(** The delays the client uses: 10 s for a request, 5 s for a
    connection attempt, one of the five backoff steps for a
    reconnection. *)
Definition known_delay (t : Z * TimerCallback) : Prop :=
  match t.2 with
  | RequestTimeout _ _ => t.1 = 10000
  | ConnectionTimeout _ => t.1 = 5000
  | Reconnect => t.1 ∈ [1000; 2000; 4000; 8000; 16000]
  end.

(** A string without the separator of [generateRequestId]. *)
Fixpoint dashfree (s : string) : Prop :=
  match s with
  | EmptyString => True
  | String c s' => String c EmptyString ≠ "-" ∧ dashfree s'
  end.

(** An error response whose payload cannot be read. *)
Definition error_without_payload (rid : string) : Frame :=
  Json (JObj [("type", JStr "error"); ("payload", JNull); ("requestId", JStr rid)]).

End ClientSpec2.

(** ** The wire between the two endpoints *)

Module Wire.

(** What [JSON.parse] at the receiver makes of [JSON.stringify(v)] at
    the sender, for a value that serialises: a property whose value is
    [undefined] is left out, an item of an array that is [undefined]
    becomes [null]. *)
Fixpoint json (v : JsValue) : JsValue :=
  match v with
  | JArr items =>
      JArr ((fix items_json (l : list JsValue) : list JsValue :=
               match l with
               | [] => []
               | JUndefined :: rest => JNull :: items_json rest
               | x :: rest => json x :: items_json rest
               end) items)
  | JObj fields =>
      JObj ((fix fields_json (l : list (string * JsValue)) : list (string * JsValue) :=
               match l with
               | [] => []
               | (_, JUndefined) :: rest => fields_json rest
               | (k, x) :: rest => (k, json x) :: fields_json rest
               end) fields)
  | _ => v
  end.

(** The frame the receiver sees for an envelope the sender built with
    the object literal [{ type, payload, requestId, timestamp }]. *)
Definition frame_of_message (m : WebSocketMessage) : Frame :=
  Json (json (JObj [("type", JStr (type m)); ("payload", payload m);
                    ("requestId", requestId m); ("timestamp", JNum (timestamp m))])).

(** The kinds the [switch] of the server has a case for. *)
Definition handled (kind : string) : bool :=
  bool_decide (kind ∈ ["component-selected"; "open-editor"; "generate-testids"; "insert-code"]).

End Wire.

Module ServerSpec2.

(** What [routeMessage] reads in a frame before it enters its [try]:
    the [type] and the [requestId] of the parsed message, and the text
    of the [type] it logs.  [None] for a frame that does not get that
    far: text that is not JSON, [null], or a [type] that cannot be
    turned into text. *)
Definition routed (st : string) (data : Frame) : option (JsValue * JsValue * string) :=
  match data with
  | Malformed _ => None
  | Json message =>
      match get_prop st message "type", get_prop st message "requestId" with
      | inr ty, inr rid =>
          match ToString st ty with
          | inr kind => Some (ty, rid, kind)
          | inl _ => None
          end
      | _, _ => None
      end
  end.

End ServerSpec2.

(** ** Configuration ([packages/core/src/config.ts]) *)

Module Config.
Import Cli.

(** [TelescopeConfig] ([types.ts]), a field per path. *)
Record TelescopeConfig := mkConfig {
  editor_name : string;
  editor_command : string;
  editor_args : list string;
  testId_convention : string;
  testId_customPattern : option string;
  testId_autoGenerate : bool;
  ai_enabled : bool;
  ai_provider : string;
  ai_model : option string;
  ai_apiKey : option string;
  project_roots : list string;
  project_extensions : list string;
  project_exclude : list string;
  server_port : Z;
  server_host : string;
}.

(** What a configuration file exports: any section may be missing, and
    so may any property of a section that is there. *)
Record UserEditor := mkUserEditor {
  u_name : option string;
  u_command : option string;
  u_args : option (list string);
}.
Record UserTestId := mkUserTestId {
  u_convention : option string;
  u_customPattern : option string;
  u_autoGenerate : option bool;
}.
Record UserAi := mkUserAi {
  u_enabled : option bool;
  u_provider : option string;
  u_model : option string;
  u_apiKey : option string;
}.
Record UserProject := mkUserProject {
  u_roots : option (list string);
  u_extensions : option (list string);
  u_exclude : option (list string);
}.
Record UserServer := mkUserServer {
  u_port : option Z;
  u_host : option string;
}.
Record UserConfig := mkUserConfig {
  u_editor : option UserEditor;
  u_testId : option UserTestId;
  u_ai : option UserAi;
  u_project : option UserProject;
  u_server : option UserServer;
}.

(** [ConfigManager.getDefaults()], lines 90-115 *)
Definition getDefaults : TelescopeConfig :=
  {| editor_name := "cursor";
     editor_command := "cursor";
     editor_args := ["-g"];
     testId_convention := "data-testid";
     testId_customPattern := None;
     testId_autoGenerate := true;
     ai_enabled := true;
     ai_provider := "cursor-native";
     ai_model := None;
     ai_apiKey := None;
     project_roots := ["src"];
     project_extensions := [".tsx"; ".jsx"; ".ts"; ".js"];
     project_exclude := ["node_modules"; "dist"; "build"; ".next"; "out"];
     server_port := 3737;
     server_host := "localhost" |}.

(** A property of [{ ...defaults.section, ...userConfig.section }]: the
    one of the user's section when the section and the property are
    there, the default otherwise. *)
Definition spread {S A} (d : A) (section : option S) (property : S → option A) : A :=
  default d (section ≫= property).

(** The same for a property the defaults do not have. *)
Definition spread_optional {S A} (d : option A) (section : option S)
    (property : S → option A) : option A :=
  match section ≫= property with
  | Some x => Some x
  | None => d
  end.

(** [merge(userConfig)], lines 43-53 *)
Definition merge (userConfig : UserConfig) : TelescopeConfig :=
  let defaults := getDefaults in
  {| editor_name := spread (editor_name defaults) (u_editor userConfig) u_name;
     editor_command := spread (editor_command defaults) (u_editor userConfig) u_command;
     editor_args := spread (editor_args defaults) (u_editor userConfig) u_args;
     testId_convention :=
       spread (testId_convention defaults) (u_testId userConfig) u_convention;
     testId_customPattern :=
       spread_optional (testId_customPattern defaults) (u_testId userConfig) u_customPattern;
     testId_autoGenerate :=
       spread (testId_autoGenerate defaults) (u_testId userConfig) u_autoGenerate;
     ai_enabled := spread (ai_enabled defaults) (u_ai userConfig) u_enabled;
     ai_provider := spread (ai_provider defaults) (u_ai userConfig) u_provider;
     ai_model := spread_optional (ai_model defaults) (u_ai userConfig) u_model;
     ai_apiKey := spread_optional (ai_apiKey defaults) (u_ai userConfig) u_apiKey;
     project_roots := spread (project_roots defaults) (u_project userConfig) u_roots;
     project_extensions :=
       spread (project_extensions defaults) (u_project userConfig) u_extensions;
     project_exclude := spread (project_exclude defaults) (u_project userConfig) u_exclude;
     server_port := spread (server_port defaults) (u_server userConfig) u_port;
     server_host := spread (server_host defaults) (u_server userConfig) u_host |}.

(** [!s] for a string, and for a property that may be missing. *)
Definition blank (s : string) : bool := String.eqb s "".

Definition missing (s : option string) : bool :=
  match s with
  | Some x => blank x
  | None => true
  end.

(** A text between double quotes. *)
Definition quoted (s : string) : string :=
  String (Ascii.ascii_of_nat 34) (s +:+ String (Ascii.ascii_of_nat 34) "").

(** [validate(config)], lines 58-78: the error it throws, if any. *)
Definition validate (st : string) (config : TelescopeConfig) : option Error :=
  if blank (editor_command config)
  then Some (new_Error "Editor command is required in configuration" st)
  else if Z.eqb (server_port config) 0 || Z.ltb (server_port config) 1024
          || Z.ltb 65535 (server_port config)
  then Some (new_Error "Server port must be between 1024 and 65535" st)
  else if blank (server_host config)
  then Some (new_Error "Server host is required in configuration" st)
  else if String.eqb (testId_convention config) "custom"
          && missing (testId_customPattern config)
  then Some (new_Error
               ("Custom test ID pattern is required when convention is "
                +:+ quoted "custom") st)
  else if ai_enabled config && negb (String.eqb (ai_provider config) "cursor-native")
          && missing (ai_apiKey config)
  then Some (new_Error "API key is required for non-cursor-native AI providers" st)
  else None.

(** [load(projectRoot)], lines 19-38.  [imported] is what the dynamic
    import of the file gives ([userConfig.default || userConfig]), or
    the error it throws.  The result is the configuration returned, or
    the error of [validate]; with it, the configuration the manager
    holds afterwards. *)
Definition load (st : string) (imported : Error + UserConfig) (projectRoot : string)
    (os : OS) : (Error + TelescopeConfig) * TelescopeConfig :=
  let configPath := path_join projectRoot "telescope.config.js" in
  let config :=
    match files os !! configPath with
    | Some _ =>
        match imported with
        | inr userConfig => merge userConfig
        | inl _ => getDefaults
        end
    | None => getDefaults
    end in
  match validate st config with
  | Some error => (inl error, config)
  | None => (inr config, config)
  end.

(** [config.server], what [startCommand] passes to the server. *)
Definition server_of (config : TelescopeConfig) : ServerConfig :=
  {| host := server_host config; port := server_port config |}.

(** [startCommand(cwd)] with the configuration it loads. *)
Definition start (st : string) (pid : Z) (imported : Error + UserConfig)
    (cwd : string) (os : OS) : Outcome * OS :=
  startCommand st pid
    (match fst (load st imported cwd os) with
     | inr config => inr (server_of config)
     | inl e => inl e
     end) cwd os.

(** A configuration file that sets every property, and one that sets
    none. *)
Definition as_user (c : TelescopeConfig) : UserConfig :=
  {| u_editor := Some (mkUserEditor (Some (editor_name c)) (Some (editor_command c))
                         (Some (editor_args c)));
     u_testId := Some (mkUserTestId (Some (testId_convention c)) (testId_customPattern c)
                         (Some (testId_autoGenerate c)));
     u_ai := Some (mkUserAi (Some (ai_enabled c)) (Some (ai_provider c)) (ai_model c)
                     (ai_apiKey c));
     u_project := Some (mkUserProject (Some (project_roots c)) (Some (project_extensions c))
                          (Some (project_exclude c)));
     u_server := Some (mkUserServer (Some (server_port c)) (Some (server_host c))) |}.

Definition empty_user : UserConfig := mkUserConfig None None None None None.

(** What [validate] accepts. *)
Definition valid (c : TelescopeConfig) : Prop :=
  editor_command c ≠ ""
  ∧ (1024 ≤ server_port c ≤ 65535)%Z
  ∧ server_host c ≠ ""
  ∧ (testId_convention c = "custom" →
     ∃ pattern, testId_customPattern c = Some pattern ∧ pattern ≠ "")
  ∧ (ai_enabled c = true → ai_provider c ≠ "cursor-native" →
     ∃ key, ai_apiKey c = Some key ∧ key ≠ "").

End Config.

(** ** The other commands of the CLI ([init.ts], [stop.ts], [status.ts]) *)

Module Supervisor.
Import Cli Config.
Local Open Scope nat_scope.

(** A text as the sequence of its bytes (UTF-8). *)
Definition codes (s : string) : list nat :=
  map Ascii.nat_of_ascii (String.list_ascii_of_string s).

(** The white space and line terminators of ECMAScript, as UTF-8: tab,
    LF, VT, FF, CR, space, U+00A0, U+1680, U+2000 to U+200A, U+2028,
    U+2029, U+202F, U+205F, U+3000, U+FEFF. *)
Definition white_space : list (list nat) :=
  [ [9]; [10]; [11]; [12]; [13]; [32]; [194; 160]; [225; 154; 128];
    [226; 128; 128]; [226; 128; 129]; [226; 128; 130]; [226; 128; 131];
    [226; 128; 132]; [226; 128; 133]; [226; 128; 134]; [226; 128; 135];
    [226; 128; 136]; [226; 128; 137]; [226; 128; 138];
    [226; 128; 168]; [226; 128; 169]; [226; 128; 175]; [226; 129; 159];
    [227; 128; 128]; [239; 187; 191] ].

(** Remove from the front of [l], as long as there is one, a token that
    [l] starts with. *)
Fixpoint strip (tokens : list (list nat)) (fuel : nat) (l : list nat) : list nat :=
  match fuel with
  | O => l
  | S fuel =>
      match find (λ t, bool_decide (t `prefix_of` l)) tokens with
      | Some t => strip tokens fuel (drop (length t) l)
      | None => l
      end
  end.

Definition trimStart (l : list nat) : list nat :=
  strip white_space (length l) l.

Definition trimEnd (l : list nat) : list nat :=
  reverse (strip (reverse <$> white_space) (length l) (reverse l)).

(** [String.prototype.trim] *)
Definition trim (l : list nat) : list nat := trimEnd (trimStart l).

Definition is_digit (c : nat) : bool := (48 <=? c)%nat && (c <=? 57)%nat.

Fixpoint leading_digits (l : list nat) : list nat :=
  match l with
  | c :: rest => if is_digit c then c :: leading_digits rest else []
  | [] => []
  end.

Definition read (acc : Z) (c : nat) : Z := (10 * acc + (Z.of_nat c - 48))%Z.

Definition decimal (digits : list nat) : Z := fold_left read digits 0%Z.

(** [parseInt(text, 10)]: leading white space is skipped, a sign is
    read, then the digits up to the first other character; [None] is
    [NaN].  (The value is exact; that of JavaScript is, below 2^53.) *)
Definition parseInt (l : list nat) : option Z :=
  let l := trimStart l in
  let '(negative, l) :=
    match l with
    | c :: rest =>
        if c =? 45 then (true, rest) else if c =? 43 then (false, rest) else (false, l)
    | [] => (false, l)
    end in
  match leading_digits l with
  | [] => None
  | digits => Some (if negative : bool then - decimal digits else decimal digits)%Z
  end.

(** The code of a digit or of the minus sign: no white space starts
    with it, and none ends with it. *)
Definition solid (c : nat) : Prop := c = 45 ∨ 48 ≤ c ≤ 57.

(** [fs.unlinkSync(path)] *)
Definition unlinkSync (st : string) (path : string) (os : OS) : Error + OS :=
  if decide (path ∈ readonly os)
  then inl {| name := "Error";
              message := "EACCES: permission denied, unlink '" +:+ path +:+ "'";
              stack := st |}
  else match files os !! path with
       | None => inl {| name := "Error";
                        message := "ENOENT: no such file or directory, unlink '"
                                   +:+ path +:+ "'";
                        stack := st |}
       | Some _ => inr (mkOS (delete path (files os)) (readonly os) (listening os) (alive os))
       end.

(** [process.kill(pid, 0)] does not throw: [alive] holds the ids it
    succeeds on. *)
Definition exists_process (pid : Z) (os : OS) : bool :=
  bool_decide (pid ∈ alive os).

(** *** [initCommand], [init.ts] lines 7-72 *)

Definition configContent : string :=
"/**
 * Telescope Configuration
 * @type {import('@ruijadom/telescope-core').TelescopeConfig}
 */
export default {
  // Editor configuration
  editor: {
    name: 'cursor',
    command: 'cursor',
    args: ['-g'],
  },

  // Test ID configuration
  testId: {
    convention: 'data-testid', // 'data-testid' | 'data-test-id' | 'data-qa' | 'custom'
    autoGenerate: true,
    // customPattern: 'data-custom', // Required if convention is 'custom'
  },

  // AI configuration
  ai: {
    enabled: true,
    provider: 'cursor-native', // 'cursor-native' | 'openai' | 'anthropic'
    // model: 'gpt-4', // Optional: specify model
    // apiKey: process.env.OPENAI_API_KEY, // Required for non-cursor-native providers
  },

  // Project structure
  project: {
    roots: ['src'],
    extensions: ['.tsx', '.jsx', '.ts', '.js'],
    exclude: ['node_modules', 'dist', 'build', '.next', 'out'],
  },

  // Server configuration
  server: {
    port: 3737,
    host: 'localhost',
  },
};
".

(** The result is whether the file was created. *)
Definition initCommand (st : string) (cwd : string) (os : OS) : (Error + bool) * OS :=
  let configPath := path_join cwd "telescope.config.js" in
  match files os !! configPath with
  | Some _ => (inr false, os)
  | None =>
      match writeFileSync st configPath configContent os with
      | inr os' => (inr true, os')
      | inl error => (inl error, os)
      end
  end.

(** *** [stopCommand], [stop.ts] lines 7-67 *)

Inductive Signal := SIGTERM | SIGKILL.

(** How the command ends: what it prints before it returns, or, for
    [EndedBySignal], that the SIGTERM it sent reached the command itself
    and ended it before anything else was done. *)
Inductive StopReport :=
| NoServerFound
| InvalidPidFile
| ProcessNotFound
| Stopped (forced : bool)
| EndedBySignal.

Record StopResult := mkStopResult {
  stop_outcome : Error + StopReport;
  stop_signals : list (Z * Signal);
  stop_os : OS;
}.

(** The [catch] of [stopCommand]: the PID file is removed if it is
    there, and the error is thrown again. *)
Definition stop_failed (st : string) (pidPath : string) (error : Error)
    (signals : list (Z * Signal)) (os : OS) : StopResult :=
  match files os !! pidPath with
  | Some _ =>
      match unlinkSync st pidPath os with
      | inr os' => mkStopResult (inl error) signals os'
      | inl error' => mkStopResult (inl error') signals os
      end
  | None => mkStopResult (inl error) signals os
  end.

(** [stopCommand(cwd)].  [stop_signals] lists the calls
    [process.kill(pid, signal)] with their [pid] argument as it is
    passed: the command has no guard [pid > 0], and an argument that is
    0 or negative addresses a process group (0 the caller's own), or
    every process (-1), not one process.

    - [read_throws] is the error [fs.readFileSync] throws on a file
      that exists (one that cannot be read), if it throws;
    - [ends_caller pid] tells whether a SIGTERM sent to [pid] reaches
      the process that runs the command, which it then ends, since the
      command installs no handler: so it is for the id of that process,
      for 0, and for the negated id of its process group;
    - [later] is the machine when the 1 s wait is over: the process that
      was signalled may have exited and removed the PID file itself. *)
Definition stopCommand (st : string) (read_throws : option Error)
    (ends_caller : Z → bool) (later : OS) (cwd : string) (os : OS) : StopResult :=
  let pidPath := path_join cwd ".hubble.pid" in
  match files os !! pidPath with
  | None => mkStopResult (inr NoServerFound) [] os
  | Some content =>
      match read_throws with
      | Some error => stop_failed st pidPath error [] os
      | None =>
          match parseInt (trim (codes content)) with
          | None =>
              match unlinkSync st pidPath os with
              | inr os' => mkStopResult (inr InvalidPidFile) [] os'
              | inl error => stop_failed st pidPath error [] os
              end
          | Some pid =>
              if negb (exists_process pid os) then
                match unlinkSync st pidPath os with
                | inr os' => mkStopResult (inr ProcessNotFound) [] os'
                | inl error => stop_failed st pidPath error [] os
                end
              else if ends_caller pid then
                mkStopResult (inr EndedBySignal) [(pid, SIGTERM)] os
              else
                let forced := exists_process pid later in
                let signals :=
                  (pid, SIGTERM) :: (if forced then [(pid, SIGKILL)] else []) in
                match files later !! pidPath with
                | None => mkStopResult (inr (Stopped forced)) signals later
                | Some _ =>
                    match unlinkSync st pidPath later with
                    | inr os' => mkStopResult (inr (Stopped forced)) signals os'
                    | inl error => stop_failed st pidPath error signals later
                    end
                end
          end
      end
  end.

(** *** [statusCommand], [status.ts] lines 8-106 *)

Inductive StatusReport :=
| NotRunning
| InvalidPid
| Healthy
| Unresponsive.

(** [telescopeConfig.server?.port || 3737] and
    [telescopeConfig.server?.host || 'localhost'] *)
Definition probe_address (imported : Error + UserConfig) : string * Z :=
  match imported with
  | inr config =>
      (match u_server config ≫= u_host with
       | Some h => if blank h then "localhost" else h
       | None => "localhost"
       end,
       match u_server config ≫= u_port with
       | Some p => if Z.eqb p 0 then 3737%Z else p
       | None => 3737%Z
       end)
  | inl _ => ("localhost", 3737%Z)
  end.

(** [opens] tells whether a WebSocket to the address opens within the
    3 s of the probe; [imported] is what the import of the
    configuration file gives. *)
Definition statusCommand (st : string) (opens : string * Z → bool)
    (imported : Error + UserConfig) (cwd : string) (os : OS)
    : (Error + StatusReport) * OS :=
  let pidPath := path_join cwd ".hubble.pid" in
  let configPath := path_join cwd "hubble.config.js" in
  let hasConfig := bool_decide (is_Some (files os !! configPath)) in
  match files os !! pidPath with
  | None => (inr NotRunning, os)
  | Some content =>
      match parseInt (trim (codes content)) with
      | None => (inr InvalidPid, os)
      | Some pid =>
          if exists_process pid os then
            let address :=
              if hasConfig then probe_address imported else ("localhost", 3737%Z) in
            if opens address then (inr Healthy, os) else (inr Unresponsive, os)
          else
            match unlinkSync st pidPath os with
            | inr os' => (inr NotRunning, os')
            | inl error => (inl error, os)
            end
      end
  end.

End Supervisor.

(** ** Retries ([error-handler.ts]) *)

Module ErrorHandler.

(** What a call of [retryWithBackoff] did: the value its promise settles
    with, the number of calls it made to [fn], the delays it waited for,
    in order, and [this.retryAttempts] afterwards. *)
Record Retry (T : Type) := mkRetry {
  retry_result : Error + T;
  retry_calls : nat;
  retry_delays : list Z;
  retry_attempts : gmap string nat;
}.
Arguments mkRetry {T}.
Arguments retry_result {T}.
Arguments retry_calls {T}.
Arguments retry_delays {T}.
Arguments retry_attempts {T}.

(** [operationId || 'default'] *)
Definition id_of (operationId : option string) : string :=
  match operationId with
  | Some s => if String.eqb s "" then "default" else s
  | None => "default"
  end.

Section Retry.
Context {T : Type}.

(** [fn] is a closure: [fn k] is what its call number [k] settles with
    (the value it resolves with, or the error it rejects with). *)
Variable fn : nat → Error + T.
Variable st : string.

(** The [for] loop of lines 166-189, entered with [i] and
    [maxRetries - i = remaining] turns left. *)
Fixpoint retry_loop (maxRetries : Z) (id : string) (remaining i : nat)
    (lastError : option Error) (delays : list Z) (attempts : gmap string nat)
    : Retry T :=
  match remaining with
  | O =>
      mkRetry (inl (default (new_Error "Retry failed" st) lastError)) i delays attempts
  | S remaining =>
      match fn i with
      | inr result => mkRetry (inr result) (S i) delays (delete id attempts)
      | inl error =>
          let attempts := <[id := S i]> attempts in
          if Z.eqb (Z.of_nat i) (maxRetries - 1)
          then mkRetry (inl error) (S i) delays attempts
          else retry_loop maxRetries id remaining (S i) (Some error)
                 (delays ++ [2 ^ Z.of_nat i * 1000]) attempts
      end
  end.

(** [retryWithBackoff(fn, maxRetries, operationId)], lines 158-192, for
    a whole number [maxRetries]. *)
Definition retryWithBackoff (maxRetries : Z) (operationId : option string)
    (attempts : gmap string nat) : Retry T :=
  let id := id_of operationId in
  retry_loop maxRetries id (Z.to_nat maxRetries) 0 None [] attempts.

End Retry.

(** [getRetryCount(operationId)], lines 204-206 *)
Definition getRetryCount (operationId : string) (attempts : gmap string nat) : nat :=
  default 0%nat (attempts !! operationId).

(** The delays of the first [k] failures: 1 s, 2 s, 4 s, ... *)
Definition backoff (k : nat) : list Z :=
  (λ i, 2 ^ Z.of_nat i * 1000) <$> seq 0 k.

Definition total (delays : list Z) : Z := foldr Z.add 0 delays.

End ErrorHandler.

(** ** The code inserter and the editor opener ([cursor-integration]) *)

Module Inserter.

(** A text is the list of its UTF-16 code units. *)
Definition char_at (content : list nat) (i : Z) : option nat :=
  if Z.ltb i 0 then None else content !! Z.to_nat i.

Definition is_code (c : option nat) (k : nat) : bool :=
  match c with
  | Some c => Nat.eqb c k
  | None => false
  end.

(** [insertAttribute(content, position, attribute)], lines 260-284:
    [>] is 62, [/] 47, space 32, tab 9, newline 10. *)
Definition insertAttribute (content : list nat) (position : Z) (attribute : list nat)
    : list nat :=
  let charAtPosition := char_at content position in
  let charBefore := char_at content (position - 1) in
  let prefix :=
    if is_code charAtPosition 62 || is_code charAtPosition 47 then [32%nat]
    else if is_code charBefore 32 || is_code charBefore 9 || is_code charBefore 10
    then []
    else [32%nat] in
  let suffix : list nat := [] in
  let before := take (Z.to_nat position) content in
  let after := drop (Z.to_nat position) content in
  before ++ prefix ++ attribute ++ suffix ++ after.

Definition white (c : nat) : Prop := c = 32%nat ∨ c = 9%nat ∨ c = 10%nat.

End Inserter.

Module Opener.
Import Cli Config.
Import Client (PromiseState, Pending, Fulfilled, Rejected).

(** [s.includes(needle)] *)
Fixpoint includes (needle s : string) : bool :=
  String.prefix needle s
  || match s with
     | String _ rest => includes needle rest
     | EmptyString => false
     end.

(** [buildCommand(filePath, line, column)], lines 43-52 *)
Definition buildCommand (config : TelescopeConfig) (filePath : string) (line column : Z)
    : list string :=
  let gotoArg := "-g" in
  let locationArg := filePath +:+ ":" +:+ pretty line +:+ ":" +:+ pretty column in
  editor_command config :: editor_args config ++ [gotoArg; locationArg].

(** [resolve] and [reject] of a promise: only the first call counts. *)
Definition once (outcome p : PromiseState) : PromiseState :=
  match p with
  | Pending => outcome
  | _ => p
  end.

Section Spawn.

(** [spawn(cmd, args, ...)] returns the child, or throws. *)
Variable spawn_throws : string → list string → option Error.
Variable st : string.

(** The executor of [executeCommand], lines 58-86: the state of the
    promise when it returns, and the command that was spawned. *)
Definition executeCommand (command : list string)
    : PromiseState * option (string * list string) :=
  match command with
  | cmd :: args =>
      match spawn_throws cmd args with
      | Some error => (once (Rejected error) Pending, None)
      | None => (once (Fulfilled JUndefined) Pending, Some (cmd, args))
      end
  | [] =>
      (once (Rejected (TypeError
                         "The 'file' argument must be of type string. Received undefined"
                         st)) Pending, None)
  end.

(** The ['error'] listener of the child, lines 69-77, run on the
    promise of [executeCommand]. *)
Definition on_error (cmd : string) (error : Error) (p : PromiseState) : PromiseState :=
  if includes "ENOENT" (message error)
  then once (Rejected (new_Error
                ("Cursor editor not found. Please ensure Cursor is installed and the command '"
                 +:+ cmd +:+ "' is available in your PATH.") st)) p
  else once (Rejected (new_Error ("Failed to open Cursor: " +:+ message error) st)) p.

(** [openFile(filePath, line, column)], lines 22-33: the promise it
    returns follows that of [executeCommand]. *)
Definition openFile (config : TelescopeConfig) (filePath : string) (line column : Z)
    (os : OS) : PromiseState * option (string * list string) :=
  match files os !! filePath with
  | None => (Rejected (new_Error ("File not found: " +:+ filePath) st), None)
  | Some _ => executeCommand (buildCommand config filePath line column)
  end.

End Spawn.

End Opener.

(** ** Prop extraction of the component detector ([detector.ts]) *)

Module Detector.

(** The values a prop can hold: data, functions, and arrays and plain
    objects of such values (own enumerable data properties, in the order
    [for ... in] visits them). *)
Inductive Value :=
| VUndefined
| VNull
| VBool (b : bool)
| VNum (n : Z)
| VBigInt (n : Z)
| VStr (s : string)
| VFunction
| VArr (items : list Value)
| VObj (fields : list (string * Value)).

(** [typeof v === 'object' && v !== null] *)
Definition is_object (v : Value) : bool :=
  match v with
  | VArr _ | VObj _ => true
  | _ => false
  end.

(** [typeof v === 'function'] *)
Definition is_function (v : Value) : bool :=
  match v with
  | VFunction => true
  | _ => false
  end.

(** [serializeObject(obj, depth, maxDepth)], lines 215-245, for an
    array or a plain object [obj], by recursion on the number
    [maxDepth + 1 - depth] of levels left: none is left when
    [depth > maxDepth], and each recursive call is at [depth + 1]. *)
Fixpoint serialize (levels : nat) (obj : Value) : Value :=
  match levels with
  | O => VStr "[Object]"
  | S levels =>
      match obj with
      | VArr items =>
          VArr ((λ item, if is_object item then serialize levels item else item)
                  <$> take 5 items)
      | VObj fields =>
          VObj ((λ '(key, value),
                   (key, match value with
                         | VFunction => VStr "[Function]"
                         | VArr _ | VObj _ => serialize levels value
                         | _ => value
                         end)) <$> take 10 fields)
      | _ => VObj []
      end
  end.

Definition serializeObject (obj : Value) (depth maxDepth : nat) : Value :=
  serialize (S maxDepth - depth) obj.

(** [extractProps(fiber)], lines 178-210; [memoizedProps] is
    [fiber.memoizedProps], [None] when it is [null] or [undefined]. *)
Definition extractProps (memoizedProps : option (list (string * Value)))
    : list (string * Value) :=
  match memoizedProps with
  | None => []
  | Some fields =>
      (λ '(key, value),
         (key, match value with
               | VFunction => VStr "[Function]"
               | VArr _ | VObj _ => serializeObject value 1 2
               | _ => value
               end))
      <$> filter (λ '(key, _), ¬ (key = "children" ∨ String.prefix "__" key = true)) fields
  end.

(** Arrays of at most 5 items and objects of at most 10 properties,
    none of them a function, nested at most [levels] deep. *)
Fixpoint within (levels : nat) (v : Value) : bool :=
  match v with
  | VArr items =>
      match levels with
      | O => false
      | S levels => (length items <=? 5)%nat && forallb (within levels) items
      end
  | VObj fields =>
      match levels with
      | O => false
      | S levels =>
          (length fields <=? 10)%nat
          && forallb (λ kv, negb (is_function kv.2) && within levels kv.2) fields
      end
  | _ => true
  end.

End Detector.

(** * Properties *)

(** ** Server: dispatch by kind *)

Module ServerProps.
Import Server ServerSpec.

Lemma is_str_JStr (k s : string) : is_str (JStr k) s = String.eqb k s.
Proof. reflexivity. Qed.

Lemma eqb_neq (a b : string) : a ≠ b → String.eqb a b = false.
Proof. intros H. by apply String.eqb_neq. Qed.

(** An object whose [type] is a string reaches the [switch] with its
    own [payload] and [requestId]. *)
Lemma routeMessage_object now st fields k c :
  own fields "type" = Some (JStr k) →
  routeMessage now st (JObj fields) c =
    let c' := console_log (Log ("[Telescope Server] Received message: " +:+ k)) c in
    let rid := default JUndefined (own fields "requestId") in
    match dispatch now st (JStr k) (default JUndefined (own fields "payload")) rid k c' with
    | inr c'' => inr c''
    | inl error => inr (sendError now rid error c')
    end.
Proof.
  intros Hty. unfold routeMessage, get_prop. rewrite Hty. reflexivity.
Qed.

(** C5. An envelope whose kind is a string outside the four kinds of the
    [switch] is answered, on the same connection, by exactly one
    envelope: of kind [error], with the [requestId] of the request, and
    with the message [Unknown message type: <kind>]; the listener
    returns normally. *)
Theorem unknown_kind_answered now st fields k c :
  own fields "type" = Some (JStr k) →
  k ≠ "component-selected" → k ≠ "open-editor" →
  k ≠ "generate-testids" → k ≠ "insert-code" →
  sent (on_message now st (Json (JObj fields)) c) =
    sent c ++ [error_envelope now (default JUndefined (own fields "requestId"))
                 ("Unknown message type: " +:+ k) st].
Proof.
  intros Hty H1 H2 H3 H4.
  unfold on_message; cbn [JSON_parse].
  rewrite (routeMessage_object _ _ _ _ _ Hty); cbn zeta.
  unfold dispatch. rewrite !is_str_JStr, !eqb_neq by done.
  reflexivity.
Qed.

Lemma unknown_kind_answered_witness :
  sent (on_message 1700000000000 "at routeMessage"
          (Json (JObj [("type", JStr "ping"); ("payload", JNull);
                       ("requestId", JStr "1700000000000-k3j9x0a1b");
                       ("timestamp", JNum 1700000000000)]))
          (mkConn [] [])) =
    [error_envelope 1700000000000 (JStr "1700000000000-k3j9x0a1b")
       "Unknown message type: ping" "at routeMessage"].
Proof.
  apply (unknown_kind_answered 1700000000000 "at routeMessage"
           [("type", JStr "ping"); ("payload", JNull);
            ("requestId", JStr "1700000000000-k3j9x0a1b");
            ("timestamp", JNum 1700000000000)] "ping" (mkConn [] []));
    [reflexivity | discriminate ..].
Defined.

(** C6, as stated: a frame that cannot be parsed leaves the connection
    without a response.  It fails: the [catch] of the listener answers
    with an error envelope. *)
Lemma malformed_frame_is_answered :
  sent (on_message 0 "" (Malformed (mkError "SyntaxError" "Unexpected token o in JSON at position 1" ""))
          (mkConn [] [])) ≠ [].
Proof. discriminate. Qed.

(** C6, amended. For every frame that cannot be parsed the listener logs
    the parse error and sends one envelope of kind [error] whose
    [requestId] is the literal [unknown] and whose payload carries the
    message of the parse error. *)
Theorem malformed_frame_error_unknown now st e c :
  on_message now st (Malformed e) c =
    {| sent := sent c ++ [error_envelope now (JStr "unknown") (message e) (stack e)];
       console := console c ++ [LogError "[Telescope Server] Error processing message:" e] |}.
Proof. reflexivity. Qed.

(** C10. Each of the four kinds the server handles is answered by one
    envelope whose kind is [component-selected], whatever the kind of
    the request; the [requestId] is echoed and only the payload depends
    on the request. *)
Theorem response_kind_constant now st fields k c :
  own fields "type" = Some (JStr k) →
  k ∈ ["component-selected"; "open-editor"; "generate-testids"; "insert-code"] →
  sent (on_message now st (Json (JObj fields)) c) =
    sent c ++ [response_envelope now (default JUndefined (own fields "requestId")) (status_of k)]
  ∧ type (response_envelope now (default JUndefined (own fields "requestId")) (status_of k))
    = "component-selected".
Proof.
  intros Hty Hk. split; [|reflexivity].
  unfold on_message; cbn [JSON_parse].
  rewrite (routeMessage_object _ _ _ _ _ Hty); cbn zeta.
  repeat (apply elem_of_cons in Hk as [->|Hk]; [reflexivity|]).
  by apply elem_of_nil in Hk.
Qed.

Lemma response_kind_constant_witness :
  sent (on_message 5 "" (Json (JObj [("type", JStr "open-editor");
                                      ("payload", JObj [("filePath", JStr "/a/b.tsx");
                                                        ("line", JNum 5); ("column", JNum 2)]);
                                      ("requestId", JStr "5-abc")]))
          (mkConn [] [])) =
    [response_envelope 5 (JStr "5-abc") "pending"]
  ∧ type (response_envelope 5 (JStr "5-abc") "pending") = "component-selected".
Proof.
  apply (response_kind_constant 5 ""
           [("type", JStr "open-editor");
            ("payload", JObj [("filePath", JStr "/a/b.tsx"); ("line", JNum 5); ("column", JNum 2)]);
            ("requestId", JStr "5-abc")] "open-editor" (mkConn [] []));
    [reflexivity | set_solver].
Defined.

End ServerProps.
(** ** Client: connection life cycle *)

Module ClientProps.
Import Client ClientSpec.

Lemma isConnected_ws_None w : ws (this w) = None → isConnected w = false.
Proof. unfold isConnected. by intros ->. Qed.

Lemma isConnected_Some w :
  isConnected w = true →
  ∃ i s, ws (this w) = Some i ∧ sockets w !! i = Some s ∧ readyState s = OPEN.
Proof.
  unfold isConnected. destruct (ws (this w)) as [i|]; [|done].
  destruct (sockets w !! i) as [s|] eqn:Hs; [|done].
  destruct s as [[] ? ?]; cbn; try done. intros _. by eexists _, _.
Qed.

Lemma reconnect_below w :
  (reconnectAttempts (this w) < 5)%nat →
  reconnect w =
    setTimeout Reconnect (1000 * 2 ^ Z.of_nat (reconnectAttempts (this w)))
      (on_this (set_reconnectAttempts (S (reconnectAttempts (this w)))) w).
Proof.
  intros H. unfold reconnect, maxReconnectAttempts, reconnectDelay.
  destruct (Nat.leb_spec 5 (reconnectAttempts (this w))); [lia | done].
Qed.

Lemma reconnect_exhausted w :
  (5 ≤ reconnectAttempts (this w))%nat → reconnect w = w.
Proof.
  intros H. unfold reconnect, maxReconnectAttempts.
  destruct (Nat.leb_spec 5 (reconnectAttempts (this w))); [done | lia].
Qed.

Lemma step_SocketClose throws i w w' :
  step throws (SocketClose i) w = Some w' →
  w' = onclose (set_readyState i CLOSED w).
Proof.
  cbn. destruct (sockets w !! i) as [[[] ? ?]|]; congruence.
Qed.

(** C3. When a socket closes, the [n]-th consecutive closure
    ([n] = 1..5, that is [reconnectAttempts = n - 1]) sets the reconnect
    timer to [1000 * 2^(n-1)] ms, which is 1000, 2000, 4000, 8000 and
    16000 ms; once five attempts are counted a closure sets no timer and
    leaves the client without a socket. *)
Theorem reconnect_backoff throws i w w' :
  step throws (SocketClose i) w = Some w' →
  (∀ n : nat, (1 ≤ n ≤ 5)%nat → reconnectAttempts (this w) = (n - 1)%nat →
     timers w' = timers w ++ [(1000 * 2 ^ (Z.of_nat n - 1), Reconnect)]
     ∧ reconnectAttempts (this w') = n)
  ∧ ((5 ≤ reconnectAttempts (this w))%nat →
     timers w' = timers w
     ∧ reconnectAttempts (this w') = reconnectAttempts (this w)
     ∧ ws (this w') = None ∧ isConnecting (this w') = false ∧ isConnected w' = false)
  ∧ map (λ n : nat, 1000 * 2 ^ (Z.of_nat n - 1)) [1; 2; 3; 4; 5]%nat
    = [1000; 2000; 4000; 8000; 16000].
Proof.
  intros ->%step_SocketClose. unfold onclose. split; [|split; [|reflexivity]].
  - intros n Hn Hw. rewrite reconnect_below by (cbn; lia). cbn.
    rewrite Hw. replace (Z.of_nat (n - 1)) with (Z.of_nat n - 1) by lia.
    split; [done | lia].
  - intros Hw. rewrite reconnect_exhausted by (cbn; lia). by cbn.
Qed.

(** Six closures in a row, every reconnection attempt failing: the
    timers set are 1000, 2000, 4000, 8000, 16000 ms, and none after the
    fifth failed attempt. *)
Example six_closures_delays :
  (reconnect_delays <$> run None (take 3 six_closures) init) = Some [1000]
  ∧ (reconnect_delays <$> run None (take 6 six_closures) init) = Some [2000]
  ∧ (reconnect_delays <$> run None (take 9 six_closures) init) = Some [4000]
  ∧ (reconnect_delays <$> run None (take 12 six_closures) init) = Some [8000]
  ∧ (reconnect_delays <$> run None (take 15 six_closures) init) = Some [16000]
  ∧ (reconnect_delays <$> run None six_closures init) = Some []
  ∧ (isConnected <$> run None six_closures init) = Some false.
Proof. repeat split; vm_compute; reflexivity. Qed.

Lemma reconnect_backoff_witness :
  let w := mkWorld (mkClient (Some 0%nat) [] ∅ 2 false ∅) [mkSocket OPEN 0 []]
             [mkPromise OfConnect (Fulfilled JUndefined)] [] [] in
  ∃ w', step None (SocketClose 0) w = Some w'
        ∧ timers w' = [(4000, Reconnect)] ∧ reconnectAttempts (this w') = 3%nat.
Proof.
  intros w. eexists. split; [reflexivity|].
  apply (proj1 (reconnect_backoff None 0 w _ eq_refl) 3%nat); [lia | reflexivity].
Defined.


(** *** [connect()] *)

Lemma connect_connected throws w :
  isConnected w = true → connect throws w = (Resolved, w).
Proof. unfold connect. by intros ->. Qed.

Lemma connect_connecting throws w :
  isConnecting (this w) = true → connect throws w = (Resolved, w).
Proof. unfold connect. intros ->. by destruct (isConnected w). Qed.

(** A call that finds the client neither connected nor connecting, with
    a URL the constructor accepts. *)
Lemma connect_fresh w :
  isConnected w = false → isConnecting (this w) = false →
  connect None w =
    (Attempt (length (promises w)),
     mkWorld (set_ws (Some (length (sockets w))) (set_isConnecting true (this w)))
       (sockets w ++ [mkSocket CONNECTING (length (promises w)) []])
       (promises w ++ [mkPromise OfConnect Pending])
       (timers w ++ [(5000, ConnectionTimeout (length (promises w)))])
       (delivered w)).
Proof. unfold connect. by intros -> ->. Qed.

(** A call whose constructor throws. *)
Lemma connect_throws e w :
  isConnected w = false → isConnecting (this w) = false →
  connect (Some e) w =
    (Attempt (length (promises w)),
     mkWorld (set_isConnecting false (set_isConnecting true (this w)))
       (sockets w)
       (promises w ++ [mkPromise OfConnect (Rejected e)])
       (timers w)
       (delivered w)).
Proof.
  unfold connect. intros -> ->. cbn. unfold settle; cbn. do 2 f_equal.
  rewrite alter_app_r_alt, Nat.sub_diag by done. reflexivity.
Qed.

Lemma connect_cases throws w :
  connect throws w = (Resolved, w)
  ∨ (isConnected w = false ∧ isConnecting (this w) = false).
Proof.
  destruct (isConnected w) eqn:Hc; [left; by apply connect_connected|].
  destruct (isConnecting (this w)) eqn:Hi; [left; by apply connect_connecting|].
  by right.
Qed.

(** C8, as stated, fails in its last clause.  The second of two
    [connect()] calls finds the client connecting and returns at once:
    its promise is fulfilled while the attempt is still pending, and it
    stays so when the attempt fails after 5 s.  The second caller does
    not join the attempt. *)
Lemma second_connect_does_not_join :
  let w1 := snd (connect None init) in
  fst (connect None init) = Attempt 0
  ∧ state_of w1 0 = Some Pending
  ∧ connect None w1 = (Resolved, w1)
  ∧ ((λ w, state_of w 0) <$> run None [CallConnect; CallConnect; TimerFires "" 0] init)
    = Some (Some (Rejected (new_Error "Connection timeout after 5 seconds" ""))).
Proof. repeat split; vm_compute; reflexivity. Qed.

(** C8, amended. Of two [connect()] calls in immediate succession the
    second opens no socket: a call that finds the client connected or
    connecting returns at once, already resolved, and changes nothing;
    from a disconnected client whose [WebSocket] constructor does not
    throw the two calls open exactly one socket. *)
Theorem connect_idempotent throws w :
  let w1 := snd (connect throws w) in
  let w2 := snd (connect throws w1) in
  sockets w2 = sockets w1
  ∧ (isConnected w = true → connect throws w = (Resolved, w))
  ∧ (isConnecting (this w) = true → connect throws w = (Resolved, w))
  ∧ (throws = None → isConnected w = false → isConnecting (this w) = false →
       sockets w2 = sockets w ++ [mkSocket CONNECTING (length (promises w)) []]
       ∧ connect throws w1 = (Resolved, w1)).
Proof.
  cbn zeta. split; [|split; [|split]].
  - destruct (connect_cases throws w) as [Hr|[Hc Hi]].
    + rewrite Hr; cbn. by rewrite Hr.
    + destruct throws as [e|].
      * rewrite (connect_throws e w) by done. cbn.
        by rewrite connect_throws.
      * rewrite (connect_fresh w) by done. cbn.
        by rewrite connect_connecting.
  - apply connect_connected.
  - apply connect_connecting.
  - intros -> Hc Hi. rewrite (connect_fresh w) by done. cbn.
    by rewrite connect_connecting.
Qed.

Lemma connect_idempotent_witness :
  let w1 := snd (connect None init) in
  let w2 := snd (connect None w1) in
  sockets w2 = [mkSocket CONNECTING 0 []] ∧ connect None w1 = (Resolved, w1).
Proof.
  exact (proj2 (proj2 (proj2 (connect_idempotent None init))) eq_refl eq_refl eq_refl).
Defined.

(** *** [disconnect()] *)

(** C4, as stated, fails twice.  With one request in flight,
    [disconnect()] leaves its future pending instead of rejecting it;
    and when the closed socket then reports its closure, [onclose] sets
    the reconnect timer. *)
Lemma disconnect_no_rejection_and_reconnects :
  let before := [CallConnect; SocketOpen "" 0;
                 CallSend "" 1700000000000 "k3j9x0a1b" 1700000000000 "open-editor" JNull] in
  ((λ w, state_of w 1) <$> run None (before ++ [CallDisconnect]) init)
    = Some (Some Pending)
  ∧ (timers <$> run None (before ++ [CallDisconnect]) init)
    = Some [(5000, ConnectionTimeout 0);
            (10000, RequestTimeout "1700000000000-k3j9x0a1b" 1)]
  ∧ (timers <$> run None (before ++ [CallDisconnect; SocketClose 0]) init)
    = Some [(5000, ConnectionTimeout 0);
            (10000, RequestTimeout "1700000000000-k3j9x0a1b" 1);
            (1000, Reconnect)].
Proof. repeat split; vm_compute; reflexivity. Qed.

Lemma disconnect_promises w : promises (disconnect w) = promises w.
Proof. unfold disconnect. by destruct (ws (this w)). Qed.

(** C4, amended. [disconnect()] closes the socket the client holds and
    drops the reference, empties the queue, empties the table of pending
    requests, and sets the attempt counter to 0; it settles no future
    and sets or clears no timer. *)
Theorem disconnect_resets w :
  let w' := disconnect w in
  ws (this w') = None
  ∧ (∀ i s, ws (this w) = Some i → sockets w !! i = Some s →
       readyState <$> sockets w' !! i
       = Some (match readyState s with CLOSED => CLOSED | _ => CLOSING end))
  ∧ messageQueue (this w') = []
  ∧ pendingRequests (this w') = ∅
  ∧ reconnectAttempts (this w') = 0%nat
  ∧ promises w' = promises w
  ∧ timers w' = timers w.
Proof.
  unfold disconnect. destruct (ws (this w)) as [i|] eqn:Hws; cbn.
  - repeat split; try done.
    intros ? s [= <-] Hs. rewrite list_lookup_alter_eq, Hs. cbn.
    by destruct s as [[] ? ?].
  - repeat split; done.
Qed.


Lemma disconnect_resets_witness :
  let w := mkWorld
             (mkClient (Some 0%nat) [] {[ "17-aaaaaaaaa" := 1%nat ]} 3 false ∅)
             [mkSocket OPEN 0 []]
             [mkPromise OfConnect (Fulfilled JUndefined);
              mkPromise (OfRequest "17-aaaaaaaaa") Pending]
             [(10000, RequestTimeout "17-aaaaaaaaa" 1)] [] in
  readyState <$> sockets (disconnect w) !! 0%nat = Some CLOSING
  ∧ pendingRequests (this (disconnect w)) = ∅
  ∧ promises (disconnect w) !! 1%nat = Some (mkPromise (OfRequest "17-aaaaaaaaa") Pending).
Proof.
  intros w.
  destruct (disconnect_resets w) as (_ & Hclose & _ & Hpending & _ & Hpromises & _).
  split; [exact (Hclose 0%nat (mkSocket OPEN 0 []) eq_refl eq_refl)|].
  split; [exact Hpending|]. rewrite Hpromises. reflexivity.
Defined.

(** *** The outbound queue *)

Lemma ws_send_open st i m w s :
  sockets w !! i = Some s → readyState s = OPEN →
  ws_send st i m w =
    if serialises m
    then inr (set_sockets
                (<[i := mkSocket OPEN (opener s) (transmitted s ++ [m])]> (sockets w)) w)
    else inl (TypeError "Do not know how to serialize a BigInt" st).
Proof.
  intros Hs Hr. unfold ws_send, JSON_stringify, serialises.
  destruct (has_bigint (payload m) || has_bigint (requestId m)); [done|].
  cbn. unfold socket_send. by rewrite Hs, Hr.
Qed.

(** The loop transmits the envelopes of the queue in order until one
    fails to serialise, and leaves that one and those behind it
    queued. *)
Lemma flush_loop_spec st i queue : ∀ w s,
  sockets w !! i = Some s → readyState s = OPEN →
  flush_loop st i queue w =
    mkWorld (set_messageQueue (stuck queue) (this w))
      (<[i := mkSocket OPEN (opener s) (transmitted s ++ sendable queue)]> (sockets w))
      (promises w) (timers w) (delivered w).
Proof.
  induction queue as [|m rest IH]; intros w s Hs Hr.
  - cbn. unfold on_this. f_equal. rewrite app_nil_r.
    symmetry. apply list_insert_id. rewrite Hs. f_equal.
    destruct s; cbn in *; by subst.
  - cbn [flush_loop sendable stuck]. rewrite (ws_send_open _ _ _ _ _ Hs Hr).
    destruct (serialises m); [|by rewrite app_nil_r, list_insert_id;
                                 [|rewrite Hs; destruct s; cbn in *; subst]].
    erewrite IH; [|cbn; apply list_lookup_insert_eq; by eapply lookup_lt_Some|done].
    cbn. by rewrite list_insert_insert_eq, <- app_assoc.
Qed.

Lemma sendable_all queue :
  forallb serialises queue = true → sendable queue = queue ∧ stuck queue = [].
Proof.
  induction queue as [|m rest IH]; [done|]. cbn.
  intros [-> H]%andb_prop. destruct (IH H) as [-> ->]. done.
Qed.

Lemma sendable_stuck queue : sendable queue ++ stuck queue = queue.
Proof.
  induction queue as [|m rest IH]; [done|]. cbn.
  destruct (serialises m); [cbn; by rewrite IH | done].
Qed.

Lemma connect_queue throws w :
  messageQueue (this (snd (connect throws w))) = messageQueue (this w).
Proof.
  destruct (connect_cases throws w) as [->|[Hc Hi]]; [done|].
  destruct throws as [e|]; [by rewrite connect_throws | by rewrite connect_fresh].
Qed.

Lemma connect_transmitted throws w i :
  transmitted_on i (snd (connect throws w)) = transmitted_on i w.
Proof.
  destruct (connect_cases throws w) as [->|[Hc Hi]]; [done|].
  destruct throws as [e|]; [by rewrite connect_throws|].
  rewrite connect_fresh by done. unfold transmitted_on; cbn.
  destruct (decide (i < length (sockets w))%nat) as [Hlt|Hge].
  - by rewrite lookup_app_l.
  - rewrite lookup_app_r by lia. rewrite (lookup_ge_None_2 (sockets w)) by lia.
    by destruct (i - length (sockets w))%nat as [|[|?]].
Qed.

Lemma send_queued throws st idNow rand now ty pl w :
  isConnected w = false →
  let w' := snd (send throws st idNow rand now ty pl w) in
  messageQueue (this w') = messageQueue (this w) ++ [envelope idNow rand now ty pl]
  ∧ ∀ i, transmitted_on i w' = transmitted_on i w.
Proof.
  intros Hc. unfold send. rewrite Hc. cbn.
  split; [by rewrite connect_queue|].
  intros i. unfold transmitted_on at 1. cbn.
  apply (connect_transmitted throws (on_this _ w) i).
Qed.

Lemma send_connected throws st idNow rand now ty pl w i s :
  ws (this w) = Some i → sockets w !! i = Some s → readyState s = OPEN →
  serialises (envelope idNow rand now ty pl) = true →
  let w' := snd (send throws st idNow rand now ty pl w) in
  transmitted_on i w' = transmitted s ++ [envelope idNow rand now ty pl]
  ∧ messageQueue (this w') = messageQueue (this w).
Proof.
  intros Hws Hs Hr Hser. unfold send, isConnected. rewrite Hws, Hs, Hr. cbn.
  fold (envelope idNow rand now ty pl).
  rewrite (ws_send_open _ _ _ _ _ Hs Hr), Hser. cbn.
  unfold transmitted_on; cbn.
  rewrite list_lookup_insert_eq by (by eapply lookup_lt_Some). done.
Qed.

Lemma onopen_flushes throws st w i p tx :
  ws (this w) = Some i → sockets w !! i = Some (mkSocket CONNECTING p tx) →
  ∃ w', step throws (SocketOpen st i) w = Some w'
        ∧ ws (this w') = Some i
        ∧ sockets w' !! i
          = Some (mkSocket OPEN p (tx ++ sendable (messageQueue (this w))))
        ∧ messageQueue (this w') = stuck (messageQueue (this w)).
Proof.
  intros Hws Hs. eexists. split; [cbn; rewrite Hs; reflexivity|].
  assert (Hlt : (i < length (sockets w))%nat) by (by eapply lookup_lt_Some).
  unfold onopen, flushMessageQueue, isConnected. cbn. rewrite Hws.
  rewrite list_lookup_alter_eq, Hs. cbn.
  erewrite flush_loop_spec;
    [|cbn; rewrite list_lookup_alter_eq, Hs; reflexivity|reflexivity].
  cbn. rewrite Hws. split; [done|]. split; [|done].
  rewrite list_lookup_insert_eq; [done|]. by rewrite length_alter.
Qed.

(** C2, as stated, fails.  Two requests are queued while disconnected,
    the first with a payload that [JSON.stringify] rejects; the socket
    opens; a third request is issued.  The third is transmitted, the
    second, queued before the connection, never was. *)
Lemma queued_envelope_overtaken :
  let evs := [ CallSend "" 17 "aaaaaaaaa" 17 "open-editor" (JBigInt 1);
               CallSend "" 18 "bbbbbbbbb" 18 "open-editor" JNull;
               SocketOpen "" 0;
               CallSend "" 19 "ccccccccc" 19 "open-editor" JNull ] in
  ((λ w, (transmitted_on 0 w, messageQueue (this w))) <$> run None evs init)
  = Some ([envelope 19 "ccccccccc" 19 "open-editor" JNull],
          [envelope 17 "aaaaaaaaa" 17 "open-editor" (JBigInt 1);
           envelope 18 "bbbbbbbbb" 18 "open-editor" JNull]).
Proof. vm_compute. reflexivity. Qed.

(** C2, amended. A request sent while the client is not connected is
    appended to the queue and nothing is transmitted.  When the socket
    the client holds opens, the queue is transmitted in enqueue order up
    to the first envelope that fails to serialise; that envelope and
    those behind it stay queued, in order.  A request issued after that
    is transmitted behind what the flush transmitted.  So when every
    queued envelope serialises, all of them are transmitted, in enqueue
    order, before any request issued after the connection was
    established. *)
Theorem queue_flushed_in_order throws st w i p tx idNow rand now ty pl :
  ws (this w) = Some i →
  sockets w !! i = Some (mkSocket CONNECTING p tx) →
  serialises (envelope idNow rand now ty pl) = true →
  let q := messageQueue (this w) in
  (∀ w0, isConnected w0 = false →
     messageQueue (this (snd (send throws st idNow rand now ty pl w0)))
     = messageQueue (this w0) ++ [envelope idNow rand now ty pl]
     ∧ ∀ j, transmitted_on j (snd (send throws st idNow rand now ty pl w0))
            = transmitted_on j w0)
  ∧ ∃ w1, step throws (SocketOpen st i) w = Some w1
      ∧ isConnected w1 = true
      ∧ transmitted_on i w1 = tx ++ sendable q
      ∧ messageQueue (this w1) = stuck q
      ∧ (let w2 := snd (send throws st idNow rand now ty pl w1) in
         transmitted_on i w2 = tx ++ sendable q ++ [envelope idNow rand now ty pl]
         ∧ messageQueue (this w2) = stuck q)
      ∧ (forallb serialises q = true →
         transmitted_on i w1 = tx ++ q ∧ messageQueue (this w1) = []
         ∧ transmitted_on i (snd (send throws st idNow rand now ty pl w1))
           = tx ++ q ++ [envelope idNow rand now ty pl]).
Proof.
  intros Hws Hs Hser q. subst q. split; [intros w0 H0; by apply send_queued|].
  destruct (onopen_flushes throws st w i p tx Hws Hs) as (w1 & Hstep & Hws1 & Hs1 & Hq1).
  exists w1. split; [done|].
  assert (Hc : isConnected w1 = true) by (unfold isConnected; by rewrite Hws1, Hs1).
  assert (Ht : transmitted_on i w1 = tx ++ sendable (messageQueue (this w)))
    by (unfold transmitted_on; by rewrite Hs1).
  destruct (send_connected throws st idNow rand now ty pl w1 i _ Hws1 Hs1 eq_refl Hser)
    as [Ht2 Hq2]. cbn in Ht2.
  split; [done|]. split; [done|]. split; [done|]. split.
  - cbn zeta. by rewrite Ht2, Hq2, <- app_assoc.
  - intros Hall. destruct (sendable_all _ Hall) as [E1 E2].
    by rewrite Ht, Hq1, Ht2, E1, E2, <- app_assoc.
Qed.

Lemma queue_flushed_in_order_witness :
  let w := mkWorld
             (mkClient (Some 0%nat)
                [envelope 17 "aaaaaaaaa" 17 "component-selected" JNull;
                 envelope 18 "bbbbbbbbb" 18 "open-editor" JNull] ∅ 0 true ∅)
             [mkSocket CONNECTING 0 []] [mkPromise OfConnect Pending] [] [] in
  ∃ w1, step None (SocketOpen "" 0) w = Some w1
      ∧ transmitted_on 0 (snd (send None "" 19 "ccccccccc" 19 "insert-code" JNull w1))
        = [envelope 17 "aaaaaaaaa" 17 "component-selected" JNull;
           envelope 18 "bbbbbbbbb" 18 "open-editor" JNull;
           envelope 19 "ccccccccc" 19 "insert-code" JNull].
Proof.
  intros w.
  destruct (queue_flushed_in_order None "" w 0 0 [] 19 "ccccccccc" 19 "insert-code" JNull
              eq_refl eq_refl eq_refl) as (_ & w1 & Hstep & _ & _ & _ & _ & Hall).
  exists w1. split; [exact Hstep|]. exact (proj2 (proj2 (Hall eq_refl))).
Defined.


(** *** The invariant of the event loop *)

Lemma origin_of_Some w p o :
  origin_of w p = Some o ↔ ∃ st, promises w !! p = Some (mkPromise o st).
Proof.
  unfold origin_of. split.
  - destruct (promises w !! p) as [[o' st]|]; [|done]. intros [= <-]. by exists st.
  - by intros [st ->].
Qed.

Lemma origin_of_app w p o l :
  origin_of w p = Some o →
  origin <$> (promises w ++ l) !! p = Some o.
Proof.
  intros [st H]%origin_of_Some. by rewrite (lookup_app_l_Some _ _ _ _ H).
Qed.

Lemma origin_of_settle w p st q : origin_of (settle p st w) q = origin_of w q.
Proof.
  unfold origin_of, settle; cbn. destruct (decide (p = q)) as [->|Hne].
  - rewrite list_lookup_alter_eq. destruct (promises w !! q) as [[o []]|]; done.
  - by rewrite list_lookup_alter_ne.
Qed.

Lemma settle_lookup_ne w p st q :
  p ≠ q → promises (settle p st w) !! q = promises w !! q.
Proof. intros Hne. unfold settle; cbn. by rewrite list_lookup_alter_ne. Qed.

Lemma settle_lookup_eq w p st :
  promises (settle p st w) !! p =
    (λ pr, match state pr with Pending => mkPromise (origin pr) st | _ => pr end)
      <$> promises w !! p.
Proof. unfold settle; cbn. by rewrite list_lookup_alter_eq. Qed.

Lemma Inv_init : Inv init.
Proof.
  split; cbn; intros *.
  - by rewrite lookup_empty.
  - by rewrite lookup_empty.
  - by intros ?%elem_of_nil.
  - by intros ?%elem_of_nil.
  - by rewrite lookup_nil.
Qed.

(** Updates of the client's fields that add no table entry. *)
Lemma Inv_on_this f w :
  Inv w → pendingRequests (f (this w)) ⊆ pendingRequests (this w) → Inv (on_this f w).
Proof.
  intros [H0 H1 H2 H3 H4] Hsub. split; cbn; try done.
  - intros p Hp. eapply H0. by eapply lookup_weaken.
  - intros r p Hr. apply H1. by eapply lookup_weaken.
Qed.

Lemma Inv_set_delivered x w : Inv w → Inv (set_delivered x w).
Proof. by intros [H0 H1 H2 H3 H4]. Qed.

Lemma Inv_new_promise o w : Inv w → Inv (snd (new_promise o w)).
Proof.
  intros [H0 H1 H2 H3 H4]. split; cbn.
  - done.
  - intros r p Hr. by apply lookup_app_l_Some, H1.
  - intros d r p [-> Ho]%H2. split; [done|]. unfold origin_of; cbn.
    by eapply origin_of_app.
  - intros d p [-> Ho]%H3. split; [done|]. unfold origin_of; cbn.
    by eapply origin_of_app.
  - intros i s Ho%H4. unfold origin_of; cbn. by eapply origin_of_app.
Qed.

(** Settling a future that no table entry refers to. *)
Lemma Inv_settle p st w :
  Inv w → (∀ r, pendingRequests (this w) !! r ≠ Some p) → Inv (settle p st w).
Proof.
  intros [H0 H1 H2 H3 H4] Hno. split.
  - done.
  - intros r q Hr. cbn in Hr. rewrite settle_lookup_ne; [by apply H1|].
    intros ->. by eapply Hno.
  - intros d r q Hin. rewrite origin_of_settle. by apply H2.
  - intros d q Hin. rewrite origin_of_settle. by apply H3.
  - intros i s Hs. rewrite origin_of_settle. by eapply H4.
Qed.

Lemma Inv_no_entry_connect w p :
  Inv w → origin_of w p = Some OfConnect → ∀ r, pendingRequests (this w) !! r ≠ Some p.
Proof.
  intros [_ H1 _ _ _] Ho r Hr. apply H1 in Hr. unfold origin_of in Ho.
  by rewrite Hr in Ho.
Qed.

Lemma Inv_setTimeout cb d w :
  Inv w →
  match cb with
  | RequestTimeout r p => d = 10000 ∧ origin_of w p = Some (OfRequest r)
  | ConnectionTimeout p => d = 5000 ∧ origin_of w p = Some OfConnect
  | Reconnect => True
  end →
  Inv (setTimeout cb d w).
Proof.
  intros [H0 H1 H2 H3 H4] Hcb. split; cbn; try done.
  - intros d' r p [Hin|[= -> <-]%list_elem_of_singleton]%elem_of_app; [by apply H2 | done].
  - intros d' p [Hin|[= -> <-]%list_elem_of_singleton]%elem_of_app; [by apply H3 | done].
Qed.

Lemma elem_of_delete {A} (l : list A) k x : x ∈ delete k l → x ∈ l.
Proof. intros H. eapply elem_of_sublist; [done | apply sublist_delete]. Qed.

Lemma Inv_delete_timer k w : Inv w → Inv (set_timers (delete k (timers w)) w).
Proof.
  intros [H0 H1 H2 H3 H4]. split; cbn; try done.
  - intros d r p Hin%elem_of_delete. by apply H2.
  - intros d p Hin%elem_of_delete. by apply H3.
Qed.

(** Updates of the sockets that keep every [opener]. *)
Lemma Inv_set_sockets x w :
  Inv w → (∀ i s, x !! i = Some s → origin_of w (opener s) = Some OfConnect) →
  Inv (set_sockets x w).
Proof. intros [H0 H1 H2 H3 H4] Hx. by split. Qed.

Lemma Inv_alter_socket f i w :
  Inv w → (∀ s, opener (f s) = opener s) → Inv (set_sockets (alter f i (sockets w)) w).
Proof.
  intros HI Hf. apply Inv_set_sockets; [done|]. intros j s.
  destruct (decide (i = j)) as [->|Hne].
  - rewrite list_lookup_alter_eq. destruct (sockets w !! j) as [s'|] eqn:Hs; [|done].
    intros [= <-]. rewrite Hf. by eapply inv_opener.
  - rewrite list_lookup_alter_ne by done. by eapply inv_opener.
Qed.

Lemma Inv_insert_pending r p w :
  Inv w → r ≠ "" → promises w !! p = Some (mkPromise (OfRequest r) Pending) →
  Inv (on_this (set_pendingRequests (<[r := p]> (pendingRequests (this w)))) w).
Proof.
  intros [H0 H1 H2 H3 H4] Hr Hp. split; cbn; try done.
  - intros p'. by rewrite lookup_insert_ne.
  - intros r' p'. rewrite lookup_insert. case_decide as Hd.
    + intros [= <-]. by subst.
    + apply H1.
Qed.


Lemma Inv_append_promise o w :
  Inv w → Inv (set_promises (promises w ++ [mkPromise o Pending]) w).
Proof. apply Inv_new_promise. Qed.

Lemma Inv_append_socket r p tx w :
  Inv w → origin_of w p = Some OfConnect →
  Inv (set_sockets (sockets w ++ [mkSocket r p tx]) w).
Proof.
  intros HI Hp. apply Inv_set_sockets; [done|]. intros i s.
  rewrite lookup_app_Some. intros [Hs|[_ Hs]]; [by eapply inv_opener|].
  apply list_lookup_singleton_Some in Hs as [_ <-]. done.
Qed.

Ltac red_prims :=
  cbn -[on_this set_sockets set_promises set_timers set_delivered setTimeout settle].

Ltac fresh_origin :=
  unfold origin_of; cbn; rewrite ?list_lookup_middle by done; done.

Lemma Inv_connect throws w : Inv w → Inv (snd (connect throws w)).
Proof.
  intros HI. unfold connect.
  destruct (isConnected w); [done|]. destruct (isConnecting (this w)); [done|].
  destruct throws as [e|]; red_prims.
  - apply Inv_settle.
    + apply Inv_on_this; [|done]. apply Inv_append_promise. by apply Inv_on_this.
    + apply Inv_no_entry_connect; [|fresh_origin].
      apply Inv_on_this; [|done]. apply Inv_append_promise. by apply Inv_on_this.
  - apply Inv_setTimeout; [|split; [done|fresh_origin]].
    apply Inv_on_this; [|done]. apply Inv_append_socket; [|fresh_origin].
    apply Inv_append_promise. by apply Inv_on_this.
Qed.

Lemma generateRequestId_nonempty now rand : generateRequestId now rand ≠ "".
Proof. unfold generateRequestId. by destruct (pretty now). Qed.

Lemma Inv_await_response r w : r ≠ "" → Inv w → Inv (snd (await_response r w)).
Proof.
  intros Hr HI. unfold await_response. red_prims.
  apply Inv_setTimeout; [|split; [done|fresh_origin]].
  apply (Inv_insert_pending r (length (promises w))
           (set_promises (promises w ++ [mkPromise (OfRequest r) Pending]) w)).
  - by apply Inv_append_promise.
  - done.
  - cbn. by rewrite list_lookup_middle.
Qed.

Lemma Inv_socket_send st i m w w' :
  Inv w → socket_send st i m w = inr w' → Inv w'.
Proof.
  intros HI. unfold socket_send.
  destruct (sockets w !! i) as [s|] eqn:Hs; [|by intros [= <-]].
  destruct (readyState s); intros [= <-]; try done.
  apply Inv_set_sockets; [done|]. intros j s'.
  rewrite list_lookup_insert_Some. intros [(-> & <- & _)|[_ Hj]]; cbn; by eapply inv_opener.
Qed.

Lemma Inv_ws_send st i m w w' :
  Inv w → ws_send st i m w = inr w' → Inv w'.
Proof.
  intros HI. unfold ws_send. destruct (JSON_stringify st m) as [e|frame]; [done|].
  by apply Inv_socket_send.
Qed.

Lemma Inv_send throws st idNow rand now ty pl w :
  Inv w → Inv (snd (send throws st idNow rand now ty pl w)).
Proof.
  intros HI. unfold send.
  destruct (if isConnected w then ws (this w) else None) as [i|].
  - destruct (ws_send st i _ w) as [e|w'] eqn:Hsend; [done|].
    apply (Inv_ws_send _ _ _ _ _ HI) in Hsend.
    pose proof (Inv_await_response _ w' (generateRequestId_nonempty idNow rand) Hsend) as H.
    by destruct (await_response _ w').
  - set (w1 := snd (connect throws _)).
    assert (H1 : Inv w1) by (apply Inv_connect; by apply Inv_on_this).
    pose proof (Inv_await_response _ w1 (generateRequestId_nonempty idNow rand) H1) as H.
    by destruct (await_response _ w1).
Qed.

Lemma Inv_flush_loop st i queue : ∀ w, Inv w → Inv (flush_loop st i queue w).
Proof.
  induction queue as [|m rest IH]; intros w HI; cbn [flush_loop].
  - by apply Inv_on_this.
  - destruct (ws_send st i m w) as [e|w'] eqn:Hsend; [by apply Inv_on_this|].
    apply IH. by eapply Inv_ws_send.
Qed.

Lemma Inv_flushMessageQueue st w : Inv w → Inv (flushMessageQueue st w).
Proof.
  intros HI. unfold flushMessageQueue.
  destruct (if isConnected w then ws (this w) else None); [|done].
  by apply Inv_flush_loop.
Qed.

Lemma Inv_reconnect w : Inv w → Inv (reconnect w).
Proof.
  intros HI. unfold reconnect.
  destruct (maxReconnectAttempts <=? reconnectAttempts (this w))%nat; [done|].
  apply Inv_setTimeout; [|done]. by apply Inv_on_this.
Qed.

Lemma Inv_set_readyState i r w : Inv w → Inv (set_readyState i r w).
Proof. intros HI. by apply Inv_alter_socket. Qed.

(** What transmission leaves alone. *)
Lemma ws_send_frame st i m w w' :
  ws_send st i m w = inr w' →
  this w' = this w ∧ promises w' = promises w ∧ timers w' = timers w.
Proof.
  unfold ws_send, socket_send. destruct (JSON_stringify st m); [done|].
  destruct (sockets w !! i) as [s|]; [|by intros [= <-]].
  destruct (readyState s); by intros [= <-].
Qed.

Lemma flush_loop_frame st i queue : ∀ w,
  promises (flush_loop st i queue w) = promises w
  ∧ timers (flush_loop st i queue w) = timers w
  ∧ pendingRequests (this (flush_loop st i queue w)) = pendingRequests (this w).
Proof.
  induction queue as [|m rest IH]; intros w; cbn [flush_loop]; [done|].
  destruct (ws_send st i m w) as [e|w'] eqn:Hsend; [done|].
  destruct (ws_send_frame _ _ _ _ _ Hsend) as (Ht & Hp & Htm).
  destruct (IH w') as (-> & -> & ->). by rewrite Ht.
Qed.

Lemma flushMessageQueue_frame st w :
  promises (flushMessageQueue st w) = promises w
  ∧ timers (flushMessageQueue st w) = timers w
  ∧ pendingRequests (this (flushMessageQueue st w)) = pendingRequests (this w).
Proof.
  unfold flushMessageQueue.
  destruct (if isConnected w then ws (this w) else None); [|done].
  apply flush_loop_frame.
Qed.

Lemma Inv_onopen st p w :
  Inv w → origin_of w p = Some OfConnect → Inv (onopen st p w).
Proof.
  intros HI Hp. unfold onopen.
  assert (HF : Inv (flushMessageQueue st
                      (on_this (set_reconnectAttempts 0)
                         (on_this (set_isConnecting false) w))))
    by (apply Inv_flushMessageQueue; do 2 (apply Inv_on_this; [|done]); done).
  apply Inv_settle; [done|]. apply Inv_no_entry_connect; [done|].
  unfold origin_of. by rewrite (proj1 (flushMessageQueue_frame _ _)).
Qed.

Lemma Inv_onclose w : Inv w → Inv (onclose w).
Proof.
  intros HI. unfold onclose. apply Inv_reconnect.
  do 2 (apply Inv_on_this; [|done]). done.
Qed.

Lemma Inv_connectionTimeout st p w :
  Inv w → origin_of w p = Some OfConnect → Inv (connectionTimeout st p w).
Proof.
  intros HI Hp. unfold connectionTimeout.
  destruct (isConnecting (this w)); [|done].
  apply Inv_settle; [by apply Inv_on_this|].
  apply Inv_no_entry_connect; [by apply Inv_on_this | done].
Qed.

(** Once the entry of [r] is deleted no entry refers to a future of
    [r]. *)
Lemma Inv_delete_no_entry r p w :
  Inv w → origin_of w p = Some (OfRequest r) →
  ∀ r', delete r (pendingRequests (this w)) !! r' ≠ Some p.
Proof.
  intros HI Ho r'. rewrite lookup_delete_Some. intros [Hne Hr'].
  apply (inv_pending _ HI) in Hr'. unfold origin_of in Ho.
  rewrite Hr' in Ho. by injection Ho.
Qed.

Lemma Inv_delete_settle r p st w :
  Inv w → origin_of w p = Some (OfRequest r) →
  Inv (settle p st
         (on_this (set_pendingRequests (delete r (pendingRequests (this w)))) w)).
Proof.
  intros HI Ho. apply Inv_settle.
  - apply Inv_on_this; [done|]. apply delete_subseteq.
  - cbn. by apply Inv_delete_no_entry.
Qed.

Lemma Inv_requestTimeout st r p w :
  Inv w → origin_of w p = Some (OfRequest r) → Inv (requestTimeout st r p w).
Proof.
  intros HI Ho. unfold requestTimeout.
  destruct (pendingRequests (this w) !! r); [|done].
  by apply Inv_delete_settle.
Qed.

Lemma pending_get_Some key w k p :
  pending_get key w = Some (k, p) →
  key = JStr k ∧ pendingRequests (this w) !! k = Some p.
Proof.
  unfold pending_get. destruct key; try done.
  destruct (pendingRequests (this w) !! s) eqn:H; [|done].
  by intros [= <- <-].
Qed.

Lemma Inv_handleMessage st event w : Inv w → Inv (handleMessage st event w).
Proof.
  intros HI. unfold handleMessage, handleMessage_try.
  destruct (JSON_parse event) as [e|message]; [done|].
  destruct (get_prop st message "requestId") as [e|rid]; [done|].
  destruct (get_prop st message "type") as [e|ty]; [done|].
  destruct (get_prop st message "payload") as [e|pl]; [done|].
  destruct (if truthy rid then pending_get rid w else None) as [[k p]|] eqn:Hget.
  - assert (Hk : pendingRequests (this w) !! k = Some p).
    { destruct (truthy rid); [|done]. by apply pending_get_Some in Hget as [_ ?]. }
    assert (Ho : origin_of w p = Some (OfRequest k)).
    { unfold origin_of. by rewrite (inv_pending _ HI _ _ Hk). }
    assert (HD : Inv (on_this (set_pendingRequests (delete k (pendingRequests (this w)))) w))
      by (apply Inv_on_this; [done | apply delete_subseteq]).
    destruct (is_str ty "error"); [|by apply Inv_delete_settle].
    destruct (get_prop st pl "message") as [e|m]; [done|].
    destruct (ToString st _) as [e|text]; [done|]. by apply Inv_delete_settle.
  - destruct (handler_get ty w); [by apply Inv_set_delivered | done].
Qed.

Lemma Inv_disconnect w : Inv w → Inv (disconnect w).
Proof.
  intros HI. unfold disconnect.
  apply Inv_on_this; [|done]. apply Inv_on_this; [|apply map_empty_subseteq].
  apply Inv_on_this; [|done].
  destruct (ws (this w)) as [i|]; [|done].
  apply Inv_on_this; [|done]. unfold socket_close.
  apply Inv_alter_socket; [done|]. intros s. by destruct (readyState s).
Qed.

Lemma Inv_step throws ev w w' : Inv w → step throws ev w = Some w' → Inv w'.
Proof.
  intros HI. destruct ev; cbn [step].
  - intros [= <-]. by apply Inv_connect.
  - intros [= <-]. by apply Inv_send.
  - intros [= <-]. by apply Inv_on_this.
  - intros [= <-]. by apply Inv_on_this.
  - intros [= <-]. by apply Inv_disconnect.
  - destruct (sockets w !! i) as [[[] p tx]|] eqn:Hs; try done.
    intros [= <-]. apply Inv_onopen; [by apply Inv_set_readyState|].
    apply (inv_opener _ HI _ _ Hs).
  - destruct (sockets w !! i) as [[[] p tx]|]; try done;
      intros [= <-]; by apply Inv_handleMessage.
  - destruct (sockets w !! i) as [[[] p tx]|]; try done;
      intros [= <-]; by apply Inv_on_this.
  - destruct (sockets w !! i) as [[[] p tx]|]; try done;
      intros [= <-]; by apply Inv_onclose, Inv_set_readyState.
  - destruct (timers w !! k) as [[d cb]|] eqn:Hk; [|done]. intros [= <-].
    apply list_elem_of_lookup_2 in Hk.
    pose proof (Inv_delete_timer k w HI) as HD.
    destruct cb as [r p|p|]; cbn [run_timer].
    + apply Inv_requestTimeout; [done|]. by apply (inv_request_timer _ HI) in Hk as [_ ?].
    + apply Inv_connectionTimeout; [done|]. by apply (inv_connect_timer _ HI) in Hk as [_ ?].
    + by apply Inv_connect.
Qed.

Lemma run_snoc throws evs ev : ∀ w w',
  run throws (evs ++ [ev]) w = Some w' ↔
  ∃ w1, run throws evs w = Some w1 ∧ step throws ev w1 = Some w'.
Proof.
  induction evs as [|e evs IH]; intros w w'; cbn.
  - destruct (step throws ev w) as [w1|] eqn:E; split.
    + intros [= <-]. eauto.
    + intros (? & [= <-] & ?). congruence.
    + done.
    + intros (? & [= <-] & ?). congruence.
  - destruct (step throws e w) as [w1|]; [apply IH|].
    split; [done | by intros (? & ? & ?)].
Qed.

Lemma Inv_run throws evs : ∀ w, run throws evs init = Some w → Inv w.
Proof.
  induction evs as [|ev evs IH] using rev_ind; intros w.
  - intros [= <-]. apply Inv_init.
  - intros (w1 & H1 & Hs)%run_snoc. eapply Inv_step; [|done]. by apply IH.
Qed.


(** *** How the futures of requests evolve *)

Lemma progress_same A w w' : promises w' = promises w → progress A w w'.
Proof. intros E p r st' H. left. by rewrite <- E. Qed.

Lemma progress_trans A w1 w2 w3 :
  progress A w1 w2 → progress A w2 w3 → progress A w1 w3.
Proof.
  intros H12 H23 p r st' H. destruct (H23 _ _ _ H) as [H2|[?|?]]; eauto.
Qed.

Lemma progress_append A w w' o st :
  promises w' = promises w ++ [mkPromise o st] →
  o = OfConnect ∨ st = Pending →
  progress A w w'.
Proof.
  intros E Ho p r st'. rewrite E, lookup_app_Some.
  intros [H|[_ H]]; [by left|].
  apply list_lookup_singleton_Some in H as [_ [= -> ->]].
  destruct Ho as [? | ->]; [done | by right; left].
Qed.

Lemma progress_settle (A : string → PromiseState → Prop) w p st :
  (∀ r, origin_of w p = Some (OfRequest r) → A r st) →
  progress A w (settle p st w).
Proof.
  intros HA q r st'. destruct (decide (p = q)) as [<-|Hne].
  - rewrite settle_lookup_eq. destruct (promises w !! p) as [[o s]|] eqn:Hp; [|done].
    cbn. destruct s; intros [= -> <-]; try by left.
    right; right. apply HA. unfold origin_of. by rewrite Hp.
  - rewrite settle_lookup_ne by done. by left.
Qed.

Lemma progress_settle_connect A w p st :
  origin_of w p = Some OfConnect → progress A w (settle p st w).
Proof. intros Ho. apply progress_settle. intros r. by rewrite Ho. Qed.

Lemma progress_connect A throws w : progress A w (snd (connect throws w)).
Proof.
  destruct (connect_cases throws w) as [->|[Hc Hi]]; [by apply progress_same|].
  destruct throws as [e|].
  - rewrite connect_throws by done. eapply progress_append; [done | by left].
  - rewrite connect_fresh by done. eapply progress_append; [done | by left].
Qed.

Lemma progress_await_response A r w : progress A w (snd (await_response r w)).
Proof. eapply progress_append; [done | by right]. Qed.

Lemma progress_send A throws st idNow rand now ty pl w :
  progress A w (snd (send throws st idNow rand now ty pl w)).
Proof.
  unfold send. destruct (if isConnected w then ws (this w) else None) as [i|].
  - destruct (ws_send st i _ w) as [e|w'] eqn:Hsend; [by apply progress_same|].
    destruct (ws_send_frame _ _ _ _ _ Hsend) as (_ & Hp & _).
    pose proof (progress_await_response A (generateRequestId idNow rand) w') as H.
    destruct (await_response _ w'). cbn in *.
    eapply progress_trans; [|done]. by apply progress_same.
  - set (w1 := snd (connect throws _)).
    assert (H1 : progress A w w1).
    { eapply progress_trans; [|apply progress_connect]. by apply progress_same. }
    pose proof (progress_await_response A (generateRequestId idNow rand) w1) as H.
    destruct (await_response _ w1). cbn in *. by eapply progress_trans.
Qed.

Lemma progress_onopen A st p w :
  origin_of w p = Some OfConnect → progress A w (onopen st p w).
Proof.
  intros Ho. unfold onopen.
  set (wf := flushMessageQueue st _).
  assert (E : promises wf = promises w)
    by (unfold wf; by rewrite (proj1 (flushMessageQueue_frame _ _))).
  eapply progress_trans; [by apply progress_same|].
  apply progress_settle_connect. unfold origin_of. by rewrite E.
Qed.

Lemma progress_reconnect A w : progress A w (reconnect w).
Proof.
  unfold reconnect. destruct (_ <=? _)%nat; by apply progress_same.
Qed.

Lemma progress_connectionTimeout A st p w :
  origin_of w p = Some OfConnect → progress A w (connectionTimeout st p w).
Proof.
  intros Ho. unfold connectionTimeout.
  destruct (isConnecting (this w)); [|by apply progress_same].
  eapply progress_trans; [|by apply progress_settle_connect].
  by apply progress_same.
Qed.

Lemma progress_requestTimeout st r p w :
  origin_of w p = Some (OfRequest r) →
  progress (λ _ outcome, timed_out outcome) w (requestTimeout st r p w).
Proof.
  intros Ho. unfold requestTimeout.
  destruct (pendingRequests (this w) !! r); [|by apply progress_same].
  eapply progress_trans; [|apply progress_settle; intros; by exists st].
  by apply progress_same.
Qed.

(** A response settles the future of the request whose id it carries,
    in the way [response_to] describes, and no other. *)
Lemma progress_handleMessage st i message w :
  Inv w →
  progress (λ r outcome, response_to r (SocketMessage st i (Json message)) outcome)
    w (handleMessage st (Json message) w).
Proof.
  intros HI. unfold handleMessage, handleMessage_try. cbn [JSON_parse].
  destruct (get_prop st message "requestId") as [e|rid] eqn:Hrid; [by apply progress_same|].
  destruct (get_prop st message "type") as [e|ty] eqn:Hty; [by apply progress_same|].
  destruct (get_prop st message "payload") as [e|pl] eqn:Hpl; [by apply progress_same|].
  destruct (if truthy rid then pending_get rid w else None) as [[k p]|] eqn:Hget.
  - assert (Hk : rid = JStr k ∧ pendingRequests (this w) !! k = Some p).
    { destruct (truthy rid); [|done]. by apply pending_get_Some. }
    destruct Hk as [-> Hk].
    assert (Ho : origin_of w p = Some (OfRequest k)).
    { unfold origin_of. by rewrite (inv_pending _ HI _ _ Hk). }
    set (wd := on_this _ w).
    assert (Hsettle : ∀ outcome,
      response_to k (SocketMessage st i (Json message)) outcome →
      progress (λ r outcome, response_to r (SocketMessage st i (Json message)) outcome)
        w (settle p outcome wd)).
    { intros outcome Hresp. eapply progress_trans; [by apply (progress_same _ w wd)|].
      apply progress_settle. intros r. change (origin_of wd p) with (origin_of w p).
      rewrite Ho. by intros [= <-]. }
    destruct (is_str ty "error") eqn:Herr.
    + destruct (get_prop st pl "message") as [e|m] eqn:Hm; [by apply progress_same|].
      destruct (ToString st _) as [e|text] eqn:Htext; [by apply progress_same|].
      apply Hsettle. exists st, i, message, ty, pl. rewrite Herr. eauto 10.
    + apply Hsettle. exists st, i, message, ty, pl. by rewrite Herr.
  - destruct (handler_get ty w); by apply progress_same.
Qed.

Lemma progress_weaken (A B : string → PromiseState → Prop) w w' :
  (∀ r st, A r st → B r st) → progress A w w' → progress B w w'.
Proof. intros HAB H p r st' Hp. destruct (H _ _ _ Hp) as [?|[?|?]]; eauto. Qed.

Lemma progress_step throws ev w w' :
  Inv w → step throws ev w = Some w' →
  progress (λ r outcome, timed_out outcome ∨ response_to r ev outcome) w w'.
Proof.
  intros HI. destruct ev; cbn [step].
  - intros [= <-]. apply progress_connect.
  - intros [= <-]. apply progress_send.
  - intros [= <-]. by apply progress_same.
  - intros [= <-]. by apply progress_same.
  - intros [= <-]. apply progress_same, disconnect_promises.
  - destruct (sockets w !! i) as [[[] p tx]|] eqn:Hs; try done.
    intros [= <-]. eapply progress_trans; [|apply progress_onopen].
    + by apply progress_same.
    + apply (inv_opener _ HI _ _ Hs).
  - assert (H : progress (λ r outcome, timed_out outcome ∨
                             response_to r (SocketMessage st i data) outcome)
                  w (handleMessage st data w)).
    { destruct data as [e|message]; [by apply progress_same|].
      eapply progress_weaken; [|by apply (progress_handleMessage st i)].
      intros r outcome Hr. by right. }
    destruct (sockets w !! i) as [[[] p tx]|]; try done; by intros [= <-].
  - destruct (sockets w !! i) as [[[] p tx]|]; try done;
      intros [= <-]; by apply progress_same.
  - destruct (sockets w !! i) as [[[] p tx]|]; try done; intros [= <-];
      (eapply progress_trans; [|apply progress_reconnect]); by apply progress_same.
  - destruct (timers w !! k) as [[d cb]|] eqn:Hk; [|done]. intros [= <-].
    apply list_elem_of_lookup_2 in Hk.
    eapply progress_trans; [by apply (progress_same _ w (set_timers (delete k (timers w)) w))|].
    destruct cb as [r p|p|]; cbn [run_timer].
    + eapply progress_weaken; [|apply progress_requestTimeout].
      * eauto.
      * by apply (inv_request_timer _ HI) in Hk as [_ ?].
    + apply progress_connectionTimeout.
      by apply (inv_connect_timer _ HI) in Hk as [_ ?].
    + apply progress_connect.
Qed.

(** Every settled future of a request is accounted for by the timeout or
    by a response, among the events so far, that carries the id of its
    request. *)
Lemma settled_explained throws evs : ∀ w p r outcome,
  run throws evs init = Some w →
  promises w !! p = Some (mkPromise (OfRequest r) outcome) →
  outcome = Pending ∨ timed_out outcome ∨ ∃ ev, ev ∈ evs ∧ response_to r ev outcome.
Proof.
  induction evs as [|ev evs IH] using rev_ind; intros w p r outcome.
  - intros [= <-]. cbn. by rewrite lookup_nil.
  - intros (w1 & H1 & Hs)%run_snoc Hp.
    pose proof (Inv_run _ _ _ H1) as HI.
    destruct (progress_step _ _ _ _ HI Hs _ _ _ Hp) as [Hold | [ -> | [? | Hresp]]].
    + destruct (IH _ _ _ _ H1 Hold) as [?|[?|(ev' & Hin & ?)]]; [by left | by right; left |].
      right; right. exists ev'. split; [|done]. apply elem_of_app. by left.
    + by left.
    + by right; left.
    + right; right. exists ev. split; [|done]. apply elem_of_app. right.
      by apply list_elem_of_singleton.
Qed.

(** A response that carries another id than [r] touches neither the
    entry of [r] nor a future of [r]. *)
Lemma handleMessage_other st message rid r p w :
  Inv w →
  get_prop st message "requestId" = inr rid → rid ≠ JStr r →
  origin_of w p = Some (OfRequest r) →
  promises (handleMessage st (Json message) w) !! p = promises w !! p
  ∧ pendingRequests (this (handleMessage st (Json message) w)) !! r
    = pendingRequests (this w) !! r.
Proof.
  intros HI Hrid Hne Ho. unfold handleMessage, handleMessage_try. cbn [JSON_parse].
  rewrite Hrid.
  destruct (get_prop st message "type") as [e|ty]; [done|].
  destruct (get_prop st message "payload") as [e|pl]; [done|].
  destruct (if truthy rid then pending_get rid w else None) as [[k q]|] eqn:Hget.
  - assert (Hk : rid = JStr k ∧ pendingRequests (this w) !! k = Some q).
    { destruct (truthy rid); [|done]. by apply pending_get_Some. }
    destruct Hk as [-> Hk].
    assert (Hkr : k ≠ r) by congruence.
    assert (Hqp : q ≠ p).
    { intros ->. unfold origin_of in Ho. rewrite (inv_pending _ HI _ _ Hk) in Ho.
      by injection Ho. }
    assert (Hdel : delete k (pendingRequests (this w)) !! r = pendingRequests (this w) !! r)
      by (by apply lookup_delete_ne).
    destruct (is_str ty "error").
    + destruct (get_prop st pl "message") as [e|m]; [done|].
      destruct (ToString st _) as [e|text]; [done|].
      by rewrite settle_lookup_ne.
    + by rewrite settle_lookup_ne.
  - destruct (handler_get ty w); done.
Qed.


Lemma get_prop_total st v k x k' :
  get_prop st v k = inr x → ∃ y, get_prop st v k' = inr y.
Proof. destruct v; cbn; try done; eauto. Qed.

Lemma step_SocketMessage throws st i data w w' :
  step throws (SocketMessage st i data) w = Some w' → w' = handleMessage st data w.
Proof.
  cbn. destruct (sockets w !! i) as [[[] ? ?]|]; congruence.
Qed.

(** The response that carries the id of a table entry settles the
    future of that entry and removes the entry. *)
Lemma handleMessage_own st message r p ty pl w :
  Inv w → pendingRequests (this w) !! r = Some p →
  get_prop st message "requestId" = inr (JStr r) →
  get_prop st message "type" = inr ty →
  get_prop st message "payload" = inr pl →
  let w' := handleMessage st (Json message) w in
  pendingRequests (this w') !! r = None
  ∧ (is_str ty "error" = false →
     promises w' !! p = Some (mkPromise (OfRequest r) (Fulfilled pl)))
  ∧ (∀ m text,
       is_str ty "error" = true → get_prop st pl "message" = inr m →
       ToString st (if truthy m then m else JStr "Server error") = inr text →
       promises w' !! p = Some (mkPromise (OfRequest r) (Rejected (new_Error text st)))).
Proof.
  intros HI Hr Hrid Hty Hpl. unfold handleMessage, handleMessage_try. cbn [JSON_parse].
  rewrite Hrid, Hty, Hpl.
  assert (Hne : r ≠ "") by (intros ->; by eapply inv_key).
  assert (Htr : truthy (JStr r) = true) by (cbn; by rewrite (proj2 (String.eqb_neq _ _) Hne)).
  rewrite Htr. unfold pending_get. rewrite Hr. cbn [fmap option_fmap option_map].
  pose proof (inv_pending _ HI _ _ Hr) as Hp.
  destruct (is_str ty "error").
  - destruct (get_prop st pl "message") as [e|m].
    { cbn. split; [by rewrite lookup_delete_eq|]. split; [done|]. by intros. }
    destruct (ToString st _) as [e|text] eqn:Htext.
    { cbn. split; [by rewrite lookup_delete_eq|]. split; [done|].
      intros m' text' _ [= <-]. congruence. }
    cbn. split; [by rewrite lookup_delete_eq|]. split; [done|].
    intros m' text' _ [= <-]. rewrite Htext. intros [= <-].
    rewrite list_lookup_alter_eq, Hp. done.
  - cbn. split; [by rewrite lookup_delete_eq|]. split; [|done].
    intros _. rewrite list_lookup_alter_eq, Hp. done.
Qed.

(** C1. In every page the event loop reaches, a future that [send()]
    returned for the request with id [r] is pending, or rejected by its
    timeout, or settled by a response among the events so far whose
    [requestId] is [r]: fulfilled with the payload of that response, or
    rejected with the error it carries.  While the request is in the
    table, the response that carries [r] settles its future in that way
    and removes the entry; a response that carries another id leaves
    both the future and the entry as they are. *)
Theorem settled_by_own_response throws evs w p r outcome :
  run throws evs init = Some w →
  promises w !! p = Some (mkPromise (OfRequest r) outcome) →
  (outcome = Pending ∨ timed_out outcome ∨ ∃ ev, ev ∈ evs ∧ response_to r ev outcome)
  ∧ (∀ st i message w' outcome',
       pendingRequests (this w) !! r = Some p →
       step throws (SocketMessage st i (Json message)) w = Some w' →
       response_to r (SocketMessage st i (Json message)) outcome' →
       pendingRequests (this w') !! r = None
       ∧ promises w' !! p = Some (mkPromise (OfRequest r) outcome'))
  ∧ (∀ st i message rid w',
       get_prop st message "requestId" = inr rid → rid ≠ JStr r →
       step throws (SocketMessage st i (Json message)) w = Some w' →
       promises w' !! p = Some (mkPromise (OfRequest r) outcome)
       ∧ pendingRequests (this w') !! r = pendingRequests (this w) !! r).
Proof.
  intros Hrun Hp. pose proof (Inv_run _ _ _ Hrun) as HI.
  split; [by eapply settled_explained|]. split.
  - intros st i message w' outcome' Hr ->%step_SocketMessage
      (st0 & i0 & message0 & ty & pl & [= <- <- <-] & Hrid & Hty & Hpl & Hout).
    destruct (handleMessage_own st message r p ty pl w HI Hr Hrid Hty Hpl)
      as (Hgone & Hok & Herr).
    split; [done|]. destruct (is_str ty "error").
    + destruct Hout as (m & text & Hm & Htext & ->). by eapply Herr.
    + subst outcome'. by apply Hok.
  - intros st i message rid w' Hrid Hne ->%step_SocketMessage.
    destruct (handleMessage_other st message rid r p w HI Hrid Hne) as [E1 E2].
    + unfold origin_of. by rewrite Hp.
    + by rewrite E1.
Qed.

(** The futures of [two_in_flight]: each request got the outcome of the
    response that carries its id. *)
Example two_in_flight_outcomes :
  (promises <$> run None two_in_flight init)
  = Some [mkPromise OfConnect (Fulfilled JUndefined);
          mkPromise (OfRequest "17-aaaaaaaaa") (Rejected (new_Error "ENOENT" ""));
          mkPromise (OfRequest "17-bbbbbbbbb")
            (Fulfilled (JObj [("status", JStr "pending")]))].
Proof. vm_compute. reflexivity. Qed.

(** *** The request timeout *)

(** A response whose id is not in the table settles nothing: it goes to
    the listener of its kind, if there is one, and the [try] completes
    without an exception. *)
Lemma late_response_dropped st message r w :
  pendingRequests (this w) !! r = None →
  get_prop st message "requestId" = inr (JStr r) →
  ∃ w', handleMessage_try st (Json message) w = inr w'
        ∧ promises w' = promises w
        ∧ pendingRequests (this w') = pendingRequests (this w).
Proof.
  intros Hr Hrid. unfold handleMessage_try. cbn [JSON_parse]. rewrite Hrid.
  destruct (get_prop_total _ _ _ _ "type" Hrid) as [ty ->].
  destruct (get_prop_total _ _ _ _ "payload" Hrid) as [pl ->].
  replace (if truthy (JStr r) then pending_get (JStr r) w else None)
    with (@None (string * nat))
    by (unfold pending_get; rewrite Hr; by destruct (truthy _)).
  destruct (handler_get ty w); eauto.
Qed.

(** C7, as stated, fails.  A request is sent on a connected client and
    [disconnect()] is called before a response arrives, which empties
    the table.  No response ever comes; when the 10 s timer of the
    request fires it finds no entry and does nothing: the future is
    still pending, and no timer is left that could reject it. *)
Lemma timeout_after_disconnect_rejects_nothing :
  let before := [CallConnect; SocketOpen "" 0;
                 CallSend "" 1700000000000 "k3j9x0a1b" 1700000000000 "open-editor" JNull;
                 CallDisconnect] in
  (timers <$> run None before init)
    = Some [(5000, ConnectionTimeout 0);
            (10000, RequestTimeout "1700000000000-k3j9x0a1b" 1)]
  ∧ ((λ w, state_of w 1) <$> run None (before ++ [TimerFires "" 1]) init)
    = Some (Some Pending)
  ∧ (timers <$> run None (before ++ [TimerFires "" 1]) init)
    = Some [(5000, ConnectionTimeout 0)].
Proof. repeat split; vm_compute; reflexivity. Qed.

(** C7, amended. A timer set by [send()] for request [r] runs after
    10 s.  If the entry of [r] is still in the table when it fires, the
    entry is removed and the future is rejected with [Request timeout];
    if the entry is gone by then (a response came, or [disconnect()]
    emptied the table), the timer changes nothing.  From then on, as
    long as [r] is not in the table, a response that carries [r] settles
    no future, changes no entry, and raises no exception. *)
Theorem timeout_then_late_response throws evs w k d r p st :
  run throws evs init = Some w →
  timers w !! k = Some (d, RequestTimeout r p) →
  d = 10000
  ∧ ∃ w1, step throws (TimerFires st k) w = Some w1
      ∧ pendingRequests (this w1) !! r = None
      ∧ (pendingRequests (this w) !! r = Some p →
         promises w1 !! p
         = Some (mkPromise (OfRequest r) (Rejected (new_Error "Request timeout" st))))
      ∧ (pendingRequests (this w) !! r = None →
         w1 = set_timers (delete k (timers w)) w)
      ∧ ∀ wl st' message,
          pendingRequests (this wl) !! r = None →
          get_prop st' message "requestId" = inr (JStr r) →
          ∃ w2, handleMessage_try st' (Json message) wl = inr w2
                ∧ handleMessage st' (Json message) wl = w2
                ∧ promises w2 = promises wl
                ∧ pendingRequests (this w2) = pendingRequests (this wl).
Proof.
  intros Hrun Hk. pose proof (Inv_run _ _ _ Hrun) as HI.
  split; [by apply list_elem_of_lookup_2, (inv_request_timer _ HI) in Hk as [? _]|].
  exists (requestTimeout st r p (set_timers (delete k (timers w)) w)).
  split; [cbn [step]; by rewrite Hk|].
  assert (Hlate : ∀ wl st' message,
            pendingRequests (this wl) !! r = None →
            get_prop st' message "requestId" = inr (JStr r) →
            ∃ w2, handleMessage_try st' (Json message) wl = inr w2
                  ∧ handleMessage st' (Json message) wl = w2
                  ∧ promises w2 = promises wl
                  ∧ pendingRequests (this w2) = pendingRequests (this wl)).
  { intros wl st' message Hl Hrid.
    destruct (late_response_dropped st' message r wl Hl Hrid) as (w2 & E & ? & ?).
    exists w2. unfold handleMessage. by rewrite E. }
  unfold requestTimeout. change (this (set_timers _ w)) with (this w).
  destruct (pendingRequests (this w) !! r) as [p'|] eqn:Hr.
  - split; [cbn; by rewrite lookup_delete_eq|]. split; [|split; [done | exact Hlate]].
    intros [= ->]. rewrite settle_lookup_eq.
    change (promises (on_this _ _)) with (promises w).
    by rewrite (inv_pending _ HI _ _ Hr).
  - split; [exact Hr|]. split; [done|]. split; [done | exact Hlate].
Qed.


Lemma settled_by_own_response_witness :
  ∃ w, run None two_in_flight init = Some w
       ∧ promises w !! 2%nat
         = Some (mkPromise (OfRequest "17-bbbbbbbbb")
                   (Fulfilled (JObj [("status", JStr "pending")])))
       ∧ ∃ ev, ev ∈ two_in_flight
               ∧ response_to "17-bbbbbbbbb" ev
                   (Fulfilled (JObj [("status", JStr "pending")])).
Proof.
  eexists. split; [vm_compute; reflexivity|].
  match goal with
  | |- promises ?w !! _ = ?x ∧ _ =>
      assert (Hrun : run None two_in_flight init = Some w) by (vm_compute; reflexivity);
      assert (Hp : promises w !! 2%nat = x) by (vm_compute; reflexivity)
  end.
  split; [exact Hp|].
  destruct (settled_by_own_response None two_in_flight _ 2 "17-bbbbbbbbb" _ Hrun Hp)
    as [[H|[[st H]|H]] _]; [discriminate | discriminate | exact H].
Defined.

Lemma timeout_then_late_response_witness :
  ∃ w, run None unanswered init = Some w
    ∧ ∃ w1, step None (TimerFires "" 1) w = Some w1
    ∧ promises w1 !! 1%nat
      = Some (mkPromise (OfRequest "17-aaaaaaaaa") (Rejected (new_Error "Request timeout" "")))
    ∧ promises (handleMessage "" (frame_of "component-selected" JNull "17-aaaaaaaaa" 99) w1)
      = promises w1.
Proof.
  eexists. split; [vm_compute; reflexivity|].
  match goal with
  | |- ∃ w1, step _ _ ?w = _ ∧ _ =>
      assert (Hrun : run None unanswered init = Some w) by (vm_compute; reflexivity);
      assert (Hk : timers w !! 1%nat = Some (10000, RequestTimeout "17-aaaaaaaaa" 1))
        by (vm_compute; reflexivity);
      assert (Hr : pendingRequests (this w) !! "17-aaaaaaaaa" = Some 1%nat)
        by (vm_compute; reflexivity)
  end.
  destruct (timeout_then_late_response None unanswered _ 1 10000 "17-aaaaaaaaa" 1 ""
              Hrun Hk) as (_ & w1 & Hstep & Hgone & Hp & _ & Hlate).
  exists w1. split; [exact Hstep|]. split; [exact (Hp Hr)|].
  destruct (Hlate w1 "" (JObj [("type", JStr "component-selected"); ("payload", JNull);
                               ("requestId", JStr "17-aaaaaaaaa"); ("timestamp", JNum 99)])
              Hgone eq_refl) as (w2 & _ & E & Hsame & _).
  unfold frame_of. rewrite E. exact Hsame.
Defined.


End ClientProps.

(** ** CLI: the [start] command *)

Module CliProps.
Import Cli CliSpec.

(** C9, as stated, fails.  A record names process 4242, which is alive
    and listens on port 3737; [start] is run by process 5000 with a
    configuration for port 4000.  The command does not fail: it serves
    from the calling process 5000 itself and replaces the record. *)
Lemma start_ignores_liveness_record :
  let os := mkOS {[ "/app/.hubble.pid" := "4242" ]} ∅
                 {[ ("localhost", 3737) := 4242 ]} {[ 4242; 5000 ]} in
  let result := startCommand "" 5000 (inr (mkServerConfig "localhost" 4000)) "/app" os in
  already_running "/app" os
  ∧ fst result = Serving 5000 (Cleanup "/app/.hubble.pid" ("localhost", 4000))
  ∧ files (snd result) !! "/app/.hubble.pid" = Some "5000".
Proof.
  cbn zeta. split; [|split].
  - exists 4242. split; [vm_compute; reflexivity | set_solver].
  - vm_compute. reflexivity.
  - vm_compute. reflexivity.
Qed.

(** C9, amended. [start] serves from the calling process: when
    configuration loading, binding and writing the record succeed, the
    process that listens is the caller, the record holds the caller's
    id in place of whatever was there, and the caller stays until a
    signal makes [cleanup] release the address and remove the record.
    It fails only when loading fails, the address is taken, or the
    record cannot be written, and then the files are as they were.
    Neither the content of the files nor the process table is
    consulted. *)
Theorem start_serves_in_process st pid loaded cwd os :
  (∀ os2, listening os2 = listening os → readonly os2 = readonly os →
     fst (startCommand st pid loaded cwd os2) = fst (startCommand st pid loaded cwd os))
  ∧ match startCommand st pid loaded cwd os with
    | (Serving server onSignal, os') =>
        ∃ cfg, loaded = inr cfg
          ∧ listening os !! (host cfg, port cfg) = None
          ∧ server = pid
          ∧ listening os' = <[(host cfg, port cfg) := pid]> (listening os)
          ∧ files os' = <[path_join cwd ".hubble.pid" := pretty pid]> (files os)
          ∧ alive os' = alive os
          ∧ files (cleanup onSignal os') !! path_join cwd ".hubble.pid" = None
          ∧ listening (cleanup onSignal os') !! (host cfg, port cfg) = None
    | (Threw e, os') =>
        files os' = files os
        ∧ (loaded = inl e
           ∨ (∃ cfg, loaded = inr cfg ∧ is_Some (listening os !! (host cfg, port cfg)))
           ∨ path_join cwd ".hubble.pid" ∈ readonly os)
    end.
Proof.
  split.
  - intros os2 E1 E2. unfold startCommand, server_start, writeFileSync. rewrite E1.
    destruct loaded as [e|cfg]; [done|].
    destruct (listening os !! (host cfg, port cfg)); [done|]. cbn. rewrite E2.
    by destruct (decide _).
  - unfold startCommand, server_start, writeFileSync.
    destruct loaded as [e|cfg]; [by auto|].
    destruct (listening os !! (host cfg, port cfg)) as [owner|] eqn:Hl.
    + split; [done|]. right; left. exists cfg. by rewrite Hl.
    + cbn. destruct (decide _) as [Hro|Hrw]; [by auto|].
      exists cfg. cbn. rewrite !lookup_delete_eq. done.
Qed.

Lemma start_serves_in_process_witness :
  let os := mkOS {[ "/app/.hubble.pid" := "4242" ]} ∅ ∅ {[ 4242 ]} in
  let cfg := mkServerConfig "localhost" 3737 in
  fst (startCommand "" 5000 (inr cfg) "/app" (mkOS ∅ ∅ ∅ ∅))
  = fst (startCommand "" 5000 (inr cfg) "/app" os).
Proof.
  intros os cfg.
  exact (proj1 (start_serves_in_process "" 5000 (inr cfg) "/app" os)
           (mkOS ∅ ∅ ∅ ∅) eq_refl eq_refl).
Defined.

End CliProps.

(** ** Client: further properties *)

Module ClientMore.
Import Client ClientSpec ClientSpec2 ClientProps.

(** *** [send()] *)

(** X1. A [send()] on a client that is neither connected nor connecting
    (and whose URL the constructor accepts) starts a connection attempt:
    it opens one socket, which the client now holds, and marks the
    client as connecting; the request is put at the end of the queue,
    registered in the table and given its 10 s timer.  If an attempt is
    already in progress no socket is opened. *)
Theorem send_starts_connection st idNow rand now ty pl w :
  isConnected w = false →
  let w' := snd (send None st idNow rand now ty pl w) in
  let p := if isConnecting (this w) then length (promises w) else S (length (promises w)) in
  fst (send None st idNow rand now ty pl w) = inr p
  ∧ messageQueue (this w') = messageQueue (this w) ++ [envelope idNow rand now ty pl]
  ∧ pendingRequests (this w')
    = <[generateRequestId idNow rand := p]> (pendingRequests (this w))
  ∧ promises w' !! p = Some (mkPromise (OfRequest (generateRequestId idNow rand)) Pending)
  ∧ (10000, RequestTimeout (generateRequestId idNow rand) p) ∈ timers w'
  ∧ isConnecting (this w') = true
  ∧ (isConnecting (this w) = false →
       sockets w' = sockets w ++ [mkSocket CONNECTING (length (promises w)) []]
       ∧ ws (this w') = Some (length (sockets w)))
  ∧ (isConnecting (this w) = true → sockets w' = sockets w ∧ ws (this w') = ws (this w)).
Proof.
  intros Hc. unfold send. rewrite Hc. cbn zeta.
  set (wq := on_this _ w).
  assert (Hcq : isConnected wq = false) by done.
  destruct (isConnecting (this w)) eqn:Hi.
  - rewrite (connect_connecting None wq) by done. cbn.
    repeat split; try done.
    + by rewrite lookup_app_r, Nat.sub_diag.
    + apply elem_of_app. right. apply list_elem_of_here.
  - rewrite (connect_fresh wq) by done. cbn.
    rewrite length_app, Nat.add_1_r. repeat split; try done.
    + rewrite lookup_app_r by (rewrite length_app; cbn; lia).
      rewrite length_app. cbn. by replace (S (length (promises w)) - _)%nat with 0%nat by lia.
    + apply elem_of_app. right. apply list_elem_of_here.
Qed.

Lemma send_starts_connection_witness :
  let w' := snd (send None "" 17 "aaaaaaaaa" 17 "open-editor" JNull init) in
  messageQueue (this w') = [envelope 17 "aaaaaaaaa" 17 "open-editor" JNull]
  ∧ sockets w' = [mkSocket CONNECTING 0 []] ∧ ws (this w') = Some 0%nat.
Proof.
  pose proof (send_starts_connection "" 17 "aaaaaaaaa" 17 "open-editor" JNull init eq_refl)
    as (_ & Hq & _ & _ & _ & _ & Hs & _).
  split; [exact Hq | exact (Hs eq_refl)].
Defined.

(** X2. A [send()] on a connected client whose message does not
    serialise rejects with [Failed to send message: TypeError: ...] and
    leaves the page as it was: nothing is transmitted or queued, no
    entry is registered and no timer is set. *)
Theorem send_unserialisable_rejected throws st idNow rand now ty pl w :
  isConnected w = true →
  serialises (envelope idNow rand now ty pl) = false →
  send throws st idNow rand now ty pl w =
    (inl (new_Error
            "Failed to send message: TypeError: Do not know how to serialize a BigInt" st),
     w).
Proof.
  intros Hc Hser. unfold send. rewrite Hc.
  destruct (isConnected_Some w Hc) as (i & s & -> & Hs & Hr).
  fold (envelope idNow rand now ty pl).
  by rewrite (ws_send_open _ _ _ _ _ Hs Hr), Hser.
Qed.

Lemma send_unserialisable_rejected_witness :
  let w := mkWorld (mkClient (Some 0%nat) [] ∅ 0 false ∅) [mkSocket OPEN 0 []]
             [mkPromise OfConnect (Fulfilled JUndefined)] [] [] in
  snd (send None "" 17 "aaaaaaaaa" 17 "component-selected"
         (JObj [("props", JObj [("id", JBigInt 7)])]) w) = w.
Proof.
  intros w.
  exact (f_equal snd (send_unserialisable_rejected None "" 17 "aaaaaaaaa" 17
                        "component-selected" (JObj [("props", JObj [("id", JBigInt 7)])])
                        w eq_refl eq_refl)).
Defined.

(** *** Listeners *)

Lemma handleMessage_unsolicited st message rid ty pl w :
  get_prop st message "requestId" = inr rid →
  get_prop st message "type" = inr ty →
  get_prop st message "payload" = inr pl →
  (if truthy rid then pending_get rid w else None) = None →
  handleMessage st (Json message) w =
    match handler_get ty w with
    | Some h => set_delivered (delivered w ++ [(h, pl)]) w
    | None => w
    end.
Proof.
  intros Hrid Hty Hpl Hnone. unfold handleMessage, handleMessage_try. cbn [JSON_parse].
  rewrite Hrid, Hty, Hpl, Hnone. by destruct (handler_get ty w).
Qed.

(** X3. A message whose [requestId] matches no table entry goes to the
    listener registered last for its kind, once, with its payload, and
    changes nothing else; after [off()] for that kind, or when no
    listener was registered, it changes nothing at all. *)
Theorem unsolicited_message_to_listener st message rid t pl h1 h2 w :
  get_prop st message "requestId" = inr rid →
  get_prop st message "type" = inr (JStr t) →
  get_prop st message "payload" = inr pl →
  (if truthy rid then pending_get rid w else None) = None →
  handleMessage st (Json message) (on t h2 (on t h1 w))
    = set_delivered (delivered w ++ [(h2, pl)]) (on t h2 (on t h1 w))
  ∧ handleMessage st (Json message) (off t (on t h1 w)) = off t (on t h1 w)
  ∧ (messageHandlers (this w) !! t = None → handleMessage st (Json message) w = w).
Proof.
  intros Hrid Hty Hpl Hnone. split; [|split].
  - rewrite (handleMessage_unsolicited _ _ _ _ _ _ Hrid Hty Hpl) by done.
    cbn. by rewrite lookup_insert_eq.
  - rewrite (handleMessage_unsolicited _ _ _ _ _ _ Hrid Hty Hpl) by done.
    cbn. by rewrite lookup_delete_eq.
  - intros Hh. rewrite (handleMessage_unsolicited _ _ _ _ _ _ Hrid Hty Hpl) by done.
    cbn. by rewrite Hh.
Qed.

Lemma unsolicited_message_to_listener_witness :
  delivered (handleMessage ""
               (Json (JObj [("type", JStr "component-selected");
                            ("payload", JStr "hello")]))
               (on "component-selected" 2 (on "component-selected" 1 init)))
  = [(2%nat, JStr "hello")].
Proof.
  exact (f_equal delivered
           (proj1 (unsolicited_message_to_listener ""
                     (JObj [("type", JStr "component-selected"); ("payload", JStr "hello")])
                     JUndefined "component-selected" (JStr "hello") 1 2 init
                     eq_refl eq_refl eq_refl eq_refl))).
Defined.


(** *** Responses that cannot be read *)

(** X4. An [error] response whose payload is [null] or [undefined]
    removes the entry of its request, but settles no future: reading
    [payload.message] throws inside the [try] after the entry was
    deleted.  The timer of the request then finds no entry and does
    nothing, so the future stays pending. *)
Theorem error_response_without_payload throws evs w st message r p pl :
  run throws evs init = Some w →
  pendingRequests (this w) !! r = Some p →
  get_prop st message "requestId" = inr (JStr r) →
  get_prop st message "type" = inr (JStr "error") →
  get_prop st message "payload" = inr pl →
  pl = JNull ∨ pl = JUndefined →
  let w' := handleMessage st (Json message) w in
  pendingRequests (this w') = delete r (pendingRequests (this w))
  ∧ promises w' = promises w
  ∧ promises w' !! p = Some (mkPromise (OfRequest r) Pending)
  ∧ ∀ st', requestTimeout st' r p w' = w'.
Proof.
  intros Hrun Hr Hrid Hty Hpl Hnull. pose proof (Inv_run _ _ _ Hrun) as HI.
  assert (Hne : r ≠ "") by (intros ->; by eapply inv_key).
  assert (Htr : truthy (JStr r) = true) by (cbn; by rewrite (proj2 (String.eqb_neq _ _) Hne)).
  unfold handleMessage, handleMessage_try. cbn [JSON_parse].
  rewrite Hrid, Hty, Hpl, Htr. unfold pending_get. rewrite Hr.
  cbn [fmap option_fmap option_map is_str]. rewrite String.eqb_refl.
  assert (Hthrow : ∃ e, get_prop st pl "message" = inl e)
    by (destruct Hnull as [-> | ->]; cbn; eauto).
  destruct Hthrow as [e ->]. cbn.
  split; [done|]. split; [done|]. split; [by apply (inv_pending _ HI)|].
  intros st'. unfold requestTimeout. cbn. by rewrite lookup_delete_eq.
Qed.

Lemma error_response_without_payload_witness :
  ∃ w, run None unanswered init = Some w
    ∧ promises (handleMessage "" (error_without_payload "17-aaaaaaaaa") w) !! 1%nat
      = Some (mkPromise (OfRequest "17-aaaaaaaaa") Pending)
    ∧ pendingRequests (this (handleMessage "" (error_without_payload "17-aaaaaaaaa") w))
        !! "17-aaaaaaaaa" = None.
Proof.
  eexists. split; [vm_compute; reflexivity|].
  match goal with
  | |- promises (handleMessage _ _ ?w) !! _ = _ ∧ _ =>
      assert (Hrun : run None unanswered init = Some w) by (vm_compute; reflexivity);
      assert (Hr : pendingRequests (this w) !! "17-aaaaaaaaa" = Some 1%nat)
        by (vm_compute; reflexivity)
  end.
  destruct (error_response_without_payload None unanswered _ ""
              (JObj [("type", JStr "error"); ("payload", JNull);
                     ("requestId", JStr "17-aaaaaaaaa")])
              "17-aaaaaaaaa" 1 JNull Hrun Hr eq_refl eq_refl eq_refl (or_introl eq_refl))
    as (Hpend & _ & Hp & _).
  split; [exact Hp|]. unfold error_without_payload. rewrite Hpend. apply lookup_delete_eq.
Defined.

(** *** The connection timeout *)

(** X5. The timer [connect()] sets runs after 5 s.  If the client is
    still marked as connecting when it fires, the mark is cleared and
    the future of that [connect()] call is rejected with [Connection
    timeout after 5 seconds]; the socket is neither closed nor dropped.
    If the client is no longer connecting, nothing changes but the
    timer. *)
Theorem connection_timeout_fires throws evs w k d p st :
  run throws evs init = Some w →
  timers w !! k = Some (d, ConnectionTimeout p) →
  d = 5000
  ∧ ∃ w1, step throws (TimerFires st k) w = Some w1
      ∧ sockets w1 = sockets w
      ∧ ws (this w1) = ws (this w)
      ∧ isConnecting (this w1) = false
      ∧ (isConnecting (this w) = false → w1 = set_timers (delete k (timers w)) w)
      ∧ (isConnecting (this w) = true →
         state_of w p = Some Pending →
         promises w1 !! p
         = Some (mkPromise OfConnect
                   (Rejected (new_Error "Connection timeout after 5 seconds" st)))).
Proof.
  intros Hrun Hk. pose proof (Inv_run _ _ _ Hrun) as HI.
  destruct (inv_connect_timer _ HI d p (list_elem_of_lookup_2 _ _ _ Hk)) as [-> Ho].
  split; [done|].
  exists (connectionTimeout st p (set_timers (delete k (timers w)) w)).
  split; [cbn [step]; by rewrite Hk|].
  unfold connectionTimeout. change (this (set_timers _ w)) with (this w).
  destruct (isConnecting (this w)) eqn:Hi.
  - repeat split; try done. intros _ Hst. rewrite settle_lookup_eq.
    change (promises (on_this _ _)) with (promises w).
    apply origin_of_Some in Ho as [s Hs]. unfold state_of in Hst.
    rewrite Hs in Hst |- *. by injection Hst as ->.
  - repeat split; try done.
Qed.

Lemma connection_timeout_fires_witness :
  ∃ w, run None [CallConnect] init = Some w
    ∧ ∃ w1, step None (TimerFires "" 0) w = Some w1
         ∧ isConnecting (this w1) = false
         ∧ sockets w1 = sockets w.
Proof.
  eexists. split; [vm_compute; reflexivity|].
  match goal with
  | |- ∃ w1, step _ _ ?w = _ ∧ _ =>
      assert (Hrun : run None [CallConnect] init = Some w) by (vm_compute; reflexivity);
      assert (Hk : timers w !! 0%nat = Some (5000, ConnectionTimeout 0))
        by (vm_compute; reflexivity)
  end.
  destruct (connection_timeout_fires None [CallConnect] _ 0 5000 0 "" Hrun Hk)
    as (_ & w1 & Hstep & Hs & _ & Hi & _).
  exists w1. split; [exact Hstep|]. split; [exact Hi | exact Hs].
Defined.

(** *** Flushing twice *)

Lemma sendable_of_stuck queue : sendable (stuck queue) = [] ∧ stuck (stuck queue) = stuck queue.
Proof.
  induction queue as [|m rest IH]; [done|]. cbn.
  destruct (serialises m) eqn:Hm; [done|]. cbn. by rewrite Hm.
Qed.

(** X6. [flushMessageQueue()] is idempotent: what a flush leaves queued
    is blocked by its first envelope, so a second flush transmits
    nothing and changes nothing. *)
Theorem flush_idempotent st w :
  flushMessageQueue st (flushMessageQueue st w) = flushMessageQueue st w.
Proof.
  destruct (isConnected w) eqn:Hc.
  2:{ assert (E : flushMessageQueue st w = w)
        by (unfold flushMessageQueue; by rewrite Hc).
      by rewrite !E. }
  destruct (isConnected_Some w Hc) as (i & s & Hws & Hs & Hr).
  assert (E : flushMessageQueue st w = flush_loop st i (messageQueue (this w)) w)
    by (unfold flushMessageQueue; by rewrite Hc, Hws).
  rewrite E, (flush_loop_spec _ _ _ _ _ Hs Hr).
  set (w1 := mkWorld _ _ _ _ _).
  assert (Hlt : (i < length (sockets w))%nat) by (by eapply lookup_lt_Some).
  assert (Hs1 : sockets w1 !! i
                = Some (mkSocket OPEN (opener s)
                          (transmitted s ++ sendable (messageQueue (this w)))))
    by (cbn; by rewrite list_lookup_insert_eq).
  assert (Hc1 : isConnected w1 = true)
    by (unfold isConnected; change (ws (this w1)) with (ws (this w)); by rewrite Hws, Hs1).
  unfold flushMessageQueue. rewrite Hc1.
  change (ws (this w1)) with (ws (this w)). rewrite Hws.
  rewrite (flush_loop_spec _ _ _ _ _ Hs1 eq_refl). cbn.
  destruct (sendable_of_stuck (messageQueue (this w))) as [-> ->].
  unfold w1. cbn. f_equal. by rewrite app_nil_r, list_insert_insert_eq.
Qed.


(** *** Bounded retries, timed entries *)

Lemma Bounded_mono w w' :
  Bounded w →
  (reconnectAttempts (this w') ≤ reconnectAttempts (this w))%nat →
  pendingRequests (this w') ⊆ pendingRequests (this w) →
  (∀ x, x ∈ timers w → x ∈ timers w') →
  Bounded w'.
Proof.
  intros [Ha Ht] Hle Hsub Htm. split; [lia|].
  intros r p Hr. apply Htm, Ht. by eapply lookup_weaken.
Qed.

Lemma Bounded_connect throws w : Bounded w → Bounded (snd (connect throws w)).
Proof.
  intros HB. destruct (connect_cases throws w) as [->|[Hc Hi]]; [done|].
  destruct throws as [e|].
  - rewrite connect_throws by done. by eapply Bounded_mono.
  - rewrite connect_fresh by done. eapply Bounded_mono; [done..|].
    intros x Hx. cbn. apply elem_of_app. by left.
Qed.

Lemma Bounded_await_response r w : Bounded w → Bounded (snd (await_response r w)).
Proof.
  intros [Ha Ht]. split; [done|]. intros r' p'. cbn.
  rewrite lookup_insert. case_decide as Hd.
  - intros [= <-]. subst r'. apply elem_of_app. right. by apply list_elem_of_singleton.
  - intros Hr'. apply elem_of_app. left. by apply Ht.
Qed.

Lemma Bounded_same w w' :
  Bounded w → this w' = this w → timers w' = timers w → Bounded w'.
Proof.
  intros HB Et Etm. eapply Bounded_mono; [done|by rewrite Et..|].
  intros x. by rewrite Etm.
Qed.

Lemma Bounded_send throws st idNow rand now ty pl w :
  Bounded w → Bounded (snd (send throws st idNow rand now ty pl w)).
Proof.
  intros HB. unfold send.
  destruct (if isConnected w then ws (this w) else None) as [i|].
  - destruct (ws_send st i _ w) as [e|w'] eqn:Hsend; [done|].
    destruct (ws_send_frame _ _ _ _ _ Hsend) as (Et & _ & Etm).
    pose proof (Bounded_await_response (generateRequestId idNow rand) w'
                  (Bounded_same _ _ HB Et Etm)) as H.
    by destruct (await_response _ w').
  - set (w1 := snd (connect throws _)).
    assert (H1 : Bounded w1).
    { apply Bounded_connect. by eapply Bounded_mono. }
    pose proof (Bounded_await_response (generateRequestId idNow rand) w1 H1) as H.
    by destruct (await_response _ w1).
Qed.

Lemma handleMessage_footprint st event w :
  timers (handleMessage st event w) = timers w
  ∧ reconnectAttempts (this (handleMessage st event w)) = reconnectAttempts (this w)
  ∧ pendingRequests (this (handleMessage st event w)) ⊆ pendingRequests (this w).
Proof.
  unfold handleMessage, handleMessage_try.
  destruct (JSON_parse event) as [e|message]; [done|].
  destruct (get_prop st message "requestId") as [e|rid]; [done|].
  destruct (get_prop st message "type") as [e|ty]; [done|].
  destruct (get_prop st message "payload") as [e|pl]; [done|].
  destruct (if truthy rid then pending_get rid w else None) as [[k p]|].
  - destruct (is_str ty "error").
    + destruct (get_prop st pl "message") as [e|m];
        [cbn; repeat split; try done; apply delete_subseteq|].
      destruct (ToString st _) as [e|text];
        cbn; repeat split; try done; apply delete_subseteq.
    + cbn; repeat split; try done; apply delete_subseteq.
  - destruct (handler_get ty w); done.
Qed.

Lemma Bounded_handleMessage st event w : Bounded w → Bounded (handleMessage st event w).
Proof.
  intros HB. destruct (handleMessage_footprint st event w) as (Etm & Ea & Hsub).
  eapply Bounded_mono; [done|by rewrite Ea|done|]. intros x. by rewrite Etm.
Qed.

Lemma Bounded_reconnect w : Bounded w → Bounded (reconnect w).
Proof.
  intros [Ha Ht]. unfold reconnect, maxReconnectAttempts in *.
  destruct (Nat.leb_spec 5 (reconnectAttempts (this w))); [done|].
  split; [cbn; unfold maxReconnectAttempts; lia|].
  intros r p Hr. cbn. apply elem_of_app. left. by apply Ht.
Qed.

Lemma Bounded_onopen st p w : Bounded w → Bounded (onopen st p w).
Proof.
  intros [Ha Ht]. unfold onopen.
  set (w0 := on_this (set_reconnectAttempts 0) _).
  destruct (flushMessageQueue_frame st w0) as (_ & Etm & Ep).
  assert (Ea : reconnectAttempts (this (flushMessageQueue st w0)) = 0%nat).
  { unfold flushMessageQueue.
    destruct (if isConnected w0 then ws (this w0) else None) as [i|]; [|done].
    generalize (messageQueue (this w0)). intros q. revert w0 Etm Ep.
    assert (G : ∀ q w, reconnectAttempts (this (flush_loop st i q w))
                       = reconnectAttempts (this w)).
    { clear. induction q as [|m rest IH]; intros w; cbn [flush_loop]; [done|].
      destruct (ws_send st i m w) as [e|w'] eqn:Hs; [done|].
      rewrite IH. by destruct (ws_send_frame _ _ _ _ _ Hs) as (-> & _ & _). }
    intros w0 _ _. by rewrite G. }
  split.
  - cbn. rewrite Ea. lia.
  - intros r q. cbn. rewrite Ep, Etm. apply Ht.
Qed.

Lemma elem_of_delete_other {A} (l : list A) k x y :
  l !! k = Some y → x ∈ l → x ≠ y → x ∈ delete k l.
Proof.
  intros Hk [j Hj]%list_elem_of_lookup_1 Hne.
  destruct (decide (j < k)%nat) as [Hlt|Hge].
  - apply (list_elem_of_lookup_2 _ j). by rewrite list_lookup_delete_lt.
  - assert (j ≠ k) by (intros ->; congruence).
    apply (list_elem_of_lookup_2 _ (pred j)). rewrite list_lookup_delete_ge by lia.
    by replace (S (pred j)) with j by lia.
Qed.

Lemma Bounded_step throws ev w w' :
  Inv w → Bounded w → step throws ev w = Some w' → Bounded w'.
Proof.
  intros HI HB. destruct ev; cbn [step].
  - intros [= <-]. by apply Bounded_connect.
  - intros [= <-]. by apply Bounded_send.
  - intros [= <-]. by eapply Bounded_mono.
  - intros [= <-]. by eapply Bounded_mono.
  - intros [= <-]. destruct HB as [Ha Ht]. split.
    + unfold disconnect; cbn. lia.
    + intros r p. unfold disconnect; cbn. by rewrite lookup_empty.
  - destruct (sockets w !! i) as [[[] p tx]|]; try done.
    intros [= <-]. apply Bounded_onopen. by eapply Bounded_mono.
  - destruct (sockets w !! i) as [[[] p tx]|]; try done;
      intros [= <-]; by apply Bounded_handleMessage.
  - destruct (sockets w !! i) as [[[] p tx]|]; try done;
      intros [= <-]; by eapply Bounded_mono.
  - destruct (sockets w !! i) as [[[] p tx]|]; try done; intros [= <-];
      apply Bounded_reconnect; by eapply Bounded_mono.
  - destruct (timers w !! k) as [[d cb]|] eqn:Hk; [|done]. intros [= <-].
    destruct HB as [Ha Ht].
    destruct cb as [r p|p|]; cbn [run_timer].
    + unfold requestTimeout. change (this (set_timers _ w)) with (this w).
      destruct (pendingRequests (this w) !! r) as [q|] eqn:Hr.
      * split; [done|]. intros r' p'. cbn. rewrite lookup_delete_Some.
        intros [Hne Hr']. eapply elem_of_delete_other; [done|by apply Ht|congruence].
      * split; [done|]. intros r' p' Hr'. cbn.
        eapply elem_of_delete_other; [done|by apply Ht|].
        intros [= _ -> _]. cbn in Hr'. congruence.
    + assert (HD : Bounded (set_timers (delete k (timers w)) w)).
      { split; [done|]. intros r' p' Hr'. cbn.
        eapply elem_of_delete_other; [done|by apply Ht|done]. }
      unfold connectionTimeout. destruct (isConnecting _); [|done].
      by eapply Bounded_mono.
    + apply Bounded_connect. split; [done|]. intros r' p' Hr'. cbn.
      eapply elem_of_delete_other; [done|by apply Ht|done].
Qed.

Lemma Bounded_init : Bounded init.
Proof.
  split; [cbn; unfold maxReconnectAttempts; lia|]. intros r p. cbn.
  by rewrite lookup_empty.
Qed.

Lemma Bounded_run throws evs : ∀ w, run throws evs init = Some w → Bounded w.
Proof.
  induction evs as [|ev evs IH] using rev_ind; intros w.
  - intros [= <-]. apply Bounded_init.
  - intros (w1 & H1 & Hs)%run_snoc.
    eapply Bounded_step; [by eapply Inv_run|by apply IH|done].
Qed.

Lemma known_connect throws w :
  Forall known_delay (timers w) → Forall known_delay (timers (snd (connect throws w))).
Proof.
  intros H. destruct (connect_cases throws w) as [->|[Hc Hi]]; [done|].
  destruct throws as [e|]; [by rewrite connect_throws|].
  rewrite connect_fresh by done. cbn. apply Forall_app. split; [done|].
  by apply Forall_singleton.
Qed.

Lemma known_await_response r w :
  Forall known_delay (timers w) → Forall known_delay (timers (snd (await_response r w))).
Proof.
  intros H. cbn. apply Forall_app. split; [done|]. by apply Forall_singleton.
Qed.

Lemma known_send throws st idNow rand now ty pl w :
  Forall known_delay (timers w) →
  Forall known_delay (timers (snd (send throws st idNow rand now ty pl w))).
Proof.
  intros H. unfold send.
  destruct (if isConnected w then ws (this w) else None) as [i|].
  - destruct (ws_send st i _ w) as [e|w'] eqn:Hsend; [done|].
    destruct (ws_send_frame _ _ _ _ _ Hsend) as (_ & _ & Etm).
    pose proof (known_await_response (generateRequestId idNow rand) w') as G.
    destruct (await_response _ w'). apply G. by rewrite Etm.
  - set (w1 := snd (connect throws _)).
    pose proof (known_await_response (generateRequestId idNow rand) w1) as G.
    destruct (await_response _ w1). apply G.
    by apply (known_connect throws (on_this _ w)).
Qed.

Lemma known_reconnect w :
  (reconnectAttempts (this w) ≤ maxReconnectAttempts)%nat →
  Forall known_delay (timers w) → Forall known_delay (timers (reconnect w)).
Proof.
  intros Ha H. unfold reconnect, maxReconnectAttempts, reconnectDelay in *.
  destruct (Nat.leb_spec 5 (reconnectAttempts (this w))) as [|Hlt]; [done|].
  cbn. apply Forall_app. split; [done|]. apply Forall_singleton.
  unfold known_delay; cbn.
  destruct (reconnectAttempts (this w)) as [|[|[|[|[|n]]]]]; [set_solver..|lia].
Qed.

Lemma known_step throws ev w w' :
  Bounded w → Forall known_delay (timers w) →
  step throws ev w = Some w' → Forall known_delay (timers w').
Proof.
  intros HB H. destruct ev; cbn [step].
  - intros [= <-]. by apply known_connect.
  - intros [= <-]. by apply known_send.
  - by intros [= <-].
  - by intros [= <-].
  - intros [= <-]. unfold disconnect. by destruct (ws (this w)).
  - destruct (sockets w !! i) as [[[] p tx]|]; try done.
    intros [= <-]. unfold onopen; cbn.
    by rewrite (proj1 (proj2 (flushMessageQueue_frame _ _))).
  - destruct (sockets w !! i) as [[[] p tx]|]; try done;
      intros [= <-]; by rewrite (proj1 (handleMessage_footprint _ _ _)).
  - destruct (sockets w !! i) as [[[] p tx]|]; try done; by intros [= <-].
  - destruct (sockets w !! i) as [[[] p tx]|]; try done; intros [= <-];
      apply known_reconnect; try done; apply HB.
  - destruct (timers w !! k) as [[d cb]|] eqn:Hk; [|done]. intros [= <-].
    assert (HD : Forall known_delay (delete k (timers w))) by (by apply Forall_delete).
    destruct cb as [r p|p|]; cbn [run_timer].
    + unfold requestTimeout. by destruct (pendingRequests _ !! r).
    + unfold connectionTimeout. by destruct (isConnecting _).
    + by apply (known_connect throws (set_timers _ w)).
Qed.

(** X7. However many closures and failed attempts occur, the client
    never counts more than five reconnect attempts, and every timer that
    is set waits 10 s (a request), 5 s (a connection attempt) or one of
    1, 2, 4, 8, 16 s (a reconnection). *)
Theorem attempts_and_delays_bounded throws evs w :
  run throws evs init = Some w →
  (reconnectAttempts (this w) ≤ 5)%nat
  ∧ ∀ t, t ∈ timers w → known_delay t.
Proof.
  intros Hrun. split; [by apply (bounded_attempts _ (Bounded_run _ _ _ Hrun))|].
  apply Forall_forall. revert w Hrun.
  induction evs as [|ev evs IH] using rev_ind; intros w.
  - intros [= <-]. constructor.
  - intros (w1 & H1 & Hs)%run_snoc.
    eapply known_step; [by eapply Bounded_run|by apply IH|done].
Qed.

Lemma attempts_and_delays_bounded_witness :
  ∃ w, run None six_closures init = Some w ∧ (reconnectAttempts (this w) ≤ 5)%nat.
Proof.
  eexists. split; [vm_compute; reflexivity|].
  match goal with
  | |- (reconnectAttempts (this ?w) ≤ _)%nat =>
      assert (Hrun : run None six_closures init = Some w) by (vm_compute; reflexivity)
  end.
  exact (proj1 (attempts_and_delays_bounded None six_closures _ Hrun)).
Defined.

(** X8. No entry outlives its deadline: in every page the event loop
    reaches, each entry of the table of pending requests refers to a
    pending future of the request it is keyed by, and the 10 s timer of
    that request is still set. *)
Theorem pending_entries_are_timed throws evs w r p :
  run throws evs init = Some w →
  pendingRequests (this w) !! r = Some p →
  promises w !! p = Some (mkPromise (OfRequest r) Pending)
  ∧ (10000, RequestTimeout r p) ∈ timers w.
Proof.
  intros Hrun Hr. split.
  - by apply (inv_pending _ (Inv_run _ _ _ Hrun)).
  - by apply (bounded_timed _ (Bounded_run _ _ _ Hrun)).
Qed.

Lemma pending_entries_are_timed_witness :
  ∃ w, run None unanswered init = Some w
    ∧ (10000, RequestTimeout "17-aaaaaaaaa" 1) ∈ timers w.
Proof.
  eexists. split; [vm_compute; reflexivity|].
  match goal with
  | |- _ ∈ timers ?w =>
      assert (Hrun : run None unanswered init = Some w) by (vm_compute; reflexivity);
      assert (Hr : pendingRequests (this w) !! "17-aaaaaaaaa" = Some 1%nat)
        by (vm_compute; reflexivity)
  end.
  exact (proj2 (pending_entries_are_timed None unanswered _ "17-aaaaaaaaa" 1 Hrun Hr)).
Defined.


(** *** Request ids *)

Lemma dashfree_pretty_N_go x : ∀ s, dashfree s → dashfree (pretty_N_go x s).
Proof.
  induction (N.lt_wf_0 x) as [x _ IH]; intros s Hs.
  assert (x = 0 ∨ 0 < x)%N as [-> | Hpos] by lia.
  - by rewrite pretty_N_go_0.
  - rewrite pretty_N_go_step by done. apply IH; [by apply N.div_lt|].
    split; [|done]. unfold pretty_N_char. by repeat case_match.
Qed.

Lemma dashfree_pretty (n : Z) : (0 ≤ n)%Z → dashfree (pretty n).
Proof.
  intros Hn. destruct n as [|x|x]; [by split | | lia].
  unfold pretty, pretty_Z, pretty, pretty_positive, pretty, pretty_N.
  case_decide; [done|]. by apply dashfree_pretty_N_go.
Qed.

Lemma split_at_dash s1 : ∀ s2 r1 r2,
  dashfree s1 → dashfree s2 →
  s1 +:+ "-" +:+ r1 = s2 +:+ "-" +:+ r2 → s1 = s2 ∧ r1 = r2.
Proof.
  induction s1 as [|c s1 IH]; intros [|c' s2] r1 r2 H1 H2.
  - intros [= E]. split; [done | exact E].
  - destruct H2 as [Hc _]. intros [= <- _]. by destruct Hc.
  - destruct H1 as [Hc _]. intros [= -> _]. by destruct Hc.
  - destruct H1 as [_ H1], H2 as [_ H2]. intros [= -> E].
    by destruct (IH _ _ _ H1 H2 E) as [-> ->].
Qed.

(** X9. Two calls of [generateRequestId()] give the same id only if they
    read the same clock value and drew the same random digits. *)
Theorem request_ids_distinct now1 rand1 now2 rand2 :
  (0 ≤ now1)%Z → (0 ≤ now2)%Z →
  generateRequestId now1 rand1 = generateRequestId now2 rand2 →
  now1 = now2 ∧ rand1 = rand2.
Proof.
  intros H1 H2 E. unfold generateRequestId in E.
  apply split_at_dash in E as [E ->]; [|by apply dashfree_pretty..].
  split; [|done]. by apply (inj pretty).
Qed.

Lemma request_ids_distinct_witness :
  generateRequestId 1700000000000 "k3j9x0a1b" ≠ generateRequestId 1700000000000 "k3j9x0a1c".
Proof.
  intros E.
  destruct (request_ids_distinct 1700000000000 "k3j9x0a1b" 1700000000000 "k3j9x0a1c"
              ltac:(lia) ltac:(lia) E) as [_ Hr].
  discriminate Hr.
Defined.

End ClientMore.


(** ** Server: every frame is answered *)

Module ServerMore.
Import Server ServerSpec ServerSpec2 Wire ServerProps.

(** X10. Whatever frame arrives, the listener sends exactly one envelope
    on the connection, stamped with the current time and independent of
    what was sent before.  For a frame that reaches the [try] of
    [routeMessage] its [requestId] is the one the message carries, and
    it is a [component-selected] response with the status of the handler
    when the [type] is one of the four strings the server handles, an
    [error] that names the type otherwise.  For every other frame it is
    an [error] whose [requestId] is the literal [unknown]. *)
Theorem one_envelope_per_frame now st data :
  ∃ m, (∀ c, sent (on_message now st data c) = sent c ++ [m])
       ∧ timestamp m = now
       ∧ match routed st data with
         | Some (ty, rid, kind) =>
             requestId m = rid
             ∧ ((∃ k, ty = JStr k ∧ handled k = true
                      ∧ type m = "component-selected"
                      ∧ payload m = JObj [("status", JStr (status_of k))])
                ∨ ((∀ k, ty = JStr k → handled k = false)
                   ∧ type m = "error"
                   ∧ payload m = JObj [("message",
                                         JStr ("Unknown message type: " +:+ kind));
                                        ("stack", JStr st)]))
         | None => type m = "error" ∧ requestId m = JStr "unknown"
         end.
Proof.
  unfold on_message, routed. destruct data as [e|message]; cbn [JSON_parse].
  { eexists. split; [intros c; reflexivity|]. by cbn. }
  unfold routeMessage.
  destruct (get_prop st message "type") as [e|ty] eqn:Hty.
  { eexists. split; [intros c; reflexivity|]. by cbn. }
  destruct (get_prop st message "payload") as [e|pl] eqn:Hpl.
  { by destruct message. }
  destruct (get_prop st message "requestId") as [e|rid] eqn:Hrid.
  { by destruct message. }
  destruct (ToString st ty) as [e|kind] eqn:Hk.
  { eexists. split; [intros c; reflexivity|]. by cbn. }
  unfold dispatch.
  assert (Hother : (∀ k, ty = JStr k → handled k = false) →
            is_str ty "component-selected" = false
            ∧ is_str ty "open-editor" = false
            ∧ is_str ty "generate-testids" = false
            ∧ is_str ty "insert-code" = false).
  { intros Hno. destruct ty as [| | | | |k| |]; try done.
    specialize (Hno k eq_refl). apply bool_decide_eq_false in Hno.
    rewrite !elem_of_cons, elem_of_nil in Hno. rewrite !is_str_JStr.
    repeat split; apply String.eqb_neq; tauto. }
  assert (Hcases : (∃ k, ty = JStr k ∧ kind = k ∧ handled k = true)
                   ∨ (∀ k, ty = JStr k → handled k = false)).
  { destruct ty as [| | | | |k| |]; try (right; by intros ?).
    destruct (handled k) eqn:Hh; [left | right; by intros ? [= <-]].
    exists k. cbn in Hk. by injection Hk as ->. }
  destruct Hcases as [(k & -> & -> & Hh) | Hno].
  - rewrite !is_str_JStr. apply bool_decide_eq_true in Hh.
    rewrite !elem_of_cons, elem_of_nil in Hh.
    destruct Hh as [-> | [-> | [-> | [-> | []]]]];
      (eexists; split; [intros c; reflexivity|]; cbn;
       split; [done|]; split; [done|]; left; eexists; by repeat split).
  - destruct (Hother Hno) as (-> & -> & -> & ->).
    eexists. split; [intros c; reflexivity|]. cbn.
    split; [done|]. split; [done|]. right. by repeat split.
Qed.

End ServerMore.

(** ** Client and server together *)

Module EndToEnd.
Import Server ServerSpec ServerProps Client ClientSpec ClientProps Wire.

Lemma handled_cases ty :
  handled ty = true →
  ty = "component-selected" ∨ ty = "open-editor" ∨ ty = "generate-testids" ∨ ty = "insert-code".
Proof.
  unfold handled. intros H%bool_decide_eq_true.
  rewrite !elem_of_cons, elem_of_nil in H. tauto.
Qed.

Lemma unhandled_cases ty :
  handled ty = false →
  ty ≠ "component-selected" ∧ ty ≠ "open-editor" ∧ ty ≠ "generate-testids" ∧ ty ≠ "insert-code".
Proof.
  unfold handled. intros H%bool_decide_eq_false.
  rewrite !elem_of_cons, elem_of_nil in H. tauto.
Qed.

(** The receiver reads the [type] and the [requestId] the sender
    wrote. *)
Lemma frame_of_message_props m rid :
  requestId m = JStr rid →
  ∃ fields, frame_of_message m = Json (JObj fields)
            ∧ own fields "type" = Some (JStr (type m))
            ∧ own fields "requestId" = Some (JStr rid)
            ∧ own fields "payload"
              = match payload m with JUndefined => None | x => Some (json x) end.
Proof.
  intros Hrid. unfold frame_of_message. rewrite Hrid.
  destruct (payload m); eexists; (split; [reflexivity|]); by cbn.
Qed.

(** What the server answers to a request of a client. *)
Lemma server_answers now st m rid c :
  requestId m = JStr rid →
  sent (on_message now st (frame_of_message m) c) =
    sent c ++ [if handled (type m)
               then response_envelope now (JStr rid) (status_of (type m))
               else error_envelope now (JStr rid) ("Unknown message type: " +:+ type m) st].
Proof.
  intros Hrid.
  destruct (frame_of_message_props m rid Hrid) as (fields & -> & Hty & Hr & _).
  unfold on_message; cbn [JSON_parse].
  rewrite (routeMessage_object _ _ _ _ _ Hty); cbn zeta. rewrite Hr. cbn [default].
  unfold dispatch. rewrite !is_str_JStr.
  destruct (handled (type m)) eqn:Hh.
  - destruct (handled_cases _ Hh) as [-> | [-> | [-> | ->]]]; reflexivity.
  - destruct (unhandled_cases _ Hh) as (H1 & H2 & H3 & H4).
    by rewrite !eqb_neq by done.
Qed.

(** What [send()] does on a connected client with a message that
    serialises. *)
Lemma send_connected_registers throws st idNow rand now ty pl w :
  isConnected w = true →
  serialises (envelope idNow rand now ty pl) = true →
  let rid := generateRequestId idNow rand in
  let w1 := snd (send throws st idNow rand now ty pl w) in
  fst (send throws st idNow rand now ty pl w) = inr (length (promises w))
  ∧ pendingRequests (this w1) !! rid = Some (length (promises w))
  ∧ ∃ i, ws (this w) = Some i
         ∧ transmitted_on i w1 = transmitted_on i w ++ [envelope idNow rand now ty pl].
Proof.
  intros Hc Hser. destruct (isConnected_Some w Hc) as (i & s & Hws & Hs & Hr).
  cbn zeta. unfold send. rewrite Hc, Hws.
  fold (envelope idNow rand now ty pl).
  rewrite (ws_send_open _ _ _ _ _ Hs Hr), Hser. cbn.
  rewrite lookup_insert_eq. split; [done|]. split; [done|].
  exists i. split; [done|]. unfold transmitted_on; cbn. rewrite Hs. cbn.
  rewrite list_lookup_insert_eq by (by eapply lookup_lt_Some). done.
Qed.

(** X11. A request makes the round trip.  A connected client sends a
    message that serialises; the server handles the frame; the client
    handles the frame of the answer.  Then the entry of the request is
    gone and the future [send()] returned is settled: fulfilled with the
    status payload of the handler when the kind is one of the four the
    server handles, rejected with [Unknown message type: <kind>]
    otherwise. *)
Theorem request_round_trip throws evs w st idNow rand now ty pl now' st' c :
  run throws evs init = Some w →
  isConnected w = true →
  serialises (envelope idNow rand now ty pl) = true →
  let rid := generateRequestId idNow rand in
  ∃ p w1 response,
    send throws st idNow rand now ty pl w = (inr p, w1)
    ∧ sent (on_message now' st' (frame_of_message (envelope idNow rand now ty pl)) c)
      = sent c ++ [response]
    ∧ requestId response = JStr rid
    ∧ pendingRequests (this (handleMessage st (frame_of_message response) w1)) !! rid = None
    ∧ promises (handleMessage st (frame_of_message response) w1) !! p
      = Some (mkPromise (OfRequest rid)
                (if handled ty
                 then Fulfilled (JObj [("status", JStr (status_of ty))])
                 else Rejected (new_Error ("Unknown message type: " +:+ ty) st))).
Proof.
  intros Hrun Hc Hser rid.
  pose proof (Inv_send throws st idNow rand now ty pl w (Inv_run _ _ _ Hrun)) as HI1.
  destruct (send_connected_registers throws st idNow rand now ty pl w Hc Hser)
    as (Hp & Hr & _).
  destruct (send throws st idNow rand now ty pl w) as [res w1] eqn:Hsend.
  cbn [fst snd] in *. subst res.
  eexists _, w1, _. split; [reflexivity|].
  split; [by apply server_answers|]. cbn [type envelope].
  set (response := if handled ty then _ else _).
  assert (Hrid : requestId response = JStr rid) by (unfold response; by destruct (handled ty)).
  split; [done|].
  destruct (frame_of_message_props response rid Hrid) as (fields & E & Hty & Hr' & Hpl).
  rewrite E.
  destruct (handleMessage_own st (JObj fields) rid (length (promises w))
              (JStr (type response)) (default JUndefined (own fields "payload")) w1 HI1 Hr)
    as (Hgone & Hok & Herr); [by cbn; rewrite ?Hr', ?Hty..|].
  split; [done|]. unfold response in *. destruct (handled ty).
  - rewrite Hok by done. by rewrite Hpl.
  - erewrite Herr; [done|done|by rewrite Hpl|]. cbn.
    by destruct ty.
Qed.

Lemma request_round_trip_witness :
  ∃ w, run None [CallConnect; SocketOpen "" 0] init = Some w
    ∧ ∃ p w1 response,
        send None "" 17 "aaaaaaaaa" 17 "open-editor" JNull w = (inr p, w1)
        ∧ requestId response = JStr (generateRequestId 17 "aaaaaaaaa")
        ∧ promises (handleMessage "" (frame_of_message response) w1) !! p
          = Some (mkPromise (OfRequest (generateRequestId 17 "aaaaaaaaa"))
                    (Fulfilled (JObj [("status", JStr "pending")]))).
Proof.
  eexists. split; [vm_compute; reflexivity|].
  match goal with
  | |- ∃ p w1 response, send _ _ _ _ _ _ _ ?w = _ ∧ _ =>
      assert (Hrun : run None [CallConnect; SocketOpen "" 0] init = Some w)
        by (vm_compute; reflexivity);
      assert (Hc : isConnected w = true) by (vm_compute; reflexivity)
  end.
  destruct (request_round_trip None _ _ "" 17 "aaaaaaaaa" 17 "open-editor" JNull 18 ""
              (mkConn [] []) Hrun Hc eq_refl)
    as (p & w1 & response & Hs & _ & Hrid & _ & Hp).
  exists p, w1, response. split; [exact Hs|]. split; [exact Hrid|]. exact Hp.
Defined.

End EndToEnd.


(** ** Configuration *)

Module ConfigProps.
Import Cli Config.

Lemma blank_false s : blank s = false ↔ s ≠ "".
Proof. unfold blank. apply String.eqb_neq. Qed.

Lemma blank_true s : blank s = true ↔ s = "".
Proof. unfold blank. apply String.eqb_eq. Qed.

Lemma missing_false s : missing s = false ↔ ∃ x, s = Some x ∧ x ≠ "".
Proof.
  destruct s as [x|]; cbn.
  - rewrite blank_false. split; [eauto | by intros (? & [= <-] & ?)].
  - split; [done | by intros (? & ? & ?)].
Qed.

(** [validate] accepts exactly the configurations that are [valid]. *)
Lemma validate_accepts st c : validate st c = None ↔ valid c.
Proof.
  unfold validate, valid.
  destruct (blank (editor_command c)) eqn:Hcmd.
  { apply blank_true in Hcmd. split; [done | by intros [? _]]. }
  apply blank_false in Hcmd.
  destruct (Z.eqb_spec (server_port c) 0) as [H0|H0]; cbn [orb].
  { split; [done | intros (_ & ? & _); lia]. }
  destruct (Z.ltb_spec (server_port c) 1024) as [Hlo|Hlo]; cbn [orb].
  { split; [done | intros (_ & ? & _); lia]. }
  destruct (Z.ltb_spec 65535 (server_port c)) as [Hhi|Hhi].
  { split; [done | intros (_ & ? & _); lia]. }
  destruct (blank (server_host c)) eqn:Hhost.
  { apply blank_true in Hhost. split; [done | by intros (_ & _ & ? & _)]. }
  apply blank_false in Hhost.
  destruct (String.eqb_spec (testId_convention c) "custom") as [Hconv|Hconv];
    cbn [andb].
  - destruct (missing (testId_customPattern c)) eqn:Hpat.
    { split; [done|]. intros (_ & _ & _ & Hp & _).
      apply missing_false in Hp; [congruence | done]. }
    apply missing_false in Hpat.
    destruct (ai_enabled c) eqn:Hai; cbn [andb].
    + destruct (String.eqb_spec (ai_provider c) "cursor-native") as [Hprov|Hprov];
        cbn [negb andb].
      * split; [|done]. intros _. repeat split; try done; lia.
      * destruct (missing (ai_apiKey c)) eqn:Hkey.
        { split; [done|]. intros (_ & _ & _ & _ & Hk).
          apply missing_false in Hk; [congruence | done | done]. }
        apply missing_false in Hkey. split; [|done]. intros _.
        repeat split; try done; lia.
    + split; [|done]. intros _. repeat split; try done; lia.
  - destruct (ai_enabled c) eqn:Hai; cbn [andb].
    + destruct (String.eqb_spec (ai_provider c) "cursor-native") as [Hprov|Hprov];
        cbn [negb andb].
      * split; [|done]. intros _. repeat split; try done; lia.
      * destruct (missing (ai_apiKey c)) eqn:Hkey.
        { split; [done|]. intros (_ & _ & _ & _ & Hk).
          apply missing_false in Hk; [congruence | done | done]. }
        apply missing_false in Hkey. split; [|done]. intros _.
        repeat split; try done; lia.
    + split; [|done]. intros _. repeat split; try done; lia.
Qed.


Lemma defaults_valid : valid getDefaults.
Proof.
  unfold valid; cbn. repeat split; try done; try lia.
Qed.

Lemma load_valid st imported projectRoot os config held :
  load st imported projectRoot os = (inr config, held) → valid config.
Proof.
  unfold load. set (c := match files os !! _ with Some _ => _ | None => _ end).
  destruct (validate st c) eqn:Hv; [done|]. intros [= <- _].
  by apply (validate_accepts st).
Qed.

Lemma load_without_file st imported projectRoot os :
  files os !! path_join projectRoot "telescope.config.js" = None →
  load st imported projectRoot os = (inr getDefaults, getDefaults).
Proof.
  intros Hnone. unfold load. rewrite Hnone.
  by rewrite (proj2 (validate_accepts st getDefaults) defaults_valid).
Qed.

(** X12. [load()] returns only configurations with a non-empty editor
    command, a port from 1024 to 65535, a non-empty host, a custom
    pattern when the convention is [custom], and an API key when AI is
    enabled with a provider other than [cursor-native]; the manager then
    holds the configuration returned.  When [load()] throws, the
    configuration it assembled lacks one of these, and the manager holds
    it all the same. *)
Theorem load_returns_valid st imported projectRoot os :
  match load st imported projectRoot os with
  | (inr config, held) => valid config ∧ held = config
  | (inl error, held) => ¬ valid held ∧ validate st held = Some error
  end.
Proof.
  unfold load. set (config := match files os !! _ with Some _ => _ | None => _ end).
  destruct (validate st config) as [error|] eqn:Hv.
  - split; [|done]. intros Hvalid%(validate_accepts st). congruence.
  - split; [|done]. by apply (validate_accepts st).
Qed.

(** X13. Without a configuration file, or with one whose import fails,
    [load()] returns the defaults and does not throw. *)
Theorem load_falls_back_to_defaults st imported projectRoot os :
  files os !! path_join projectRoot "telescope.config.js" = None
  ∨ (∃ e, imported = inl e) →
  load st imported projectRoot os = (inr getDefaults, getDefaults).
Proof.
  intros H. unfold load.
  assert (E : match files os !! path_join projectRoot "telescope.config.js" with
              | Some _ => match imported with
                          | inr userConfig => merge userConfig
                          | inl _ => getDefaults
                          end
              | None => getDefaults
              end = getDefaults).
  { destruct H as [-> | [e ->]]; [done|]. by destruct (files os !! _). }
  rewrite E. by rewrite (proj2 (validate_accepts st getDefaults) defaults_valid).
Qed.

Lemma load_falls_back_to_defaults_witness :
  load "" (inl (mkError "SyntaxError" "Unexpected token" "")) "/app"
    (mkOS {[ "/app/telescope.config.js" := "export default {" ]} ∅ ∅ ∅)
  = (inr getDefaults, getDefaults).
Proof.
  apply load_falls_back_to_defaults. right. by eexists.
Defined.

(** X14. [merge] lets the file win property by property: a file that
    sets every property is returned as it is, a file that sets none
    gives the defaults, and a file that sets only [server.port] keeps
    the default host. *)
Theorem merge_user_wins c u p :
  merge (as_user c) = c
  ∧ merge empty_user = getDefaults
  ∧ (u_server u = Some (mkUserServer (Some p) None) →
     server_port (merge u) = p ∧ server_host (merge u) = "localhost").
Proof.
  split; [|split].
  - destruct c. unfold merge, as_user, spread, spread_optional; cbn.
    f_equal; by destruct_all (option string).
  - reflexivity.
  - intros Hs. unfold merge, spread; cbn. by rewrite Hs.
Qed.

Lemma merge_user_wins_witness :
  server_port (merge (mkUserConfig None None None None
                        (Some (mkUserServer (Some 4000) None)))) = 4000
  ∧ server_host (merge (mkUserConfig None None None None
                          (Some (mkUserServer (Some 4000) None)))) = "localhost".
Proof.
  exact (proj2 (proj2 (merge_user_wins getDefaults
                         (mkUserConfig None None None None
                            (Some (mkUserServer (Some 4000) None))) 4000)) eq_refl).
Defined.

(** X15. [start] never listens on a port outside 1024..65535: when it
    serves, the address it bound has a non-empty host and such a port,
    and it is [localhost:3737] when the directory has no configuration
    file. *)
Theorem start_binds_valid_port st pid imported cwd os server onSignal os' :
  start st pid imported cwd os = (Serving server onSignal, os') →
  ∃ address,
    onSignal = Cleanup (path_join cwd ".hubble.pid") address
    ∧ listening os' !! address = Some pid
    ∧ address.1 ≠ ""
    ∧ (1024 ≤ address.2 ≤ 65535)%Z
    ∧ (files os !! path_join cwd "telescope.config.js" = None →
       address = ("localhost", 3737)).
Proof.
  unfold start. pose proof (load_valid st imported cwd os) as Hload.
  pose proof (load_without_file st imported cwd os) as Hdef.
  destruct (load st imported cwd os) as [[e|config] held]; cbn [fst].
  { by cbn. }
  destruct (Hload config held eq_refl) as (_ & Hport & Hhost & _).
  unfold startCommand, server_start.
  destruct (listening os !! (host (server_of config), port (server_of config)));
    [done|]. unfold writeFileSync. cbn.
  destruct (decide _); [done|]. intros [= <- <- <-].
  eexists. split; [reflexivity|]. cbn. rewrite lookup_insert_eq.
  repeat split; try done; try lia.
  intros Hnone. by injection (Hdef Hnone) as ->.
Qed.

Lemma start_binds_valid_port_witness :
  ∃ address,
    listening (snd (start "" 5000 (inr empty_user) "/app" (mkOS ∅ ∅ ∅ ∅))) !! address
    = Some 5000
    ∧ address = ("localhost", 3737).
Proof.
  destruct (start_binds_valid_port "" 5000 (inr empty_user) "/app" (mkOS ∅ ∅ ∅ ∅)
              5000 (Cleanup "/app/.hubble.pid" ("localhost", 3737))
              (snd (start "" 5000 (inr empty_user) "/app" (mkOS ∅ ∅ ∅ ∅))))
    as (address & _ & Hl & _ & _ & Ha).
  { vm_compute. reflexivity. }
  exists address. split; [exact Hl|]. apply Ha. vm_compute. reflexivity.
Defined.

End ConfigProps.


(** ** CLI: the Liveness Record between commands *)

Module SupervisorProps.
Import Cli Config Supervisor.

(** *** Reading back a process id *)

Lemma find_no_token (tokens : list (list nat)) c l :
  Forall (λ t, ∃ h r, t = h :: r ∧ h ≠ c) tokens →
  find (λ t, bool_decide (t `prefix_of` c :: l)) tokens = None.
Proof.
  induction 1 as [|t tokens (h & r & -> & Hne) _ IH]; [done|]. cbn.
  rewrite bool_decide_eq_false_2; [done|].
  intros [k Hk]. by injection Hk.
Qed.

Lemma strip_solid_front fuel c l : solid c → strip white_space fuel (c :: l) = c :: l.
Proof.
  intros Hc. destruct fuel as [|fuel]; [done|]. cbn [strip].
  rewrite find_no_token; [done|].
  unfold white_space. repeat constructor; eexists _, _; (split; [reflexivity|]);
    destruct Hc; lia.
Qed.

Lemma strip_solid_back fuel c l :
  solid c → strip (reverse <$> white_space) fuel (c :: l) = c :: l.
Proof.
  intros Hc. destruct fuel as [|fuel]; [done|]. cbn [strip].
  rewrite find_no_token; [done|].
  unfold white_space. cbn. repeat constructor; eexists _, _; (split; [reflexivity|]);
    destruct Hc; lia.
Qed.

Lemma trimEnd_solid l d : solid d → trimEnd (l ++ [d]) = l ++ [d].
Proof.
  intros Hd. unfold trimEnd. rewrite reverse_app, reverse_singleton. cbn [app].
  rewrite strip_solid_back by done. by rewrite reverse_cons, reverse_involutive.
Qed.

Lemma trim_solid c l l' d :
  solid c → solid d → c :: l = l' ++ [d] → trim (c :: l) = c :: l.
Proof.
  intros Hc Hd E. unfold trim, trimStart. rewrite strip_solid_front by done.
  rewrite E. by apply trimEnd_solid.
Qed.

Lemma codes_String c s : codes (String c s) = Ascii.nat_of_ascii c :: codes s.
Proof. reflexivity. Qed.

Lemma code_pretty_N_char (d : N) :
  (d < 10)%N → Ascii.nat_of_ascii (pretty_N_char d) = (48 + N.to_nat d)%nat.
Proof.
  intros Hd.
  assert (d = 0 ∨ d = 1 ∨ d = 2 ∨ d = 3 ∨ d = 4 ∨ d = 5 ∨ d = 6 ∨ d = 7 ∨ d = 8 ∨ d = 9)%N
    as Hcases by lia.
  repeat (destruct Hcases as [-> | Hcases]; [reflexivity|]). by subst.
Qed.

(** The digits [pretty] writes for [x], most significant first. *)
Lemma pretty_N_go_codes x : ∀ s,
  ∃ ds, codes (pretty_N_go x s) = ds ++ codes s
        ∧ Forall (λ c, is_digit c = true) ds
        ∧ (∀ acc, fold_left read ds acc
                  = (acc * 10 ^ Z.of_nat (length ds) + Z.of_N x)%Z)
        ∧ ((0 < x)%N → ∃ ds' d, ds = ds' ++ [d]).
Proof.
  induction (N.lt_wf_0 x) as [x _ IH]; intros s.
  assert (x = 0 ∨ 0 < x)%N as [-> | Hpos] by lia.
  { exists []. rewrite pretty_N_go_0. repeat split; [done|intros; cbn; lia|lia]. }
  rewrite pretty_N_go_step by done.
  pose proof (N.div_mod x 10 ltac:(lia)) as Hx.
  assert (Hm : (x `mod` 10 < 10)%N) by (by apply N.mod_lt).
  destruct (IH (x `div` 10)%N (N.div_lt x 10 Hpos eq_refl)
              (String (pretty_N_char (x `mod` 10)) s)) as (ds & E & Hd & Hval & _).
  revert Hx Hm E Hval. generalize (x `div` 10)%N (x `mod` 10)%N. intros q m Hx Hm E Hval.
  exists (ds ++ [(48 + N.to_nat m)%nat]).
  rewrite E, codes_String, code_pretty_N_char by done.
  split; [by rewrite <- app_assoc|]. split; [|split].
  - apply Forall_app. split; [done|]. apply Forall_singleton.
    unfold is_digit. apply andb_true_intro. split; apply Nat.leb_le; lia.
  - intros acc. rewrite fold_left_app, Hval, length_app. cbn. unfold read.
    rewrite Nat2Z.inj_add, Z.pow_add_r by lia. lia.
  - intros _. by eexists _, _.
Qed.

Lemma leading_digits_all ds :
  Forall (λ c, is_digit c = true) ds → leading_digits ds = ds.
Proof. induction 1 as [|c ds Hc _ IH]; [done|]. cbn. by rewrite Hc, IH. Qed.

Lemma is_digit_solid c : is_digit c = true → solid c ∧ (c =? 45)%nat = false ∧ (c =? 43)%nat = false.
Proof.
  unfold is_digit, solid. intros [H1%Nat.leb_le H2%Nat.leb_le]%andb_prop.
  repeat split; [lia | apply Nat.eqb_neq; lia..].
Qed.

(** The text [pretty] writes for a positive number. *)
Lemma pretty_positive_codes (p : positive) :
  ∃ c ds l' d, codes (pretty (Zpos p)) = c :: ds
    ∧ c :: ds = l' ++ [d]
    ∧ Forall (λ c, is_digit c = true) (c :: ds)
    ∧ is_digit d = true
    ∧ decimal (c :: ds) = Zpos p.
Proof.
  unfold pretty, pretty_Z, pretty, pretty_positive, pretty, pretty_N.
  case_decide; [done|].
  destruct (pretty_N_go_codes (Npos p) "") as (ds & E & Hd & Hval & Hne).
  destruct (Hne ltac:(lia)) as (ds' & d & ->).
  rewrite app_nil_r in E.
  assert (Hdd : is_digit d = true).
  { apply Forall_app in Hd as [_ Hd]. exact (Forall_inv Hd). }
  destruct ds' as [|c ds'].
  - exists d, [], [], d. rewrite E. repeat split; try done.
    unfold decimal. specialize (Hval 0%Z). cbn [app] in Hval. rewrite Hval. lia.
  - exists c, (ds' ++ [d]), (c :: ds'), d. rewrite E. repeat split; try done.
    unfold decimal. specialize (Hval 0%Z). cbn [app] in Hval. rewrite Hval. lia.
Qed.

Lemma parseInt_digits c ds :
  Forall (λ c, is_digit c = true) (c :: ds) → parseInt (c :: ds) = Some (decimal (c :: ds)).
Proof.
  intros Hd. pose proof (Forall_inv Hd) as Hc. cbn beta in Hc.
  destruct (is_digit_solid c Hc) as (Hs & H45 & H43).
  unfold parseInt, trimStart. rewrite strip_solid_front by done.
  rewrite H45, H43, leading_digits_all by done. done.
Qed.

Lemma parseInt_minus_digits c ds :
  Forall (λ c, is_digit c = true) (c :: ds) →
  parseInt (45%nat :: c :: ds) = Some (- decimal (c :: ds))%Z.
Proof.
  intros Hd. unfold parseInt, trimStart.
  rewrite strip_solid_front by (by left). cbn [Nat.eqb].
  rewrite leading_digits_all by done. done.
Qed.

(** What [parseInt(text.trim(), 10)] reads in the text that
    [pid.toString()] wrote. *)
Lemma parseInt_pretty (z : Z) : parseInt (trim (codes (pretty z))) = Some z.
Proof.
  destruct z as [|p|p].
  - vm_compute. reflexivity.
  - destruct (pretty_positive_codes p) as (c & ds & l' & d & E & El & Hd & Hdd & Hv).
    rewrite E.
    rewrite (trim_solid c ds l' d); [|by apply is_digit_solid, (Forall_inv Hd)
                                      |by apply is_digit_solid|done].
    by rewrite parseInt_digits, Hv.
  - destruct (pretty_positive_codes p) as (c & ds & l' & d & E & El & Hd & Hdd & Hv).
    change (pretty (Zneg p)) with ("-" +:+ pretty (Zpos p)).
    change (codes ("-" +:+ pretty (Z.pos p))) with (45%nat :: codes (pretty (Z.pos p))).
    rewrite E.
    rewrite (trim_solid 45 (c :: ds) (45%nat :: l') d);
      [|by left|by apply is_digit_solid|by rewrite El].
    rewrite parseInt_minus_digits, Hv by done. done.
Qed.

(** What a successful [start] leaves behind: the record holds the
    decimal text of its own process id; nothing else in the files, the
    permissions or the processes differs. *)
Lemma start_Serving_record st pid imported cwd os server onSignal os' :
  start st pid imported cwd os = (Serving server onSignal, os') →
  files os' = <[path_join cwd ".hubble.pid" := pretty pid]> (files os)
  ∧ readonly os' = readonly os
  ∧ alive os' = alive os.
Proof.
  unfold start, startCommand.
  destruct (fst (load st imported cwd os)) as [e|config]; [done|].
  unfold server_start. destruct (listening os !! _); [done|].
  unfold writeFileSync. cbn. destruct (decide _); [done|]. by intros [= <- <- <-].
Qed.

Lemma path_join_inj cwd a b : path_join cwd a = path_join cwd b → a = b.
Proof.
  unfold path_join. intros H%(inj (String.app cwd)). by injection H.
Qed.

Lemma unlinkSync_writable st path content os :
  path ∉ readonly os → files os !! path = Some content →
  unlinkSync st path os
  = inr (mkOS (delete path (files os)) (readonly os) (listening os) (alive os)).
Proof.
  intros Hw Hf. unfold unlinkSync. rewrite decide_False by done. by rewrite Hf.
Qed.

Lemma exists_process_true pid os : exists_process pid os = true ↔ pid ∈ alive os.
Proof. unfold exists_process. apply bool_decide_eq_true. Qed.


(** X16. [stop] after [start], run by another process than the one
    that serves and able to read the record: the record [start] wrote is
    read back as the id of the process that serves; that process, and no
    other, gets SIGTERM, and SIGKILL as well exactly when it still
    exists after the 1 s wait.  Unless the record cannot be removed,
    [stop] reports the server stopped and leaves no record. *)
Theorem stop_signals_started_process st ends_caller pid imported cwd os server onSignal
    os' later :
  (0 < pid < 2 ^ 53)%Z →
  start st pid imported cwd os = (Serving server onSignal, os') →
  pid ∈ alive os' →
  ends_caller pid = false →
  let r := stopCommand st None ends_caller later cwd os' in
  stop_signals r
  = (pid, SIGTERM) :: (if exists_process pid later then [(pid, SIGKILL)] else [])
  ∧ (path_join cwd ".hubble.pid" ∉ readonly later →
     stop_outcome r = inr (Stopped (exists_process pid later))
     ∧ files (stop_os r) !! path_join cwd ".hubble.pid" = None).
Proof.
  intros _ (Hf & _ & _)%start_Serving_record Halive Hother r. subst r.
  unfold stopCommand.
  rewrite Hf, lookup_insert_eq, parseInt_pretty.
  rewrite (proj2 (exists_process_true pid os') Halive), Hother. cbn [negb].
  destruct (files later !! path_join cwd ".hubble.pid") as [content|] eqn:Hl.
  - split.
    + unfold unlinkSync, stop_failed. rewrite Hl. unfold unlinkSync.
      destruct (decide _); by rewrite ?Hl.
    + intros Hw. rewrite (unlinkSync_writable _ _ content) by done. cbn.
      split; [done|]. apply lookup_delete_eq.
  - done.
Qed.

Lemma stop_signals_started_process_witness :
  ∃ r,
    stopCommand "" None (λ pid, Z.eqb pid 6000 || Z.eqb pid 0)
      (mkOS {[ "/app/.hubble.pid" := "5000" ]} ∅ ∅ {[ 5000%Z ]}) "/app"
      (snd (start "" 5000 (inr empty_user) "/app" (mkOS ∅ ∅ ∅ {[ 5000%Z ]}))) = r
    ∧ stop_signals r = [(5000%Z, SIGTERM); (5000%Z, SIGKILL)].
Proof.
  eexists. split; [reflexivity|].
  refine (proj1 (stop_signals_started_process "" (λ pid, Z.eqb pid 6000 || Z.eqb pid 0)
                   5000 (inr empty_user) "/app"
                   (mkOS ∅ ∅ ∅ {[ 5000%Z ]}) 5000
                   (Cleanup "/app/.hubble.pid" ("localhost", 3737%Z))
                   (snd (start "" 5000 (inr empty_user) "/app" (mkOS ∅ ∅ ∅ {[ 5000%Z ]})))
                   (mkOS {[ "/app/.hubble.pid" := "5000" ]} ∅ ∅ {[ 5000%Z ]})
                   _ _ _ _)).
  - lia.
  - vm_compute. reflexivity.
  - vm_compute. set_solver.
  - reflexivity.
Defined.

Lemma stop_failed_signals st path error signals os :
  stop_signals (stop_failed st path error signals os) = signals.
Proof.
  unfold stop_failed. destruct (files os !! path); [|done].
  by destruct (unlinkSync st path os).
Qed.


(** X17. The only number [stop] passes to [process.kill] is the one it
    parsed from the record, which it could read, and it sends a signal
    only after the probe [process.kill(pid, 0)] succeeded; SIGKILL goes
    only to a number whose probe succeeds again after the wait, when the
    SIGTERM did not end the command itself.  There is no guard on the
    number: whatever integer the record holds, positive, zero or
    negative, SIGTERM is sent to it once its probe succeeds, so a record
    0 or -1 makes [stop] signal a process group or every process. *)
Theorem stop_signals_only_recorded st read_throws ends_caller later cwd os :
  let r := stopCommand st read_throws ends_caller later cwd os in
  (∀ p s, (p, s) ∈ stop_signals r →
     read_throws = None
     ∧ ∃ content,
         files os !! path_join cwd ".hubble.pid" = Some content
         ∧ parseInt (trim (codes content)) = Some p
         ∧ p ∈ alive os
         ∧ (s = SIGKILL → p ∈ alive later ∧ ends_caller p = false))
  ∧ (∀ z : Z, files os !! path_join cwd ".hubble.pid" = Some (pretty z) →
       read_throws = None → z ∈ alive os → (z, SIGTERM) ∈ stop_signals r).
Proof.
  intros r. subst r. unfold stopCommand. split.
  - intros p s.
    destruct (files os !! path_join cwd ".hubble.pid") as [content|]; cbn;
      [|by intros ?%elem_of_nil].
    destruct read_throws as [error|];
      [rewrite stop_failed_signals; by intros ?%elem_of_nil|].
    destruct (parseInt (trim (codes content))) as [pid|] eqn:Hp.
    2: { destruct (unlinkSync st _ os); cbn; rewrite ?stop_failed_signals;
         by intros ?%elem_of_nil. }
    destruct (exists_process pid os) eqn:Ha; cbn [negb].
    2: { destruct (unlinkSync st _ os); cbn; rewrite ?stop_failed_signals;
         by intros ?%elem_of_nil. }
    apply exists_process_true in Ha.
    destruct (ends_caller pid) eqn:He.
    { cbn. intros [= -> ->]%list_elem_of_singleton. split; [done|].
      exists content. by repeat split. }
    assert (Hin : (p, s) ∈ (pid, SIGTERM)
                           :: (if exists_process pid later then [(pid, SIGKILL)] else []) →
                  @None Error = None
                  ∧ ∃ c, Some content = Some c ∧ parseInt (trim (codes c)) = Some p
                         ∧ p ∈ alive os
                         ∧ (s = SIGKILL → p ∈ alive later ∧ ends_caller p = false)).
    { intros [[= -> ->] | Hin]%elem_of_cons.
      - split; [done|]. exists content. by repeat split.
      - destruct (exists_process pid later) eqn:Hl; [|by apply elem_of_nil in Hin].
        apply list_elem_of_singleton in Hin as [= -> ->].
        apply exists_process_true in Hl. split; [done|]. exists content.
        by repeat split. }
    destruct (files later !! path_join cwd ".hubble.pid"); [|exact Hin].
    destruct (unlinkSync st _ later); cbn; rewrite ?stop_failed_signals; exact Hin.
  - intros z -> -> Ha. rewrite parseInt_pretty.
    rewrite (proj2 (exists_process_true z os) Ha). cbn [negb].
    destruct (ends_caller z); [apply list_elem_of_here|].
    destruct (files later !! path_join cwd ".hubble.pid");
      [|apply list_elem_of_here].
    destruct (unlinkSync st _ later); cbn; rewrite ?stop_failed_signals;
      apply list_elem_of_here.
Qed.

Lemma stop_signals_only_recorded_witness :
  (0%Z, SIGTERM)
  ∈ stop_signals
      (stopCommand "" None (λ pid, Z.eqb pid 6000 || Z.eqb pid 0)
         (mkOS {[ "/app/.hubble.pid" := "0" ]} ∅ ∅ {[ 0%Z; 6000%Z ]}) "/app"
         (mkOS {[ "/app/.hubble.pid" := "0" ]} ∅ ∅ {[ 0%Z; 6000%Z ]})).
Proof.
  refine (proj2 (stop_signals_only_recorded "" None (λ pid, Z.eqb pid 6000 || Z.eqb pid 0)
                   (mkOS {[ "/app/.hubble.pid" := "0" ]} ∅ ∅ {[ 0%Z; 6000%Z ]}) "/app"
                   (mkOS {[ "/app/.hubble.pid" := "0" ]} ∅ ∅ {[ 0%Z; 6000%Z ]}))
            0%Z _ _ _).
  - vm_compute. reflexivity.
  - reflexivity.
  - vm_compute. set_solver.
Defined.




(** X20. A record that is not a number: [status] reports it and keeps
    it, [stop] removes it; neither signals a process. *)
Theorem invalid_record_kept_by_status st opens imported ends_caller later cwd os content :
  files os !! path_join cwd ".hubble.pid" = Some content →
  parseInt (trim (codes content)) = None →
  path_join cwd ".hubble.pid" ∉ readonly os →
  statusCommand st opens imported cwd os = (inr InvalidPid, os)
  ∧ stopCommand st None ends_caller later cwd os
    = mkStopResult (inr InvalidPidFile) []
        (mkOS (delete (path_join cwd ".hubble.pid") (files os)) (readonly os)
           (listening os) (alive os)).
Proof.
  intros Hf Hp Hw. unfold statusCommand, stopCommand. rewrite Hf, Hp.
  by rewrite (unlinkSync_writable _ _ content).
Qed.

Lemma invalid_record_kept_by_status_witness :
  statusCommand "" (λ _, true) (inr empty_user) "/app"
    (mkOS {[ "/app/.hubble.pid" := "pid 77" ]} ∅ ∅ {[ 77%Z ]})
  = (inr InvalidPid, mkOS {[ "/app/.hubble.pid" := "pid 77" ]} ∅ ∅ {[ 77%Z ]}).
Proof.
  refine (proj1 (invalid_record_kept_by_status "" (λ _, true) (inr empty_user)
                   (λ _, false) (mkOS ∅ ∅ ∅ ∅) "/app"
                   (mkOS {[ "/app/.hubble.pid" := "pid 77" ]} ∅ ∅ {[ 77%Z ]})
                   "pid 77" _ _ _)).
  - vm_compute. reflexivity.
  - vm_compute. reflexivity.
  - vm_compute. set_solver.
Defined.

(** X21. [status] looks for [hubble.config.js], [start] for
    [telescope.config.js]: in a directory without [hubble.config.js],
    [status] probes [localhost:3737] whatever address [start] bound, and
    its report is that of this probe. *)
Theorem status_probes_default_address st pid imported imported' opens cwd os
    server onSignal os' :
  (0 < pid < 2 ^ 53)%Z →
  start st pid imported cwd os = (Serving server onSignal, os') →
  pid ∈ alive os' →
  files os !! path_join cwd "hubble.config.js" = None →
  statusCommand st opens imported' cwd os'
  = (inr (if opens ("localhost", 3737%Z) then Healthy else Unresponsive), os').
Proof.
  intros _ (Hf & _ & _)%start_Serving_record Halive Hnone. unfold statusCommand.
  rewrite Hf, lookup_insert_eq, parseInt_pretty.
  rewrite (proj2 (exists_process_true pid os') Halive).
  rewrite lookup_insert_ne by (by intros ?%path_join_inj).
  rewrite Hnone. rewrite bool_decide_eq_false_2 by (by intros [? ?]).
  by destruct (opens _).
Qed.

Lemma status_probes_default_address_witness :
  ∃ os',
    start "" 5000 (inr (mkUserConfig None None None None
                          (Some (mkUserServer (Some 4000%Z) None)))) "/app"
      (mkOS {[ "/app/telescope.config.js" := "export default { server: { port: 4000 } }" ]}
         ∅ ∅ {[ 5000%Z ]})
    = (Serving 5000 (Cleanup "/app/.hubble.pid" ("localhost", 4000%Z)), os')
    ∧ statusCommand "" (λ address, bool_decide (address = ("localhost", 4000%Z)))
        (inr empty_user) "/app" os'
      = (inr Unresponsive, os').
Proof.
  eexists. split; [vm_compute; reflexivity|].
  match goal with |- statusCommand _ _ _ _ ?w = _ =>
    assert (Hstart :
      start "" 5000 (inr (mkUserConfig None None None None
                            (Some (mkUserServer (Some 4000%Z) None)))) "/app"
        (mkOS {[ "/app/telescope.config.js"
                 := "export default { server: { port: 4000 } }" ]}
           ∅ ∅ {[ 5000%Z ]})
      = (Serving 5000 (Cleanup "/app/.hubble.pid" ("localhost", 4000%Z)), w))
      by (vm_compute; reflexivity);
    assert (Halive : 5000%Z ∈ alive w) by (vm_compute; set_solver)
  end.
  refine (status_probes_default_address "" 5000 _ (inr empty_user)
            (λ address, bool_decide (address = ("localhost", 4000%Z))) "/app" _ _ _ _
            _ Hstart Halive _).
  - lia.
  - vm_compute. reflexivity.
Defined.

(** X22. [init] writes the configuration file only where there is none:
    an existing file is left as it is, a second run changes nothing, and
    after a run that does not throw the file is there. *)
Theorem init_writes_once st cwd os r os' :
  initCommand st cwd os = (inr r, os') →
  let path := path_join cwd "telescope.config.js" in
  files os' !! path
  = Some (if r then configContent else default configContent (files os !! path))
  ∧ (r = false → os' = os)
  ∧ (r = true → files os !! path = None)
  ∧ initCommand st cwd os' = (inr false, os').
Proof.
  intros H path. subst path. revert H. unfold initCommand.
  destruct (files os !! path_join cwd "telescope.config.js") as [content|] eqn:Hf.
  - intros [= <- <-]. rewrite Hf. by repeat split.
  - unfold writeFileSync. destruct (decide _); [done|]. intros [= <- <-]. cbn.
    rewrite lookup_insert_eq. by repeat split.
Qed.

Lemma init_writes_once_witness :
  files (snd (initCommand "" "/app" (mkOS {[ "/app/telescope.config.js" := "old" ]} ∅ ∅ ∅)))
    !! "/app/telescope.config.js" = Some "old".
Proof.
  refine (proj1 (init_writes_once "" "/app"
                   (mkOS {[ "/app/telescope.config.js" := "old" ]} ∅ ∅ ∅) false _ _)).
  vm_compute. reflexivity.
Defined.

End SupervisorProps.

(** ** Retries *)

Module ErrorHandlerProps.
Import ErrorHandler.

Section Retry.
Context {T : Type}.
Variable fn : nat → Error + T.
Variable st : string.

Lemma backoff_S k : backoff (S k) = backoff k ++ [2 ^ Z.of_nat k * 1000]%Z.
Proof. unfold backoff. by rewrite seq_S, fmap_app. Qed.

(** The loop entered at turn [i], after [i] failures and their delays. *)
Lemma retry_loop_spec maxRetries id remaining : ∀ i lastError attempts,
  Z.of_nat (i + remaining) = maxRetries →
  (0 < remaining)%nat →
  let r := retry_loop fn st maxRetries id remaining i lastError (backoff i) attempts in
  (i < retry_calls r ≤ i + remaining)%nat
  ∧ retry_delays r = backoff (retry_calls r - 1)
  ∧ (∀ j, (i ≤ j < retry_calls r - 1)%nat → ∃ e, fn j = inl e)
  ∧ match retry_result r with
    | inr v =>
        fn (retry_calls r - 1)%nat = inr v
        ∧ retry_attempts r = delete id attempts
    | inl e =>
        fn (retry_calls r - 1)%nat = inl e
        ∧ retry_calls r = (i + remaining)%nat
        ∧ retry_attempts r = <[id := retry_calls r]> attempts
    end.
Proof.
  induction remaining as [|remaining IH]; intros i lastError attempts Hinv Hpos; [lia|].
  cbn [retry_loop]. destruct (fn i) as [error|result] eqn:Hfn.
  - destruct (Z.eqb_spec (Z.of_nat i) (maxRetries - 1)) as [Hlast|Hmore].
    + cbn. replace (i - 0)%nat with i by lia.
      assert (remaining = 0%nat) as -> by lia.
      repeat split; try done; try lia.
    + rewrite <- backoff_S.
      destruct (IH (S i) (Some error) (<[id := S i]> attempts)) as (Hc & Hd & Hf & Hr);
        [lia | lia |].
      split; [lia|]. split; [done|]. split.
      * intros j Hj. destruct (decide (j = i)) as [-> | ?]; [by eauto|].
        apply Hf. lia.
      * destruct (retry_result _) as [e|v]; 
          [|destruct Hr as [? ->]; split; [done | apply delete_insert_eq]].
        destruct Hr as (? & ? & ->). rewrite insert_insert_eq.
        repeat split; [done | lia].
  - cbn. replace (i - 0)%nat with i by lia. repeat split; try done; try lia.
Qed.

End Retry.

Lemma retryWithBackoff_spec {T} (fn : nat → Error + T) st maxRetries operationId attempts :
  (0 < maxRetries)%Z →
  let r := retryWithBackoff fn st maxRetries operationId attempts in
  (0 < retry_calls r ≤ Z.to_nat maxRetries)%nat
  ∧ retry_delays r = backoff (retry_calls r - 1)
  ∧ (∀ j, (j < retry_calls r - 1)%nat → ∃ e, fn j = inl e)
  ∧ match retry_result r with
    | inr v =>
        fn (retry_calls r - 1)%nat = inr v
        ∧ retry_attempts r = delete (id_of operationId) attempts
    | inl e =>
        fn (retry_calls r - 1)%nat = inl e
        ∧ retry_calls r = Z.to_nat maxRetries
        ∧ retry_attempts r = <[id_of operationId := retry_calls r]> attempts
    end.
Proof.
  intros Hpos r. subst r. unfold retryWithBackoff.
  destruct (retry_loop_spec fn st maxRetries (id_of operationId) (Z.to_nat maxRetries)
              0 None attempts) as (Hc & Hd & Hf & Hr); [lia | lia |].
  change (backoff 0) with (@nil Z) in *.
  split; [lia|]. split; [done|]. split; [intros j ?; apply Hf; lia|].
  by destruct (retry_result _).
Qed.

Lemma total_backoff k : total (backoff k) = ((2 ^ Z.of_nat k - 1) * 1000)%Z.
Proof.
  induction k as [|k IH]; [done|].
  rewrite backoff_S. unfold total in *. rewrite foldr_app. cbn [foldr].
  assert (E : ∀ l a, foldr Z.add a l = (foldr Z.add 0 l + a)%Z).
  { induction l as [|x l IHl]; intros a; cbn; [lia|]. rewrite IHl. lia. }
  rewrite E, IH. rewrite Nat2Z.inj_succ, Z.pow_succ_r by lia. lia.
Qed.

(** X23. [retryWithBackoff] returns the value of the first call of [fn]
    that succeeds, provided it is among the first [maxRetries] calls: it
    has then called [fn] once more than it failed, has waited 1 s, 2 s,
    4 s, ... after the failures, and has removed the retry count of the
    operation. *)
Theorem retry_returns_first_success {T} (fn : nat → Error + T) st maxRetries
    operationId attempts k v :
  (Z.of_nat k < maxRetries)%Z →
  fn k = inr v →
  (∀ j, (j < k)%nat → ∃ e, fn j = inl e) →
  let r := retryWithBackoff fn st maxRetries operationId attempts in
  retry_result r = inr v
  ∧ retry_calls r = S k
  ∧ retry_delays r = backoff k
  ∧ getRetryCount (id_of operationId) (retry_attempts r) = 0%nat.
Proof.
  intros Hk Hv Hfail r.
  destruct (retryWithBackoff_spec fn st maxRetries operationId attempts ltac:(lia))
    as (Hc & Hd & Hf & Hr). fold r in Hc, Hd, Hf, Hr.
  assert (Hlast : (retry_calls r - 1)%nat = k).
  { destruct (Nat.lt_trichotomy (retry_calls r - 1) k) as [Hlt | [? | Hgt]]; [|done|].
    - destruct (Hfail _ Hlt) as [e He].
      destruct (retry_result r); [|destruct Hr; congruence].
      destruct Hr as (? & ? & _). lia.
    - destruct (Hf k Hgt) as [e He]. congruence. }
  rewrite Hlast in *.
  destruct (retry_result r) as [e|v']; [destruct Hr; congruence|].
  destruct Hr as [Hr ->]. unfold getRetryCount. rewrite lookup_delete_eq.
  repeat split; [congruence | lia | done].
Qed.

Lemma retry_returns_first_success_witness :
  retry_delays
    (retryWithBackoff
       (λ k, if (k <? 2)%nat then inl (new_Error "busy" "") else inr "done")
       "" 3 (Some "open") {[ "open" := 1%nat ]})
  = [1000; 2000]%Z.
Proof.
  refine (proj1 (proj2 (proj2 (retry_returns_first_success
            (λ k, if (k <? 2)%nat then inl (new_Error "busy" "") else inr "done")
            "" 3 (Some "open") {[ "open" := 1%nat ]} 2 "done" _ _ _)))).
  - lia.
  - reflexivity.
  - intros j Hj. exists (new_Error "busy" "").
    by destruct j as [|[|j]]; [..|lia].
Defined.

(** X24. When each of the first [maxRetries] calls of [fn] fails,
    [retryWithBackoff] calls [fn] exactly [maxRetries] times, rejects
    with the error of the last call, waits after every failure but the
    last, and leaves [maxRetries] as the retry count of the operation. *)
Theorem retry_gives_up {T} (fn : nat → Error + T) st maxRetries operationId attempts :
  (0 < maxRetries)%Z →
  (∀ j, (Z.of_nat j < maxRetries)%Z → ∃ e, fn j = inl e) →
  let r := retryWithBackoff fn st maxRetries operationId attempts in
  let n := Z.to_nat maxRetries in
  retry_result r = fn (n - 1)%nat
  ∧ retry_calls r = n
  ∧ retry_delays r = backoff (n - 1)
  ∧ getRetryCount (id_of operationId) (retry_attempts r) = n.
Proof.
  intros Hpos Hfail r n.
  destruct (retryWithBackoff_spec fn st maxRetries operationId attempts Hpos)
    as (Hc & Hd & Hf & Hr). fold r in Hc, Hd, Hf, Hr.
  destruct (retry_result r) as [e|v].
  - destruct Hr as (He & Hn & Ha). fold n in Hn. rewrite Hn in *.
    unfold getRetryCount. rewrite Ha, lookup_insert_eq. by repeat split.
  - destruct Hr as [Hv _]. destruct (Hfail (retry_calls r - 1)%nat) as [e He]; [lia|].
    congruence.
Qed.

Lemma retry_gives_up_witness :
  retry_delays
    (retryWithBackoff (λ _, inl (new_Error "busy" "") : Error + string) "" 3 None ∅)
  = [1000; 2000]%Z.
Proof.
  refine (proj1 (proj2 (proj2 (retry_gives_up
            (λ _, inl (new_Error "busy" "") : Error + string) "" 3 None ∅ _ _)))).
  - lia.
  - intros j _. by eexists.
Defined.

(** X25. Whatever [fn] does, [retryWithBackoff] calls it at most
    [maxRetries] times and waits only between two calls, 1000 * 2^i ms
    after failure number [i]: less than 1000 * 2^(calls - 1) ms in all.
    With no turn at all ([maxRetries] not positive) it calls nothing and
    rejects with [Retry failed]. *)
Theorem retry_bounded {T} (fn : nat → Error + T) st maxRetries operationId attempts :
  let r := retryWithBackoff fn st maxRetries operationId attempts in
  (retry_calls r ≤ Z.to_nat maxRetries)%nat
  ∧ retry_delays r = backoff (retry_calls r - 1)
  ∧ total (retry_delays r) = ((2 ^ Z.of_nat (retry_calls r - 1) - 1) * 1000)%Z
  ∧ (retry_calls r = 0%nat ↔ (maxRetries ≤ 0)%Z)
  ∧ (retry_calls r = 0%nat →
     retry_result r = inl (new_Error "Retry failed" st) ∧ retry_attempts r = attempts).
Proof.
  intros r. destruct (Z.le_gt_cases maxRetries 0) as [Hle|Hpos].
  - assert (E : r = mkRetry (inl (new_Error "Retry failed" st)) 0 [] attempts).
    { subst r. unfold retryWithBackoff. by replace (Z.to_nat maxRetries) with 0%nat by lia. }
    rewrite E. cbn. repeat split; try done; lia.
  - destruct (retryWithBackoff_spec fn st maxRetries operationId attempts Hpos)
      as (Hc & Hd & _). fold r in Hc, Hd.
    split; [lia|]. split; [done|]. split; [by rewrite Hd, total_backoff|].
    split; [lia|]. intros ?; lia.
Qed.

End ErrorHandlerProps.

(** ** The code inserter and the editor opener *)

Module InserterProps.
Import Inserter.

Lemma is_code_true c k : is_code c k = true ↔ c = Some k.
Proof.
  destruct c as [c|]; cbn; [|done]. rewrite Nat.eqb_eq. split; congruence.
Qed.

(** X26. [insertAttribute] only inserts: the text before and after the
    position is kept as it is, with the attribute in between, and the
    attribute always comes right after a space, a tab or a newline,
    which is either the character that was before the position or a
    space that is added. *)
Theorem attribute_follows_white_space content position attribute :
  ∃ before w,
    insertAttribute content position attribute
    = before ++ w :: attribute ++ drop (Z.to_nat position) content
    ∧ white w
    ∧ (before ++ [w] = take (Z.to_nat position) content
       ∨ (w = 32%nat ∧ before = take (Z.to_nat position) content)).
Proof.
  unfold insertAttribute.
  assert (Hadd : ∃ before w,
            take (Z.to_nat position) content ++ [32%nat] ++ attribute ++ []
              ++ drop (Z.to_nat position) content
            = before ++ w :: attribute ++ drop (Z.to_nat position) content
            ∧ white w
            ∧ (before ++ [w] = take (Z.to_nat position) content
               ∨ (w = 32%nat ∧ before = take (Z.to_nat position) content))).
  { exists (take (Z.to_nat position) content), 32%nat.
    split; [done|]. split; [by left | by right]. }
  destruct (is_code (char_at content position) 62 || is_code (char_at content position) 47);
    [exact Hadd|].
  destruct (is_code (char_at content (position - 1)) 32
            || is_code (char_at content (position - 1)) 9
            || is_code (char_at content (position - 1)) 10) eqn:Hw; [|exact Hadd].
  assert (∃ w, char_at content (position - 1) = Some w ∧ white w) as (w & Hc & Hwhite).
  { apply orb_prop in Hw as [[H | H]%orb_prop | H]; apply is_code_true in H;
      eexists; (split; [exact H|]); unfold white; tauto. }
  unfold char_at in Hc. destruct (Z.ltb_spec (position - 1) 0) as [?|Hpos]; [done|].
  exists (take (Z.to_nat (position - 1)) content), w.
  assert (E : take (Z.to_nat position) content
              = take (Z.to_nat (position - 1)) content ++ [w]).
  { replace (Z.to_nat position) with (S (Z.to_nat (position - 1))) by lia.
    by apply take_S_r. }
  split; [|split; [done | by left]]. rewrite E. cbn. by rewrite <- app_assoc.
Qed.

End InserterProps.

Module OpenerProps.
Import Cli Config Opener.
Import Client (PromiseState, Pending, Fulfilled, Rejected).

(** X27. [openFile] on a file that exists resolves as soon as the
    editor is spawned, with the configured command, the configured
    arguments, [-g] and [file:line:column]; an ['error'] event of the
    child (a command that is not installed, say) comes after that and
    rejects nothing. *)
Theorem openFile_resolves_before_error spawn_throws st config filePath line column os
    content error :
  files os !! filePath = Some content →
  spawn_throws (editor_command config)
    (editor_args config
     ++ ["-g"; filePath +:+ ":" +:+ pretty line +:+ ":" +:+ pretty column]) = None →
  let r := openFile spawn_throws st config filePath line column os in
  r.1 = Fulfilled JUndefined
  ∧ r.2 = Some (editor_command config,
                editor_args config
                ++ ["-g"; filePath +:+ ":" +:+ pretty line +:+ ":" +:+ pretty column])
  ∧ on_error st (editor_command config) error r.1 = r.1.
Proof.
  intros Hf Hs r. subst r. unfold openFile, buildCommand, executeCommand.
  rewrite Hf, Hs. cbn. repeat split. unfold on_error. by destruct (includes _ _).
Qed.

Lemma openFile_resolves_before_error_witness :
  on_error "" "cursor" (new_Error "spawn cursor ENOENT" "")
    (openFile (λ _ _, None) "" getDefaults "/app/src/App.tsx" 12 5
       (mkOS {[ "/app/src/App.tsx" := "export default App" ]} ∅ ∅ ∅)).1
  = Fulfilled JUndefined.
Proof.
  destruct (openFile_resolves_before_error (λ _ _, None) "" getDefaults
              "/app/src/App.tsx" 12 5
              (mkOS {[ "/app/src/App.tsx" := "export default App" ]} ∅ ∅ ∅)
              "export default App" (new_Error "spawn cursor ENOENT" ""))
    as (Hp & _ & He).
  - vm_compute. reflexivity.
  - reflexivity.
  - change (editor_command getDefaults) with "cursor" in He. by rewrite He.
Defined.

End OpenerProps.

(** ** Prop extraction *)

Module DetectorProps.
Import Detector.

Lemma serialize_not_function levels obj : is_function (serialize levels obj) = false.
Proof. destruct levels; [done|]. by destruct obj. Qed.

Lemma within_primitive levels v : is_object v = false → within levels v = true.
Proof. by destruct levels, v. Qed.

Lemma serialize_within levels : ∀ obj, within levels (serialize levels obj) = true.
Proof.
  induction levels as [|levels IH]; intros obj; [done|].
  destruct obj as [| | | | | | |items|fields]; try done; cbn [serialize within].
  - apply andb_true_intro. split.
    + apply Nat.leb_le. rewrite length_fmap, length_take. lia.
    + apply forallb_forall. intros v [item [<- _]]%in_map_iff.
      destruct (is_object item) eqn:Ho; [apply IH | by apply within_primitive].
  - apply andb_true_intro. split.
    + apply Nat.leb_le. rewrite length_fmap, length_take. lia.
    + apply forallb_forall. intros kv [[key value] [<- _]]%in_map_iff. cbn [snd].
      destruct value; try (by destruct levels);
        by rewrite serialize_not_function, IH.
Qed.

(** X28. Every prop [extractProps] returns has a value that is no
    function and that nests arrays and objects at most two deep, with at
    most 5 items in an array, at most 10 properties in an object and no
    function as a property; [children] and the props whose name starts
    with two underscores are left out. *)
Theorem props_are_bounded memoizedProps key value :
  (key, value) ∈ extractProps memoizedProps →
  within 2 value = true
  ∧ is_function value = false
  ∧ key ≠ "children"
  ∧ String.prefix "__" key = false.
Proof.
  destruct memoizedProps as [fields|]; unfold extractProps;
    [|by intros ?%elem_of_nil].
  intros [[k v] [[= -> ->] [Hkeep _]%list_elem_of_filter]]%list_elem_of_fmap.
  cbn beta iota in Hkeep. split; [|split; [|split]].
  - destruct v; try done; exact (serialize_within 2 _).
  - destruct v; try done; exact (serialize_not_function 2 _).
  - tauto.
  - destruct (String.prefix "__" k); [tauto | done].
Qed.

Lemma props_are_bounded_witness :
  within 2 (VArr [VArr [VStr "[Object]"]; VFunction]) = true.
Proof.
  refine (proj1 (props_are_bounded
            (Some [("children", VStr "x");
                   ("rows", VArr [VArr [VObj [("a", VObj [("deep", VNum 1)])]]; VFunction])])
            "rows" (VArr [VArr [VStr "[Object]"]; VFunction]) _)).
  vm_compute. apply list_elem_of_here.
Defined.

Lemma serialize_idem levels : ∀ obj,
  serialize levels (serialize levels obj) = serialize levels obj.
Proof.
  induction levels as [|levels IH]; intros obj; [done|].
  destruct obj as [| | | | | | |items|fields]; try done; cbn [serialize]; f_equal.
  - rewrite <- fmap_take, take_take, <- list_fmap_compose.
    apply list_fmap_ext. intros _ item _. cbn.
    destruct (is_object item) eqn:Ho; [|by rewrite Ho].
    destruct (is_object (serialize levels item)); [apply IH | done].
  - rewrite <- fmap_take, take_take, <- list_fmap_compose.
    apply list_fmap_ext. intros _ [key value] _. cbn. f_equal.
    assert (Hobj : match serialize levels value with
                   | VFunction => VStr "[Function]"
                   | VArr _ | VObj _ => serialize levels (serialize levels value)
                   | _ => serialize levels value
                   end = serialize levels value).
    { pose proof (serialize_not_function levels value) as Hf. rewrite IH.
      by destruct (serialize levels value). }
    by destruct value.
Qed.

(** X29. [serializeObject] changes nothing in what it returned:
    serialising its result again, with the same depth and limit, gives
    the result back. *)
Theorem serializeObject_idempotent obj depth maxDepth :
  serializeObject (serializeObject obj depth maxDepth) depth maxDepth
  = serializeObject obj depth maxDepth.
Proof. apply serialize_idem. Qed.

End DetectorProps.
